(** * Mini Motorways RL environment: the simulation core of
    [mini_motorways_env.h] / [mini_motorways_env.cpp], embedded in Rocq.

    The embedding follows the C++ text function by function.  [int] values
    are integers in [Z]: coordinates stay within one cell of the grid, the
    counters are bounded by the episode horizon and the resource caps, so no
    signed arithmetic of the program leaves the [int] range.
    [std::unordered_map] and [std::unordered_set] are finite maps and sets
    ([gmap], [gset]); [std::vector] is [list]. *)

From stdpp Require Import base numbers option list gmap sets strings.
From Stdlib Require Import ZArith QArith Qminmax Lia.

Local Open Scope Z_scope.

(** ** Data model ([mini_motorways_env.h]) *)

Inductive TileType :=
  EMPTY | HOUSE | BUSINESS | ROAD | MOTORWAY | BRIDGE | ROUNDABOUT | TRAFFIC_LIGHT.

Inductive CarColor := RED | BLUE | GREEN | YELLOW | PURPLE | ORANGE.

#[global] Instance TileType_eq_dec : EqDecision TileType.
Proof. solve_decision. Defined.

#[global] Instance CarColor_eq_dec : EqDecision CarColor.
Proof. solve_decision. Defined.

(** [static_cast<int>(tile)] *)
Definition tile_ordinal (t : TileType) : Z :=
  match t with
  | EMPTY => 0 | HOUSE => 1 | BUSINESS => 2 | ROAD => 3
  | MOTORWAY => 4 | BRIDGE => 5 | ROUNDABOUT => 6 | TRAFFIC_LIGHT => 7
  end.

Record Position := mkPosition { pos_x : Z; pos_y : Z }.

#[global] Instance Position_eq_dec : EqDecision Position.
Proof. solve_decision. Defined.

#[global] Instance Position_countable : Countable Position :=
  inj_countable' (λ p, (pos_x p, pos_y p)) (λ xy, mkPosition xy.1 xy.2)
                 (λ p, match p with mkPosition _ _ => eq_refl end).

(** [PathFinder::Node]; [f_cost() = g_cost + h_cost]. *)
Record Node := mkNode {
  node_pos : Position;
  g_cost : Z;
  h_cost : Z;
  node_parent : Position
}.

Definition f_cost (n : Node) : Z := g_cost n + h_cost n.

(** [struct Car].  The members [visual_x], [visual_y] and [speed] are
    floating-point animation state read by the renderer only; no rule of the
    simulation reads them and they are left out. *)
Record Car := mkCar {
  position : Position;
  destination : Position;
  color : CarColor;
  path : list Position;
  stuck_time : Z;
  completed : bool
}.

(** [Car(pos, dest, col)] *)
Definition new_car (pos dest : Position) (col : CarColor) : Car :=
  mkCar pos dest col [] 0 false.

Record Building := mkBuilding {
  b_position : Position;
  b_color : CarColor;
  b_type : TileType;
  cars_spawned : Z;
  max_cars : Z
}.

(** [Building(pos, col, t)] *)
Definition new_building (pos : Position) (col : CarColor) (t : TileType) : Building :=
  mkBuilding pos col t 0 5.

(** [std::vector<std::vector<TileType>>], indexed [grid[y][x]]. *)
Definition tile_at (grid : list (list TileType)) (p : Position) : TileType :=
  default EMPTY (row ← grid !! Z.to_nat (pos_y p); row !! Z.to_nat (pos_x p)).

(** [grid[y][x] = t] *)
Definition set_tile (grid : list (list TileType)) (p : Position) (t : TileType)
  : list (list TileType) :=
  alter (λ row, <[Z.to_nat (pos_x p) := t]> row) (Z.to_nat (pos_y p)) grid.

(** [grid.size()] and [grid[0].size()] *)
Definition grid_rows (grid : list (list TileType)) : Z := Z.of_nat (length grid).
Definition grid_cols (grid : list (list TileType)) : Z :=
  Z.of_nat (length (default [] (grid !! 0%nat))).

(** The tile test written out twice in the source, in [find_path] and in
    [can_move_to]: every kind but [EMPTY]. *)
Definition passable (t : TileType) : bool :=
  match t with
  | ROAD | MOTORWAY | BRIDGE | ROUNDABOUT | TRAFFIC_LIGHT | HOUSE | BUSINESS => true
  | EMPTY => false
  end.

(** [operator[]] of [std::unordered_map<K, int>] used as an rvalue: a missing
    key is inserted with the value-initialised [0]. *)
Definition index_or_insert `{Countable K} (m : gmap K Z) (k : K) : Z * gmap K Z :=
  match m !! k with
  | Some v => (v, m)
  | None => (0, <[k := 0]> m)
  end.

(** ** PathFinder *)

(** [PathFinder::calculate_distance] *)
Definition calculate_distance (a b : Position) : Z :=
  Z.abs (pos_x a - pos_x b) + Z.abs (pos_y a - pos_y b).

(** The four locals of [find_path]. *)
Record Search := mkSearch {
  open_set : list Node;
  closed_set : gset Position;
  came_from : gmap Position Position;
  g_score : gmap Position Z
}.

Definition directions : list Position :=
  [mkPosition 0 1; mkPosition 1 0; mkPosition 0 (-1); mkPosition (-1) 0].

(** The loop of [reconstruct_path]; [fuel] bounds the number of iterations,
    [None] is "out of fuel". *)
Fixpoint reconstruct_loop (fuel : nat) (cf : gmap Position Position)
    (start current : Position) (acc : list Position) : option (list Position) :=
  if decide (current = start) then Some acc
  else match fuel with
       | O => None
       | S fuel' =>
           let acc' := acc ++ [current] in
           match cf !! current with
           | None => Some acc'
           | Some prev => reconstruct_loop fuel' cf start prev acc'
           end
       end.

(** [PathFinder::reconstruct_path] *)
Definition reconstruct_path (cf : gmap Position Position) (start goal : Position)
  : option (list Position) :=
  acc ← reconstruct_loop (S (size cf)) cf start goal [];
  Some (reverse (acc ++ [start])).

(** The body of [for (const auto& dir : directions)]. *)
Definition visit_neighbor (grid : list (list TileType)) (goal : Position)
    (current : Node) (st : Search) (dir : Position) : Search :=
  let neighbor :=
    mkPosition (pos_x (node_pos current) + pos_x dir) (pos_y (node_pos current) + pos_y dir) in
  if (pos_x neighbor <? 0) || (grid_cols grid <=? pos_x neighbor)
     || (pos_y neighbor <? 0) || (grid_rows grid <=? pos_y neighbor) then st
  else if decide (neighbor ∈ closed_set st) then st
  else if negb (passable (tile_at grid neighbor)) then st
  else
    let '(g_cur, gs) := index_or_insert (g_score st) (node_pos current) in
    let tentative_g := g_cur + 1 in
    if match gs !! neighbor with
       | None => true
       | Some g_old => tentative_g <? g_old
       end
    then
      let neighbor_node :=
        mkNode neighbor tentative_g (calculate_distance neighbor goal) (node_pos current) in
      mkSearch (neighbor_node :: open_set st) (closed_set st)
               (<[neighbor := node_pos current]> (came_from st))
               (<[neighbor := tentative_g]> gs)
    else mkSearch (open_set st) (closed_set st) (came_from st) gs.

(** [open_set.top(); open_set.pop()] of the [std::priority_queue] ordered by
    [NodeComparator]: some node of least [f_cost] leaves the queue.  Which
    one, among nodes of equal [f_cost], is left to the queue. *)
Class PriorityQueue := {
  pq_pop : list Node → option (Node * list Node)
}.

Section PathFinder.

Context {PQ : PriorityQueue}.

(** The [while (!open_set.empty())] loop. *)
Fixpoint search_loop (fuel : nat) (grid : list (list TileType))
    (start goal : Position) (st : Search) : option (list Position) :=
  match fuel with
  | O => None
  | S fuel' =>
      match pq_pop (open_set st) with
      | None => Some []
      | Some (current, rest) =>
          if decide (node_pos current = goal)
          then reconstruct_path (came_from st) start goal
          else
            let st1 := mkSearch rest ({[node_pos current]} ∪ closed_set st)
                                (came_from st) (g_score st) in
            search_loop fuel' grid start goal
                        (foldl (visit_neighbor grid goal current) st1 directions)
      end
  end.

Definition start_search (start goal : Position) : Search :=
  mkSearch [mkNode start 0 (calculate_distance start goal) (mkPosition 0 0)]
           ∅ ∅ {[start := 0]}.

(** Iterations granted to the loop: every push lowers the [g_score] of a
    cell, and no [g_score] exceeds the number of cells. *)
Definition search_fuel (grid : list (list TileType)) : nat :=
  let cells := (length grid * length (default [] (grid !! 0%nat)))%nat in
  (2 * (S cells * (cells + 2)) + 2)%nat.

(** [PathFinder::find_path] *)
Definition find_path (start goal : Position) (grid : list (list TileType))
  : list Position :=
  default [] (search_loop (search_fuel grid) grid start goal (start_search start goal)).

End PathFinder.

(** The queue discipline used to run the model: the first node of least
    [f_cost] in the list. *)
Fixpoint pop_min (l : list Node) : option (Node * list Node) :=
  match l with
  | [] => None
  | n :: l' =>
      match pop_min l' with
      | None => Some (n, [])
      | Some (m, rest) =>
          if f_cost n <=? f_cost m then Some (n, l') else Some (m, n :: rest)
      end
  end.

(** ** MiniMotorwaysEnvironment *)

Definition GRID_WIDTH : Z := 20.
Definition GRID_HEIGHT : Z := 20.
Definition MAX_STEPS : Z := 1000.

(** The simulation members of [class MiniMotorwaysEnvironment].  The window,
    the renderer and the path finder object carry no simulation state; the
    random engine [rng] is threaded beside the record. *)
Record Env := mkEnv {
  grid : list (list TileType);
  cars : list Car;
  buildings : list Building;
  resources : gmap string Z;
  score : Z;
  current_step : Z;
  game_over : bool;
  congestion_penalty : Z
}.

Definition empty_grid : list (list TileType) :=
  replicate (Z.to_nat GRID_HEIGHT) (replicate (Z.to_nat GRID_WIDTH) EMPTY).

(** The six assignments [resources["roads"] = 20; ...] of the constructor and
    of [reset]. *)
Definition initial_resources (m : gmap string Z) : gmap string Z :=
  <["upgrades" := 1]> (<["traffic_lights" := 2]> (<["roundabouts" := 1]>
    (<["bridges" := 2]> (<["motorways" := 3]> (<["roads" := 20]> m))))).

(** [MiniMotorwaysEnvironment::MiniMotorwaysEnvironment()] *)
Definition new_env : Env :=
  mkEnv empty_grid [] [] (initial_resources ∅) 0 0 false 0.

Definition is_valid_position (p : Position) : bool :=
  (0 <=? pos_x p) && (pos_x p <? GRID_WIDTH) && (0 <=? pos_y p) && (pos_y p <? GRID_HEIGHT).

Definition can_move_to (g : list (list TileType)) (p : Position) : bool :=
  if negb (is_valid_position p) then false else passable (tile_at g p).

(** One guarded placement of [execute_action] (cases 0 to 4):
    [if (resources[key] > 0 && grid[y][x] == from) { grid[y][x] = to;
    resources[key]--; return true; } break;] *)
Definition place (e : Env) (key : string) (from to : TileType) (p : Position)
  : bool * Env :=
  let '(n, res) := index_or_insert (resources e) key in
  if (0 <? n) && bool_decide (tile_at (grid e) p = from)
  then (true, mkEnv (set_tile (grid e) p to) (cars e) (buildings e)
                    (<[key := n - 1]> res)
                    (score e) (current_step e) (game_over e) (congestion_penalty e))
  else (false, mkEnv (grid e) (cars e) (buildings e) res
                     (score e) (current_step e) (game_over e) (congestion_penalty e)).

(** [resources[key]++] *)
Definition give_back (res : gmap string Z) (key : string) : gmap string Z :=
  let '(n, res') := index_or_insert res key in <[key := n + 1]> res'.

(** [MiniMotorwaysEnvironment::execute_action] *)
Definition execute_action (e : Env) (action_type x y : Z) : bool * Env :=
  let p := mkPosition x y in
  if negb (is_valid_position p) then (false, e)
  else if action_type =? 0 then place e "roads" EMPTY ROAD p
  else if action_type =? 1 then place e "motorways" EMPTY MOTORWAY p
  else if action_type =? 2 then place e "bridges" EMPTY BRIDGE p
  else if action_type =? 3 then place e "roundabouts" EMPTY ROUNDABOUT p
  else if action_type =? 4 then place e "traffic_lights" ROAD TRAFFIC_LIGHT p
  else if action_type =? 5 then
    let removed := tile_at (grid e) p in
    if bool_decide (removed = ROAD) || bool_decide (removed = MOTORWAY) then
      let res :=
        if bool_decide (removed = ROAD) then give_back (resources e) "roads"
        else if bool_decide (removed = MOTORWAY) then give_back (resources e) "motorways"
        else resources e in
      (true, mkEnv (set_tile (grid e) p EMPTY) (cars e) (buildings e) res
                   (score e) (current_step e) (game_over e) (congestion_penalty e))
    else (false, e)
  else (false, e).

(** [MiniMotorwaysEnvironment::check_game_over] *)
Definition count_stuck (cs : list Car) : Z :=
  foldl (λ stuck_cars c, if 20 <? stuck_time c then stuck_cars + 1 else stuck_cars) 0 cs.

Definition total_resources (res : gmap string Z) : Z :=
  map_fold (λ _ value total, total + value) 0 res.

Definition check_game_over (e : Env) : bool :=
  if 10 <? count_stuck (cars e) then true
  else if (total_resources (resources e) =? 0) && (15 <? Z.of_nat (length (cars e))) then true
  else if MAX_STEPS <=? current_step e then true
  else false.

(** [MiniMotorwaysEnvironment::is_done]; [should_close] is the window's close
    request, an input from outside the simulation. *)
Definition is_done (e : Env) (should_close : bool) : bool :=
  game_over e || should_close.

(** *** Observation encoder

    The entries of the observation are [float]s; they are kept here as the
    exact quotients the source rounds. *)

Definition grid_layer (g : list (list TileType)) : list Q :=
  y ← seq 0 (Z.to_nat GRID_HEIGHT);
  x ← seq 0 (Z.to_nat GRID_WIDTH);
  [(inject_Z (tile_ordinal (tile_at g (mkPosition (Z.of_nat x) (Z.of_nat y)))) / 7)%Q].

(** [car_density[car->position.y][car->position.x]++] under its bounds test. *)
Definition count_car (density : list (list Z)) (c : Car) : list (list Z) :=
  let p := position c in
  if (0 <=? pos_x p) && (pos_x p <? GRID_WIDTH) && (0 <=? pos_y p) && (pos_y p <? GRID_HEIGHT)
  then alter (alter (λ n, n + 1) (Z.to_nat (pos_x p))) (Z.to_nat (pos_y p)) density
  else density.

Definition car_density (cs : list Car) : list (list Z) :=
  foldl count_car (replicate (Z.to_nat GRID_HEIGHT) (replicate (Z.to_nat GRID_WIDTH) 0)) cs.

Definition density_at (density : list (list Z)) (x y : nat) : Z :=
  default 0 (row ← density !! y; row !! x).

Definition density_layer (cs : list Car) : list Q :=
  let density := car_density cs in
  y ← seq 0 (Z.to_nat GRID_HEIGHT);
  x ← seq 0 (Z.to_nat GRID_WIDTH);
  [Qmin (inject_Z (density_at density x y) / 5)%Q 1%Q].

(** [resources.at(key)] throws [std::out_of_range] on a missing key: [None]. *)
Definition resource_layer (res : gmap string Z) : option (list Q) :=
  roads ← res !! "roads";
  motorways ← res !! "motorways";
  bridges ← res !! "bridges";
  roundabouts ← res !! "roundabouts";
  traffic_lights ← res !! "traffic_lights";
  upgrades ← res !! "upgrades";
  Some [(inject_Z roads / 20)%Q; (inject_Z motorways / 3)%Q; (inject_Z bridges / 2)%Q;
        (inject_Z roundabouts / 1)%Q; (inject_Z traffic_lights / 2)%Q;
        (inject_Z upgrades / 1)%Q].

Definition stats_layer (e : Env) : list Q :=
  [(inject_Z (score e) / 100)%Q; (inject_Z (Z.of_nat (length (cars e))) / 50)%Q;
   (inject_Z (congestion_penalty e) / 100)%Q;
   (inject_Z (current_step e) / inject_Z MAX_STEPS)%Q].

(** [MiniMotorwaysEnvironment::get_observation] *)
Definition get_observation (e : Env) : option (list Q) :=
  layer ← resource_layer (resources e);
  Some (grid_layer (grid e) ++ density_layer (cars e) ++ layer ++ stats_layer e).

(** The [float] literal [0.3f], exactly. *)
Definition SPAWN_PROBABILITY : Q := (10066330 # 33554432)%Q.

(** The random engine and its three distributions.  [Rng] is the state of
    [std::mt19937]; a draw returns the value and the advanced state.
    [position_dist_x] and [position_dist_y] range over the columns and rows
    of the grid, [spawn_dist] over the [float]s of the unit interval. *)
Class RandomEngine := {
  Rng : Type;
  position_dist_x : Rng → Z * Rng;
  position_dist_y : Rng → Z * Rng;
  spawn_dist : Rng → Q * Rng
}.

Section Environment.

Context {PQ : PriorityQueue} {RE : RandomEngine}.

(** *** Traffic mover *)

(** The body of [for (auto& car : cars)] in [simulate_traffic]; it updates the
    car, [score] and [congestion_penalty]. *)
Definition move_car (g : list (list TileType)) (c : Car) (sc pen : Z) : Car * Z * Z :=
  if completed c then (c, sc, pen)
  else
    let route :=
      match path c with
      | [] => find_path (position c) (destination c) g
      | _ :: _ => path c
      end in
    match route with
    | _ :: next_pos :: _ =>
        if can_move_to g next_pos then
          if decide (next_pos = destination c)
          then (mkCar next_pos (destination c) (color c) (tail route) 0 true, sc + 1, pen)
          else (mkCar next_pos (destination c) (color c) (tail route) 0 false, sc, pen)
        else
          let stuck := stuck_time c + 1 in
          (mkCar (position c) (destination c) (color c) route stuck false,
           sc, if 10 <? stuck then pen + 1 else pen)
    | _ => (mkCar (position c) (destination c) (color c) route (stuck_time c) false, sc, pen)
    end.

Fixpoint traffic_loop (g : list (list TileType)) (cs : list Car) (sc pen : Z)
  : list Car * Z * Z :=
  match cs with
  | [] => ([], sc, pen)
  | c :: cs' =>
      let '(c', sc', pen') := move_car g c sc pen in
      let '(rest, sc'', pen'') := traffic_loop g cs' sc' pen' in
      (c' :: rest, sc'', pen'')
  end.

(** [MiniMotorwaysEnvironment::simulate_traffic] *)
Definition simulate_traffic (e : Env) : Env :=
  let '(moved, sc, pen) := traffic_loop (grid e) (cars e) (score e) (congestion_penalty e) in
  mkEnv (grid e) (filter (λ c, completed c = false) moved) (buildings e) (resources e)
        sc (current_step e) (game_over e) pen.

(** *** Spawner *)

(** The inner loop of [spawn_cars]: the first business of the colour. *)
Definition matching_business (col : CarColor) (bs : list Building) : option Building :=
  snd <$> list_find (λ business, b_type business = BUSINESS ∧ b_color business = col) bs.

(** The body of [for (auto& building : buildings)], at index [i]. *)
Definition spawn_from (st : list Building * list Car * Rng) (i : nat)
  : list Building * list Car * Rng :=
  let '(bs, cs, rng) := st in
  match bs !! i with
  | None => st
  | Some building =>
      if bool_decide (b_type building = HOUSE) && (cars_spawned building <? max_cars building)
      then
        let '(roll, rng') := spawn_dist rng in
        if negb (Qle_bool SPAWN_PROBABILITY roll) then
          match matching_business (b_color building) bs with
          | Some business =>
              (<[i := mkBuilding (b_position building) (b_color building) (b_type building)
                                 (cars_spawned building + 1) (max_cars building)]> bs,
               cs ++ [new_car (b_position building) (b_position business) (b_color building)],
               rng')
          | None => (bs, cs, rng')
          end
        else (bs, cs, rng')
      else st
  end.

(** [MiniMotorwaysEnvironment::spawn_cars] *)
Definition spawn_cars (e : Env) (rng : Rng) : Env * Rng :=
  if Z.rem (current_step e) 5 =? 0 then
    let '(bs, cs, rng') :=
      foldl spawn_from (buildings e, cars e, rng) (seq 0 (length (buildings e))) in
    (mkEnv (grid e) cs bs (resources e) (score e) (current_step e) (game_over e)
           (congestion_penalty e), rng')
  else (e, rng).

(** *** Initial buildings *)

(** [MiniMotorwaysEnvironment::find_empty_position] *)
Fixpoint find_empty_loop (attempts : nat) (g : list (list TileType)) (rng : Rng)
  : Position * Rng :=
  match attempts with
  | O => (mkPosition (-1) (-1), rng)
  | S attempts' =>
      let '(x, rng1) := position_dist_x rng in
      let '(y, rng2) := position_dist_y rng1 in
      if decide (tile_at g (mkPosition x y) = EMPTY) then (mkPosition x y, rng2)
      else find_empty_loop attempts' g rng2
  end.

Definition find_empty_position (g : list (list TileType)) (rng : Rng) : Position * Rng :=
  find_empty_loop 100 g rng.

Definition colors : list CarColor := [RED; BLUE; GREEN].

(** One iteration of either loop of [spawn_initial_buildings], for the kind
    [t] and the index [i] into [colors]. *)
Definition place_building (t : TileType) (st : Env * Rng) (i : nat) : Env * Rng :=
  let '(e, rng) := st in
  let '(pos, rng') := find_empty_position (grid e) rng in
  if decide (pos_x pos ≠ -1) then
    (mkEnv (set_tile (grid e) pos t) (cars e)
           (buildings e ++ [new_building pos (default RED (colors !! i)) t])
           (resources e) (score e) (current_step e) (game_over e) (congestion_penalty e),
     rng')
  else (e, rng').

(** [MiniMotorwaysEnvironment::spawn_initial_buildings] *)
Definition spawn_initial_buildings (st : Env * Rng) : Env * Rng :=
  foldl (place_building BUSINESS) (foldl (place_building HOUSE) st (seq 0 3)) (seq 0 2).

(** *** The reset/step interface *)

(** [MiniMotorwaysEnvironment::reset] *)
Definition reset (e : Env) (rng : Rng) : Env * Rng * option (list Q) :=
  let e0 := mkEnv empty_grid [] [] (initial_resources (resources e)) 0 0 false 0 in
  let '(e1, rng') := spawn_initial_buildings (e0, rng) in
  (e1, rng', get_observation e1).

(** [current_step++;] *)
Definition advance_step (e : Env) : Env :=
  mkEnv (grid e) (cars e) (buildings e) (resources e) (score e)
        (current_step e + 1) (game_over e) (congestion_penalty e).

(** The state on which [step] runs the traffic: the counter advanced and the
    action applied. *)
Definition apply_action (e : Env) (action : list Z) : Env :=
  let e1 := advance_step e in
  if default 0 (action !! 0%nat) <? 6
  then (execute_action e1 (default 0 (action !! 0%nat)) (default 0 (action !! 1%nat))
                       (default 0 (action !! 2%nat))).2
  else e1.

(** [game_over = check_game_over();] *)
Definition evaluate_termination (e : Env) : Env :=
  mkEnv (grid e) (cars e) (buildings e) (resources e) (score e) (current_step e)
        (check_game_over e) (congestion_penalty e).

(** [MiniMotorwaysEnvironment::step] *)
Definition step (e : Env) (rng : Rng) (action : list Z) : Env * Rng * option (list Q) :=
  if game_over e || negb (length action =? 3)%nat then (e, rng, get_observation e)
  else
    let e2 := simulate_traffic (apply_action e action) in
    let '(e3, rng') := spawn_cars e2 rng in
    let e4 := evaluate_termination e3 in
    (e4, rng', get_observation e4).

(** The states the interface can produce: construction, then any sequence of
    [reset], [step] and direct [execute_action] calls. *)
Inductive reachable : Env → Rng → Prop :=
| reachable_new rng : reachable new_env rng
| reachable_reset e rng : reachable e rng → reachable (reset e rng).1.1 (reset e rng).1.2
| reachable_step e rng action :
    reachable e rng → reachable (step e rng action).1.1 (step e rng action).1.2
| reachable_action e rng action_type x y :
    reachable e rng → reachable (execute_action e action_type x y).2 rng.

End Environment.

(** A sequence of [execute_action] calls. *)
Definition run_actions (e : Env) (actions : list (Z * Z * Z)) : Env :=
  foldl (λ e a, (execute_action e a.1.1 a.1.2 a.2).2) e actions.

(** ** Routes on the grid *)

(** The bounds test of [find_path]. *)
Definition in_grid (grid : list (list TileType)) (p : Position) : Prop :=
  0 ≤ pos_x p < grid_cols grid ∧ 0 ≤ pos_y p < grid_rows grid.

(** A passable cell: inside the grid, of any kind but [EMPTY]. *)
Definition open_cell (grid : list (list TileType)) (p : Position) : Prop :=
  in_grid grid p ∧ passable (tile_at grid p) = true.

Definition adjacent4 (p q : Position) : Prop :=
  Z.abs (pos_x p - pos_x q) + Z.abs (pos_y p - pos_y q) = 1.

Fixpoint stepwise_adjacent (l : list Position) : Prop :=
  match l with
  | p :: l' =>
      match l' with
      | q :: _ => adjacent4 p q ∧ stepwise_adjacent l'
      | [] => True
      end
  | [] => True
  end.

(** A sequence of 4-adjacent passable cells from [start] to [goal]. *)
Definition route (grid : list (list TileType)) (start goal : Position)
    (l : list Position) : Prop :=
  head l = Some start ∧ last l = Some goal ∧ stepwise_adjacent l
  ∧ Forall (open_cell grid) l.

Definition connected (grid : list (list TileType)) (start goal : Position) : Prop :=
  ∃ l, route grid start goal l.

(** The rows of the grid have one length, as [grid[0].size()] supposes. *)
Definition rectangular (grid : list (list TileType)) : Prop :=
  ∀ row, row ∈ grid → length row = length (default [] (grid !! 0%nat)).

(** What [std::priority_queue] promises of [top] and [pop]: the queue is
    empty or hands out one of its nodes, of least [f_cost], and keeps the
    others. *)
Definition pq_correct (PQ : PriorityQueue) : Prop :=
  ∀ l, match pq_pop l with
       | None => l = []
       | Some (n, rest) => l ≡ₚ n :: rest ∧ ∀ m, m ∈ l → f_cost n ≤ f_cost m
       end.

Definition offset (p dir : Position) : Position :=
  mkPosition (pos_x p + pos_x dir) (pos_y p + pos_y dir).

(** One move of the search: from [p] to a passable neighbour. *)
Definition edge (grid : list (list TileType)) (p q : Position) : Prop :=
  open_cell grid q ∧ ∃ dir, dir ∈ directions ∧ q = offset p dir.

(** [reach grid start k p]: [k] moves lead from [start] to [p]. *)
Inductive reach (grid : list (list TileType)) (start : Position) : Z → Position → Prop :=
| reach_start : reach grid start 0 start
| reach_move k p q : reach grid start k p → edge grid p q → reach grid start (k + 1) q.

(** [back_chain grid start p l]: [l] lists [p] and its predecessors back to,
    and without, [start]. *)
Inductive back_chain (grid : list (list TileType)) (start : Position)
  : Position → list Position → Prop :=
| back_chain_start : back_chain grid start start []
| back_chain_move p q l :
    edge grid q p → back_chain grid start q l → back_chain grid start p (p :: l).

(** The invariant of the search loop.  [cur] and [todo] describe the
    iteration under way: the neighbours of [cur] in the directions [todo]
    are still to be visited; at the head of the loop [todo] is empty. *)
Record search_inv (grid : list (list TileType)) (start goal cur : Position)
    (todo : list Position) (st : Search) : Prop := mk_search_inv {
  inv_g_start : g_score st !! start = Some 0;
  inv_cf_start : came_from st !! start = None;
  inv_closed_start : ∀ p, p ∈ closed_set st → start ∈ closed_set st;
  inv_goal : goal ∉ closed_set st;
  inv_open_sound : ∀ n, n ∈ open_set st →
    h_cost n = calculate_distance (node_pos n) goal
    ∧ ∃ v, g_score st !! node_pos n = Some v ∧ v ≤ g_cost n;
  inv_open_complete : ∀ p v, g_score st !! p = Some v → p ∉ closed_set st →
    ∃ n, n ∈ open_set st ∧ node_pos n = p ∧ g_cost n = v;
  inv_closed_dom : ∀ p, p ∈ closed_set st → is_Some (g_score st !! p);
  inv_chain : ∀ p v, g_score st !! p = Some v → p ≠ start →
    ∃ q, came_from st !! p = Some q ∧ q ∈ closed_set st
         ∧ g_score st !! q = Some (v - 1) ∧ edge grid q p;
  inv_closed_opt : ∀ p k v, p ∈ closed_set st → reach grid start k p →
    g_score st !! p = Some v → v ≤ k;
  inv_closed_edges : ∀ p q, p ∈ closed_set st → edge grid p q →
    (p = cur → ∀ dir, dir ∈ todo → q ≠ offset cur dir) →
    ∃ u v, g_score st !! p = Some u ∧ g_score st !! q = Some v ∧ v ≤ u + 1;
  inv_cf_dom : ∀ p, is_Some (came_from st !! p) →
    in_grid grid p ∧ is_Some (g_score st !! p);
  inv_g_bound : ∀ p v, g_score st !! p = Some v → 0 ≤ v ≤ Z.of_nat (size (came_from st));
  inv_g_dom : ∀ p, is_Some (g_score st !! p) → p = start ∨ in_grid grid p
}.

(** The cells of the grid, and the measure that bounds the iterations of the
    search: the length of the queue plus twice the sum, over the start and
    the cells, of the [g_score] (or of the bound [B], where none is set). *)
Definition cells (grid : list (list TileType)) : list Position :=
  y ← seq 0 (length grid);
  x ← seq 0 (length (default [] (grid !! 0%nat)));
  [mkPosition (Z.of_nat x) (Z.of_nat y)].

Definition cost (B : nat) (gs : gmap Position Z) (p : Position) : nat :=
  match gs !! p with
  | None => B
  | Some v => Z.to_nat v
  end.

Definition potential (B : nat) (keys : list Position) (gs : gmap Position Z) : nat :=
  sum_list_with (cost B gs) keys.

Definition search_measure (grid : list (list TileType)) (start : Position) (st : Search)
  : nat :=
  (length (open_set st)
   + 2 * potential (length (cells grid) + 2) (start :: cells grid) (g_score st))%nat.

(** A small grid to run the path finder on. *)
Definition demo_grid : list (list TileType) :=
  [[ROAD; ROAD; ROAD];
   [ROAD; EMPTY; ROAD];
   [HOUSE; EMPTY; BUSINESS]].

(** ** Well-formed states *)

Definition resource_keys : list string :=
  ["roads"; "motorways"; "bridges"; "roundabouts"; "traffic_lights"; "upgrades"].

(** Every resource category has a count, and the count is not negative. *)
Definition ledger_ok (res : gmap string Z) : Prop :=
  ∀ key, key ∈ resource_keys → ∃ n, res !! key = Some n ∧ 0 ≤ n.

(** The grid is the 20 by 20 matrix of the configuration. *)
Definition grid_ok (g : list (list TileType)) : Prop :=
  length g = Z.to_nat GRID_HEIGHT ∧ Forall (λ row, length row = Z.to_nat GRID_WIDTH) g.

(** The sum of the six resource counts. *)
Definition six_counts (res : gmap string Z) : Z :=
  foldr (λ key total, default 0 (res !! key) + total) 0 resource_keys.

(** What [spawn_initial_buildings] leaves alone. *)
Definition same_counters (e' e : Env) : Prop :=
  cars e' = cars e ∧ resources e' = resources e ∧ score e' = score e
  ∧ current_step e' = current_step e ∧ game_over e' = game_over e
  ∧ congestion_penalty e' = congestion_penalty e.

(** The resource category a placement action draws on. *)
Definition resource_of_kind (kind : Z) : string :=
  if kind =? 0 then "roads"
  else if kind =? 1 then "motorways"
  else if kind =? 2 then "bridges"
  else if kind =? 3 then "roundabouts"
  else "traffic_lights".

(** Kind and colour of the registered buildings, in registry order. *)
Definition kinds (bs : list Building) : list (TileType * CarColor) :=
  (λ b, (b_type b, b_color b)) <$> bs.

(** The registry [spawn_initial_buildings] builds when each of its five
    searches for an empty cell finds one. *)
Definition intended_buildings : list (TileType * CarColor) :=
  [(HOUSE, RED); (HOUSE, BLUE); (HOUSE, GREEN); (BUSINESS, RED); (BUSINESS, BLUE)].

(** What holds of an active vehicle between two steps. *)
Definition car_ok (c : Car) : Prop :=
  completed c = false
  ∧ ((length (path c) ≤ 1)%nat → stuck_time c = 0)
  ∧ (color c = RED ∨ color c = BLUE).

(** The invariant of the environment. *)
Record env_ok (e : Env) : Prop := mk_env_ok {
  ok_grid : grid_ok (grid e);
  ok_ledger : ledger_ok (resources e);
  ok_dom : dom (resources e) = list_to_set resource_keys;
  ok_cars : ∀ c, c ∈ cars e → car_ok c;
  ok_buildings : kinds (buildings e) `sublist_of` intended_buildings;
  ok_green : ∀ b, b ∈ buildings e → b_color b = GREEN → cars_spawned b = 0
}.

(** The number of active vehicles stuck for more than twenty steps. *)
Definition stuck_over_20 (cs : list Car) : Z :=
  Z.of_nat (length (filter (λ c, 20 < stuck_time c) cs)).

(** A queue and a random engine to run the model with: the first node of
    least cost; a counter whose draws walk along the diagonal of the grid
    and whose spawn rolls alternate between 0 and 1/2. *)
Definition first_min_queue : PriorityQueue := {| pq_pop := pop_min |}.

Definition counter_engine : RandomEngine := {|
  Rng := nat;
  position_dist_x := λ n, (Z.of_nat (n mod 20), S n);
  position_dist_y := λ n, (Z.of_nat (n mod 20), S n);
  spawn_dist := λ n, (if Nat.even n then 0%Q else (1 # 2)%Q, S n)
|}.

(** The route a vehicle holds when the traffic mover looks at its second
    waypoint: the stored one, or the one just planned if none was stored. *)
Definition planned_route {PQ : PriorityQueue} (g : list (list TileType)) (c : Car)
  : list Position :=
  match path c with
  | [] => find_path (position c) (destination c) g
  | _ :: _ => path c
  end.

(** The vehicle is active and the second waypoint of its route is not
    passable. *)
Definition stalls {PQ : PriorityQueue} (g : list (list TileType)) (c : Car) : bool :=
  negb (completed c) &&
  match planned_route g c with
  | _ :: next_pos :: _ => negb (can_move_to g next_pos)
  | _ => false
  end.

(** The vehicle stalls and its counter thereby exceeds the threshold. *)
Definition penalised {PQ : PriorityQueue} (g : list (list TileType)) (c : Car) : bool :=
  stalls g c && (10 <? stuck_time c + 1).

(** The vehicle as the traffic mover leaves it. *)
Definition moved_car {PQ : PriorityQueue} (g : list (list TileType)) (c : Car) : Car :=
  (move_car g c 0 0).1.1.

(** A short run of the model: a reset, then five steps with the pass
    action; the fifth step is the first on which the spawner runs. *)
Definition demo_reset : Env * @Rng counter_engine :=
  (reset (RE := counter_engine) new_env 0%nat).1.

Definition demo_pass (s : Env * @Rng counter_engine) : Env * @Rng counter_engine :=
  (step (PQ := first_min_queue) (RE := counter_engine) s.1 s.2 [6; 0; 0]).1.

Definition demo_state : Env * @Rng counter_engine :=
  demo_pass (demo_pass (demo_pass (demo_pass (demo_pass demo_reset)))).

(** The layout of an observation: 810 values, in four layers. *)
Definition observation_layout (obs : list Q) : Prop :=
  length obs = 810%nat
  ∧ ∃ grid_values density_values resource_values scalar_values,
      obs = grid_values ++ density_values ++ resource_values ++ scalar_values
      ∧ length grid_values = 400%nat ∧ length density_values = 400%nat
      ∧ length resource_values = 6%nat ∧ length scalar_values = 4%nat.

(** ** Renderer ([renderer.cpp]): the status bars *)

(** One quad drawn by [render_ui], by the loop indices its translation is
    computed from: a resource bar, at [(ui_x + j * 0.2f, ui_y + i * 0.5f)],
    or a score bar, at [(ui_x + i * 0.1f, ui_y + 6.0f)]. *)
Inductive UiQuad : Type :=
| ResourceBar (i : nat) (j : Z)
| ScoreBar (i : Z).

(** The keys of [resource_colors], in order. *)
Definition resource_bar_names : list string :=
  ["roads"; "motorways"; "bridges"; "roundabouts"; "traffic_lights"].

(** The values [j] takes in [for (int j = 0; j < count && j < 10; j++)], and
    [i] in [for (int i = 0; i < score_bars; i++)]. *)
Definition loop_indices (bound : Z) : list Z := Z.of_nat <$> seq 0 (Z.to_nat bound).

(** The outer loop of the resource bars, from index [i] on;
    [resources.at(resource_name)] throws on a missing key: [None]. *)
Fixpoint resource_bars (i : nat) (names : list string) (resources : gmap string Z)
  : option (list UiQuad) :=
  match names with
  | [] => Some []
  | resource_name :: names' =>
      count ← resources !! resource_name;
      rest ← resource_bars (S i) names' resources;
      Some ((ResourceBar i <$> loop_indices (Z.min count 10)) ++ rest)
  end.

(** [Renderer::render_ui]: the quads it draws, in order. *)
Definition render_ui (score step : Z) (resources : gmap string Z) : option (list UiQuad) :=
  bars ← resource_bars 0 resource_bar_names resources;
  let score_bars := Z.min (Z.quot score 5) 20 in
  Some (bars ++ (ScoreBar <$> loop_indices score_bars)).

(** ** The driver ([main.cpp]) *)

(** [class RLAgent]: the state an agent keeps (a random engine, a model) and
    its [get_action], which may advance that state.  [update], [save_model]
    and [load_model] are not called by the loops of [main]. *)
Class RLAgent := {
  Agent : Type;
  get_action : Agent → list Q → list Z * Agent
}.

(** The engine of [RandomAgent] and its two distributions. *)
Class AgentEngine := {
  AgentRng : Type;
  action_type_dist : AgentRng → Z * AgentRng;
  position_dist : AgentRng → Z * AgentRng
}.

(** [RandomAgent::get_action]: the three draws of the braced list, in order. *)
Definition random_action {AE : AgentEngine} (rng : AgentRng) : list Z * AgentRng :=
  let '(action_type, rng1) := action_type_dist rng in
  let '(x, rng2) := position_dist rng1 in
  let '(y, rng3) := position_dist rng2 in
  ([action_type; x; y], rng3).

Definition RandomAgent {AE : AgentEngine} : RLAgent :=
  {| Agent := AgentRng; get_action := λ rng _, random_action rng |}.

(** How a loop of the driver ends: it leaves the loop, an exception leaves
    the program ([resources.at] in [get_observation]), or the iterations
    granted to the model run out. *)
Inductive Outcome (A : Type) : Type :=
| Finished (a : A)
| Threw
| OutOfFuel.

Arguments Finished {A} a.
Arguments Threw {A}.
Arguments OutOfFuel {A}.

Section Driver.

Context {PQ : PriorityQueue} {RE : RandomEngine} {AG : RLAgent}.

(** The loop of one training episode,
    [while (!env.is_done()) { action = agent.get_action(observation);
    observation = env.step(action); total_reward += 1.0f; ... }].
    [should_close k] is the answer of the window to the [k]-th test of the
    loop condition; rendering and sleeping leave the environment as it is.
    [total_reward] is a [float] that counts up by 1, exact as an integer
    below 2^24. *)
Fixpoint episode_loop (fuel : nat) (should_close : nat → bool) (k : nat)
    (e : Env) (rng : Rng) (agent : Agent) (observation : list Q) (total_reward : Z)
  : Outcome (Env * Rng * Agent * Z) :=
  match fuel with
  | O => OutOfFuel
  | S fuel' =>
      if is_done e (should_close k) then Finished (e, rng, agent, total_reward)
      else
        let '(action, agent') := get_action agent observation in
        match step e rng action with
        | (e', rng', Some observation') =>
            episode_loop fuel' should_close (S k) e' rng' agent' observation'
                         (total_reward + 1)
        | (_, _, None) => Threw
        end
  end.

(** One episode of the training mode: [observation = env.reset();
    total_reward = 0.0f;], then the loop. *)
Definition run_episode (fuel : nat) (should_close : nat → bool)
    (e : Env) (rng : Rng) (agent : Agent) : Outcome (Env * Rng * Agent * Z) :=
  match reset e rng with
  | (e0, rng0, Some observation) =>
      episode_loop fuel should_close 0 e0 rng0 agent observation 0
  | (_, _, None) => Threw
  end.

End Driver.

(** An engine to run [RandomAgent] with: a counter. *)
Definition counter_agent_engine : AgentEngine := {|
  AgentRng := nat;
  action_type_dist := λ n, (Z.of_nat (n mod 7), S n);
  position_dist := λ n, (Z.of_nat (n mod 20), S n)
|}.

(** An agent whose actions are empty. *)
Definition silent_agent : RLAgent := {| Agent := unit; get_action := λ _ _, ([], tt) |}.

(** ** Notions for the further properties *)

(** The number a resource category stands at; a missing category reads 0, as
    [resources[key]] does. *)
Definition resource_count (res : gmap string Z) (key : string) : Z :=
  default 0 (res !! key).

(** When [execute_action] succeeds: the cell is on the grid and the action
    fits the tile and the ledger. *)
Definition action_applies (e : Env) (action_type : Z) (p : Position) : Prop :=
  is_valid_position p = true
  ∧ ((action_type = 0 ∧ 0 < resource_count (resources e) "roads"
      ∧ tile_at (grid e) p = EMPTY)
     ∨ (action_type = 1 ∧ 0 < resource_count (resources e) "motorways"
        ∧ tile_at (grid e) p = EMPTY)
     ∨ (action_type = 2 ∧ 0 < resource_count (resources e) "bridges"
        ∧ tile_at (grid e) p = EMPTY)
     ∨ (action_type = 3 ∧ 0 < resource_count (resources e) "roundabouts"
        ∧ tile_at (grid e) p = EMPTY)
     ∨ (action_type = 4 ∧ 0 < resource_count (resources e) "traffic_lights"
        ∧ tile_at (grid e) p = ROAD)
     ∨ (action_type = 5 ∧ (tile_at (grid e) p = ROAD ∨ tile_at (grid e) p = MOTORWAY))).

(** The number of cells of kind [t] on the grid. *)
Definition count_in_row (t : TileType) (row : list TileType) : nat :=
  sum_list_with (λ tile, if decide (tile = t) then 1%nat else 0%nat) row.

Definition count_tiles (t : TileType) (g : list (list TileType)) : Z :=
  Z.of_nat (sum_list_with (count_in_row t) g).

(** The resource accounting: what is left of a category plus what lies on
    the grid is what the episode started with. *)
Definition ledger_balanced (e : Env) : Prop :=
  resource_count (resources e) "roads"
    + count_tiles ROAD (grid e) + count_tiles TRAFFIC_LIGHT (grid e) = 20
  ∧ resource_count (resources e) "motorways" + count_tiles MOTORWAY (grid e) = 3
  ∧ resource_count (resources e) "bridges" + count_tiles BRIDGE (grid e) = 2
  ∧ resource_count (resources e) "roundabouts" + count_tiles ROUNDABOUT (grid e) = 1
  ∧ resource_count (resources e) "traffic_lights" + count_tiles TRAFFIC_LIGHT (grid e) = 2
  ∧ resource_count (resources e) "upgrades" = 1.

(** The vehicles the houses have sent out. *)
Definition total_spawned (bs : list Building) : Z :=
  foldr (λ b total, cars_spawned b + total) 0 bs.

(** How many vehicles a building of this kind and colour can send out: five
    for the red and the blue house, none for the others. *)
Definition spawn_cap (k : TileType * CarColor) : Z :=
  match k with
  | (HOUSE, RED) | (HOUSE, BLUE) => 5
  | _ => 0
  end.

(** The vehicle accounting of an episode. *)
Record fleet_ok (e : Env) : Prop := mk_fleet_ok {
  fleet_active : ∀ c, c ∈ cars e → completed c = false;
  fleet_score : 0 ≤ score e;
  fleet_total : Z.of_nat (length (cars e)) + score e = total_spawned (buildings e);
  fleet_cap : ∀ b, b ∈ buildings e →
    max_cars b = 5 ∧ 0 ≤ cars_spawned b ≤ spawn_cap (b_type b, b_color b);
  fleet_clock : 0 ≤ current_step e ≤ MAX_STEPS
                ∧ (game_over e = true ↔ current_step e = MAX_STEPS)
}.

(** A run of [step] over a sequence of actions. *)
Definition run_steps {PQ : PriorityQueue} {RE : RandomEngine}
    (s : Env * Rng) (actions : list (list Z)) : Env * Rng :=
  foldl (λ s action, (step s.1 s.2 action).1) s actions.

(** The stored route of a vehicle: none, or a sequence of 4-adjacent cells
    from where the vehicle is to where it is bound. *)
Definition route_ok (c : Car) : Prop :=
  path c = []
  ∨ (head (path c) = Some (position c) ∧ last (path c) = Some (destination c)
     ∧ stepwise_adjacent (path c)).

(** Where, of what colour and of what kind the registered buildings are. *)
Definition sites (bs : list Building) : list (Position * CarColor * TileType) :=
  (λ b, (b_position b, b_color b, b_type b)) <$> bs.

(** The cell [spawn_cars] sends the vehicles of a colour to. *)
Definition business_position (col : CarColor) (bs : list Building) : option Position :=
  b_position <$> matching_business col bs.

(** What holds of the traffic between two steps. *)
Record traffic_ok (e : Env) : Prop := mk_traffic_ok {
  traffic_routes : ∀ c, c ∈ cars e → route_ok c;
  traffic_bound : ∀ c, c ∈ cars e →
    business_position (color c) (buildings e) = Some (destination c);
  traffic_stuck : ∀ c, c ∈ cars e → 0 ≤ stuck_time c;
  traffic_penalty : 0 ≤ congestion_penalty e
}.

(** What [std::uniform_int_distribution<int>] with the bounds
    [(0, GRID_WIDTH - 1)] and [(0, GRID_HEIGHT - 1)] promises of the two
    position draws. *)
Definition engine_in_range (RE : RandomEngine) : Prop :=
  ∀ rng, 0 ≤ (position_dist_x rng).1 < GRID_WIDTH
         ∧ 0 ≤ (position_dist_y rng).1 < GRID_HEIGHT.

(** The registry and the grid agree on the buildings. *)
Record sites_ok (e : Env) : Prop := mk_sites_ok {
  sites_tiles : ∀ b, b ∈ buildings e →
    is_valid_position (b_position b) = true
    ∧ (b_type b = HOUSE ∨ b_type b = BUSINESS)
    ∧ tile_at (grid e) (b_position b) = b_type b;
  sites_apart : NoDup (b_position <$> buildings e);
  sites_all : ∀ p, is_valid_position p = true →
    tile_at (grid e) p = HOUSE ∨ tile_at (grid e) p = BUSINESS →
    ∃ b, b ∈ buildings e ∧ b_position b = p
}.

(** The range of an observation value: every entry is at least 0, and every
    entry but the congestion one, at index 808, is at most 1. *)
Definition value_in_range (i : nat) (q : Q) : Prop :=
  (0 <= q)%Q ∧ (i ≠ 808%nat → (q <= 1)%Q).

(** [k] passes of the traffic mover over one vehicle, on a grid that stays
    as it is. *)
Definition drive {PQ : PriorityQueue} (g : list (list TileType)) (k : nat) (c : Car) : Car :=
  Nat.iter k (moved_car g) c.

(** The grid of the constructor with a road along the cells (0,0), (1,0) and
    (2,0). *)
Definition three_roads : list (list TileType) :=
  set_tile (set_tile (set_tile empty_grid (mkPosition 0 0) ROAD) (mkPosition 1 0) ROAD)
           (mkPosition 2 0) ROAD.

(** Where the active vehicles are: on the grid, and not yet where they are
    bound. *)
Definition on_the_road (e : Env) : Prop :=
  ∀ c, c ∈ cars e → is_valid_position (position c) = true ∧ position c ≠ destination c.

(** States to run the termination evaluator on.  [jammed_env]: the grid of
    the constructor with eleven vehicles at (0,0), each holding a route whose
    next cell (1,0) is empty, stuck for 21 steps.  [spent_env]: sixteen idle
    vehicles and a ledger with every count at 0.  [crowded_env]: the same
    sixteen vehicles with the ledger of the constructor. *)
Definition jammed_car : Car :=
  mkCar (mkPosition 0 0) (mkPosition 5 5) RED [mkPosition 0 0; mkPosition 1 0] 21 false.

Definition jammed_env : Env :=
  mkEnv empty_grid (replicate 11 jammed_car) [] (initial_resources ∅) 0 0 false 0.

Definition spent_ledger : gmap string Z :=
  <["upgrades" := 0]> (<["traffic_lights" := 0]> (<["roundabouts" := 0]>
    (<["bridges" := 0]> (<["motorways" := 0]> (<["roads" := 0]> ∅))))).

Definition spent_env : Env :=
  mkEnv empty_grid (replicate 16 (new_car (mkPosition 0 0) (mkPosition 5 5) RED)) []
        spent_ledger 0 0 false 0.

Definition crowded_env : Env :=
  mkEnv empty_grid (replicate 16 (new_car (mkPosition 0 0) (mkPosition 5 5) RED)) []
        (initial_resources ∅) 0 0 false 0.

(** ** The action executor *)

Lemma index_or_insert_Some `{Countable K} (m : gmap K Z) (k : K) (v : Z) :
  m !! k = Some v → index_or_insert m k = (v, m).
Proof. intros Hk. unfold index_or_insert. by rewrite Hk. Qed.

Lemma env_eta (e : Env) :
  mkEnv (grid e) (cars e) (buildings e) (resources e) (score e) (current_step e)
        (game_over e) (congestion_penalty e) = e.
Proof. by destruct e. Qed.

Lemma place_true (e e' : Env) (key : string) (from to : TileType) (p : Position) :
  place e key from to p = (true, e') →
  ∃ n, resources e !! key = Some n ∧ 0 < n ∧ tile_at (grid e) p = from ∧
       e' = mkEnv (set_tile (grid e) p to) (cars e) (buildings e)
                  (<[key := n - 1]> (resources e))
                  (score e) (current_step e) (game_over e) (congestion_penalty e).
Proof.
  unfold place, index_or_insert.
  destruct (resources e !! key) as [n|] eqn:Hn; simpl.
  - destruct (0 <? n) eqn:Hpos; simpl; [|intros [=]].
    case_bool_decide; simpl; intros [= <-].
    exists n. repeat split; auto. lia.
  - intros [=].
Qed.

Lemma place_false (e : Env) (key : string) (from to : TileType) (p : Position) :
  is_Some (resources e !! key) →
  (place e key from to p).1 = false → (place e key from to p).2 = e.
Proof.
  intros [n Hn]. unfold place. rewrite (index_or_insert_Some _ _ _ Hn).
  destruct ((0 <? n) && bool_decide (tile_at (grid e) p = from)); simpl; [done|].
  intros _. apply env_eta.
Qed.

Lemma place_ledger_ok (e : Env) (key : string) (from to : TileType) (p : Position) :
  key ∈ resource_keys → ledger_ok (resources e) →
  ledger_ok (resources (place e key from to p).2).
Proof.
  intros Hkey Hok. destruct (Hok key Hkey) as (n & Hn & Hn0).
  unfold place. rewrite (index_or_insert_Some _ _ _ Hn).
  destruct (0 <? n) eqn:Hpos; simpl; [|done].
  case_bool_decide; simpl; [|done].
  intros k Hk. destruct (decide (key = k)) as [<-|Hne].
  - exists (n - 1). rewrite lookup_insert_eq. split; [done|lia].
  - rewrite lookup_insert_ne by done. by apply Hok.
Qed.

Lemma give_back_ledger_ok (res : gmap string Z) (key : string) :
  key ∈ resource_keys → ledger_ok res → ledger_ok (give_back res key).
Proof.
  intros Hkey Hok. destruct (Hok key Hkey) as (n & Hn & Hn0).
  unfold give_back. rewrite (index_or_insert_Some _ _ _ Hn).
  intros k Hk. destruct (decide (key = k)) as [<-|Hne].
  - exists (n + 1). rewrite lookup_insert_eq. split; [done|lia].
  - rewrite lookup_insert_ne by done. by apply Hok.
Qed.

Lemma in_resource_keys (key : string) :
  key ∈ resource_keys ↔
  key = "roads" ∨ key = "motorways" ∨ key = "bridges" ∨ key = "roundabouts"
  ∨ key = "traffic_lights" ∨ key = "upgrades".
Proof. unfold resource_keys. rewrite !elem_of_cons, elem_of_nil. tauto. Qed.

Lemma execute_action_ledger_ok (e : Env) (action_type x y : Z) :
  ledger_ok (resources e) → ledger_ok (resources (execute_action e action_type x y).2).
Proof.
  intros Hok. unfold execute_action.
  destruct (negb (is_valid_position (mkPosition x y))); [done|].
  repeat (match goal with |- context [if ?a =? ?b then _ else _] =>
            destruct (a =? b); [apply place_ledger_ok; [apply in_resource_keys; tauto|done]|]
          end).
  destruct (action_type =? 5); [|done].
  destruct (tile_at (grid e) (mkPosition x y)); simpl; try done;
    apply give_back_ledger_ok; try done; apply in_resource_keys; tauto.
Qed.

Lemma execute_action_false (e : Env) (action_type x y : Z) :
  ledger_ok (resources e) →
  (execute_action e action_type x y).1 = false → (execute_action e action_type x y).2 = e.
Proof.
  intros Hok. unfold execute_action.
  destruct (negb (is_valid_position (mkPosition x y))); [done|].
  repeat (match goal with |- context [if ?a =? ?b then place _ ?key _ _ _ else _] =>
            destruct (a =? b);
            [apply place_false; destruct (Hok key) as (? & -> & _);
               [apply in_resource_keys; tauto|eauto]|]
          end).
  destruct (action_type =? 5); [|done].
  destruct (bool_decide _ || bool_decide _); simpl; done.
Qed.

Lemma initial_resources_ledger_ok (m : gmap string Z) : ledger_ok (initial_resources m).
Proof.
  intros key Hkey. apply in_resource_keys in Hkey. unfold initial_resources.
  destruct Hkey as [-> | [-> | [-> | [-> | [-> | ->]]]]]; eexists;
    (split; [by simplify_map_eq|lia]).
Qed.

(** ** Reset *)

Section ResetFacts.

Context {RE : RandomEngine}.


Lemma place_building_frame (t : TileType) (st : Env * Rng) (i : nat) :
  same_counters (place_building t st i).1 st.1.
Proof.
  destruct st as [e rng]. unfold place_building. simpl.
  destruct (find_empty_position _ _) as [pos rng'].
  case_decide; simpl; done.
Qed.

Lemma place_buildings_frame (t : TileType) (idx : list nat) (st : Env * Rng) :
  same_counters (foldl (place_building t) st idx).1 st.1.
Proof.
  revert st. induction idx as [|i idx IH]; intros st; simpl; [done|].
  destruct (IH (place_building t st i)) as (H1 & H2 & H3 & H4 & H5 & H6).
  destruct (place_building_frame t st i) as (G1 & G2 & G3 & G4 & G5 & G6).
  unfold same_counters. rewrite H1, H2, H3, H4, H5, H6. done.
Qed.

Lemma spawn_initial_buildings_frame (st : Env * Rng) :
  same_counters (spawn_initial_buildings st).1 st.1.
Proof.
  unfold spawn_initial_buildings.
  destruct (place_buildings_frame BUSINESS (seq 0 2)
              (foldl (place_building HOUSE) st (seq 0 3))) as (H1 & H2 & H3 & H4 & H5 & H6).
  destruct (place_buildings_frame HOUSE (seq 0 3) st) as (G1 & G2 & G3 & G4 & G5 & G6).
  unfold same_counters. rewrite H1, H2, H3, H4, H5, H6. done.
Qed.

Lemma reset_fields (e : Env) (rng : Rng) :
  let e' := (reset e rng).1.1 in
  cars e' = [] ∧ resources e' = initial_resources (resources e) ∧ score e' = 0
  ∧ current_step e' = 0 ∧ game_over e' = false ∧ congestion_penalty e' = 0.
Proof.
  unfold reset.
  pose proof (spawn_initial_buildings_frame
    (mkEnv empty_grid [] [] (initial_resources (resources e)) 0 0 false 0, rng)) as H.
  destruct (spawn_initial_buildings _) as [e1 rng']. simpl in *. exact H.
Qed.

End ResetFacts.

Lemma run_actions_ledger_ok (e : Env) (actions : list (Z * Z * Z)) :
  ledger_ok (resources e) → ledger_ok (resources (run_actions e actions)).
Proof.
  revert e. induction actions as [|a actions IH]; intros e Hok; simpl; [done|].
  apply IH. by apply execute_action_ledger_ok.
Qed.

(** C3.  From a freshly reset state, after any sequence of [execute_action]
    calls, each of the six resource counts is present and not negative; and
    an [execute_action] call that returns [false] leaves the whole state, so
    every resource count and every grid cell, as it was. *)
Theorem C3_resources_never_negative
    {RE : RandomEngine} (e : Env) (rng : Rng) (actions : list (Z * Z * Z)) :
  let s := run_actions (reset e rng).1.1 actions in
  (∀ key, key ∈ resource_keys → ∃ n, resources s !! key = Some n ∧ 0 ≤ n)
  ∧ (∀ action_type x y,
       (execute_action s action_type x y).1 = false →
       (execute_action s action_type x y).2 = s).
Proof.
  intros s.
  assert (ledger_ok (resources s)) as Hok.
  { apply run_actions_ledger_ok.
    destruct (reset_fields e rng) as (_ & -> & _).
    apply initial_resources_ledger_ok. }
  split; [exact Hok|].
  intros action_type x y. by apply execute_action_false.
Qed.

(** ** Step *)

Section StepFacts.

Context {PQ : PriorityQueue} {RE : RandomEngine}.


Lemma simulate_traffic_frame (e : Env) :
  grid (simulate_traffic e) = grid e ∧ buildings (simulate_traffic e) = buildings e
  ∧ resources (simulate_traffic e) = resources e
  ∧ current_step (simulate_traffic e) = current_step e
  ∧ game_over (simulate_traffic e) = game_over e.
Proof.
  unfold simulate_traffic.
  destruct (traffic_loop _ _ _ _) as [[moved sc] pen]. done.
Qed.

Lemma spawn_cars_frame (e : Env) (rng : Rng) :
  grid (spawn_cars e rng).1 = grid e ∧ resources (spawn_cars e rng).1 = resources e
  ∧ score (spawn_cars e rng).1 = score e
  ∧ current_step (spawn_cars e rng).1 = current_step e
  ∧ game_over (spawn_cars e rng).1 = game_over e
  ∧ congestion_penalty (spawn_cars e rng).1 = congestion_penalty e.
Proof.
  unfold spawn_cars.
  destruct (Z.rem (current_step e) 5 =? 0); [|done].
  destruct (foldl _ _ _) as [[bs cs] rng']. done.
Qed.

(** C4.  When the terminal flag is set, or the action does not have exactly
    three elements, [step] returns the state and the random engine as they
    were, the step counter included, together with the observation of that
    unchanged state: no sub-phase has run. *)
Theorem C4_step_is_noop_when_terminal_or_malformed
    (e : Env) (rng : Rng) (action : list Z) :
  game_over e = true ∨ length action ≠ 3%nat →
  step e rng action = (e, rng, get_observation e).
Proof.
  intros H. unfold step.
  destruct (game_over e); simpl; [done|].
  destruct H as [H|H]; [done|].
  destruct (length action =? 3)%nat eqn:Hlen; simpl; [|done].
  apply Nat.eqb_eq in Hlen. done.
Qed.

(** C7.  For an action [(kind, x, y)] with [kind >= 6] in a non-terminal
    state, [step] is the pipeline without the executor: the counter advances
    by one, then traffic, spawning and the termination check run; the grid
    and the resource ledger come out as they went in. *)
Theorem C7_pass_action_edits_nothing (e : Env) (rng : Rng) (kind x y : Z) :
  game_over e = false → 6 ≤ kind →
  let e' := (step e rng [kind; x; y]).1.1 in
  grid e' = grid e ∧ resources e' = resources e
  ∧ current_step e' = current_step e + 1
  ∧ step e rng [kind; x; y] =
      (let e2 := simulate_traffic (advance_step e) in
       let e4 := evaluate_termination (spawn_cars e2 rng).1 in
       (e4, (spawn_cars e2 rng).2, get_observation e4)).
Proof.
  intros Hgo Hkind. unfold step, apply_action. rewrite Hgo. simpl.
  destruct (kind <? 6) eqn:Hlt; [lia|].
  destruct (spawn_cars_frame (simulate_traffic (advance_step e)) rng)
    as (Hg & Hr & _ & Hs & _).
  destruct (simulate_traffic_frame (advance_step e)) as (Hg' & _ & Hr' & Hs' & _).
  destruct (spawn_cars _ _) as [e3 rng']. simpl in *.
  rewrite Hg, Hr, Hs, Hg', Hr', Hs'. done.
Qed.

End StepFacts.

(** ** Place, then remove *)

Lemma is_valid_position_spec (p : Position) :
  is_valid_position p = true ↔ 0 ≤ pos_x p < GRID_WIDTH ∧ 0 ≤ pos_y p < GRID_HEIGHT.
Proof. unfold is_valid_position. rewrite !andb_true_iff. lia. Qed.

Lemma tile_at_set_tile (g : list (list TileType)) (p : Position) (t : TileType) :
  grid_ok g → is_valid_position p = true → tile_at (set_tile g p t) p = t.
Proof.
  intros [Hrows Hcols] Hp. apply is_valid_position_spec in Hp.
  unfold tile_at, set_tile. rewrite list_lookup_alter_eq.
  destruct (lookup_lt_is_Some_2 g (Z.to_nat (pos_y p))) as [row Hrow].
  { rewrite Hrows. unfold GRID_HEIGHT in *. lia. }
  rewrite Hrow. simpl.
  rewrite list_lookup_insert_eq; [done|].
  rewrite Forall_forall in Hcols. rewrite (Hcols row).
  - unfold GRID_WIDTH in *. lia.
  - eapply list_elem_of_lookup_2. exact Hrow.
Qed.

Lemma remove_after_place (e : Env) (key : string) (n : Z) (p : Position) (t : TileType) :
  grid_ok (grid e) → is_valid_position p = true → resources e !! key = Some n →
  let e1 := mkEnv (set_tile (grid e) p t) (cars e) (buildings e)
                  (<[key := n - 1]> (resources e))
                  (score e) (current_step e) (game_over e) (congestion_penalty e) in
  (t = ROAD → key = "roads" →
     (execute_action e1 5 (pos_x p) (pos_y p)).1 = true
     ∧ resources (execute_action e1 5 (pos_x p) (pos_y p)).2 = resources e)
  ∧ (t = MOTORWAY → key = "motorways" →
     (execute_action e1 5 (pos_x p) (pos_y p)).1 = true
     ∧ resources (execute_action e1 5 (pos_x p) (pos_y p)).2 = resources e)
  ∧ (t ≠ ROAD → t ≠ MOTORWAY → execute_action e1 5 (pos_x p) (pos_y p) = (false, e1)).
Proof.
  intros Hg Hp Hn e1. unfold execute_action.
  replace (mkPosition (pos_x p) (pos_y p)) with p by (by destruct p).
  rewrite Hp. simpl. subst e1. simpl. rewrite (tile_at_set_tile _ _ _ Hg Hp).
  assert (∀ k, give_back (<[k := n - 1]> (resources e)) k = <[k := n]> (resources e)) as Hgb.
  { intros k. unfold give_back, index_or_insert. rewrite lookup_insert_eq.
    rewrite insert_insert_eq. f_equal. lia. }
  split; [|split].
  - intros -> ->. simpl. rewrite Hgb. split; [done|]. by apply insert_id.
  - intros -> ->. simpl. rewrite Hgb. split; [done|]. by apply insert_id.
  - intros H1 H2. rewrite !bool_decide_eq_false_2 by done. done.
Qed.

(** C5 (as amended).  In a state with the 20 by 20 grid, when placing kind
    0..4 at a cell succeeds: for road and motorway (kinds 0, 1) the Remove
    action at the same cell succeeds and the resource ledger is exactly the
    original one again; for bridge, roundabout and traffic light (kinds 2,
    3, 4) the Remove action returns [false] and changes nothing, so the
    ledger keeps the count of the placed kind one below the original. *)
Theorem C5_place_then_remove (e e1 : Env) (kind x y : Z) :
  grid_ok (grid e) → 0 ≤ kind ≤ 4 → execute_action e kind x y = (true, e1) →
  if kind <? 2
  then (execute_action e1 5 x y).1 = true ∧ resources (execute_action e1 5 x y).2 = resources e
  else execute_action e1 5 x y = (false, e1)
       ∧ ∃ n, resources e !! resource_of_kind kind = Some n
              ∧ resources e1 = <[resource_of_kind kind := n - 1]> (resources e).
Proof.
  intros Hg Hkind. unfold execute_action at 1.
  destruct (is_valid_position (mkPosition x y)) eqn:Hp; simpl; [|intros [=]].
  assert (kind = 0 ∨ kind = 1 ∨ kind = 2 ∨ kind = 3 ∨ kind = 4) as Hk by lia.
  destruct Hk as [-> | [-> | [-> | [-> | ->]]]]; simpl;
    intros (n & Hn & Hpos & Ht & ->)%place_true;
    match goal with |- context [set_tile _ _ ?t] =>
      destruct (remove_after_place e _ n (mkPosition x y) t Hg Hp Hn) as (Hroad & Hmw & Hother)
    end;
    simpl in *; eauto.
Qed.

(** C5, the claim as stated, fails for a bridge: on the freshly constructed
    environment, placing a bridge at (0, 0) succeeds, the Remove action at
    (0, 0) then returns [false], and the ledger holds one bridge where it
    held two. *)
Lemma C5_counterexample_bridge :
  let placed := execute_action new_env 2 0 0 in
  let removed := execute_action placed.2 5 0 0 in
  placed.1 = true ∧ removed.1 = false
  ∧ resources new_env !! "bridges" = Some 2
  ∧ resources removed.2 !! "bridges" = Some 1
  ∧ resources removed.2 ≠ resources new_env.
Proof.
  intros placed removed.
  assert (resources removed.2 !! "bridges" = Some 1) as H1 by (vm_compute; reflexivity).
  assert (resources new_env !! "bridges" = Some 2) as H2 by (vm_compute; reflexivity).
  split; [vm_compute; reflexivity|]. split; [vm_compute; reflexivity|].
  split; [exact H2|]. split; [exact H1|].
  intros Heq. rewrite Heq in H1. congruence.
Qed.

Lemma grid_ok_empty_grid : grid_ok empty_grid.
Proof.
  split; [reflexivity|]. apply Forall_forall. intros row Hin.
  apply elem_of_replicate in Hin as [-> _]. reflexivity.
Qed.

Lemma C5_place_then_remove_witness :
  (execute_action (execute_action new_env 0 3 4).2 5 3 4).1 = true
  ∧ resources (execute_action (execute_action new_env 0 3 4).2 5 3 4).2 = resources new_env.
Proof.
  apply (C5_place_then_remove new_env (execute_action new_env 0 3 4).2 0 3 4).
  - exact grid_ok_empty_grid.
  - lia.
  - vm_compute. reflexivity.
Defined.

(** ** The invariant of reachable states *)

Lemma grid_ok_set_tile (g : list (list TileType)) (p : Position) (t : TileType) :
  grid_ok g → grid_ok (set_tile g p t).
Proof.
  intros [Hrows Hcols]. unfold set_tile. split.
  - by rewrite length_alter.
  - apply Forall_alter; [done|]. intros row _ Hrow. by rewrite length_insert.
Qed.

Lemma dom_insert_present (res : gmap string Z) (key : string) (n : Z) :
  key ∈ dom res → dom (<[key := n]> res) = dom res.
Proof.
  intros Hk. rewrite dom_insert_L. apply subseteq_union_1_L.
  by apply singleton_subseteq_l.
Qed.

Lemma ledger_ok_in_dom (res : gmap string Z) (key : string) :
  ledger_ok res → key ∈ resource_keys → key ∈ dom res.
Proof. intros Hok Hk. destruct (Hok key Hk) as (n & Hn & _). apply elem_of_dom. eauto. Qed.

Lemma place_env_ok (e : Env) (key : string) (from to : TileType) (p : Position) :
  key ∈ resource_keys → env_ok e → env_ok (place e key from to p).2.
Proof.
  intros Hkey Hok. pose proof (place_ledger_ok e key from to p Hkey (ok_ledger _ Hok)) as Hl.
  destruct Hok as [Hg Hled Hdom Hcars Hb Hgreen].
  destruct (Hled key Hkey) as (n & Hn & Hn0).
  unfold place in *. rewrite (index_or_insert_Some _ _ _ Hn) in *.
  destruct ((0 <? n) && bool_decide (tile_at (grid e) p = from)); simpl in *.
  - split; simpl; try done.
    + by apply grid_ok_set_tile.
    + rewrite dom_insert_present; [done|]. apply elem_of_dom. eauto.
  - split; simpl; done.
Qed.

Lemma execute_action_env_ok (e : Env) (action_type x y : Z) :
  env_ok e → env_ok (execute_action e action_type x y).2.
Proof.
  intros Hok. unfold execute_action.
  destruct (negb (is_valid_position (mkPosition x y))); [done|].
  repeat (match goal with |- context [if ?a =? ?b then place _ ?key _ _ _ else _] =>
            destruct (a =? b); [apply place_env_ok; [apply in_resource_keys; tauto|done]|]
          end).
  destruct (action_type =? 5); [|done].
  destruct Hok as [Hg Hled Hdom Hcars Hb Hgreen].
  assert (∀ key, key ∈ resource_keys →
            ledger_ok (give_back (resources e) key)
            ∧ dom (give_back (resources e) key) = list_to_set resource_keys) as Hgb.
  { intros key Hkey. split; [by apply give_back_ledger_ok|].
    unfold give_back. destruct (Hled key Hkey) as (n & Hn & _).
    rewrite (index_or_insert_Some _ _ _ Hn).
    rewrite dom_insert_present; [done|]. apply elem_of_dom. eauto. }
  destruct (Hgb "roads") as [? ?]; [apply in_resource_keys; tauto|].
  destruct (Hgb "motorways") as [? ?]; [apply in_resource_keys; tauto|].
  destruct (tile_at (grid e) (mkPosition x y)); simpl;
    split; simpl; try done; by apply grid_ok_set_tile.
Qed.

Lemma advance_step_env_ok (e : Env) : env_ok e → env_ok (advance_step e).
Proof. intros [? ? ? ? ? ?]. by split. Qed.

Lemma evaluate_termination_env_ok (e : Env) : env_ok e → env_ok (evaluate_termination e).
Proof. intros [? ? ? ? ? ?]. by split. Qed.

Lemma apply_action_env_ok (e : Env) (action : list Z) :
  env_ok e → env_ok (apply_action e action).
Proof.
  intros Hok. unfold apply_action.
  destruct (_ <? 6); [apply execute_action_env_ok|]; by apply advance_step_env_ok.
Qed.

Lemma new_env_ok : env_ok new_env.
Proof.
  split; simpl.
  - exact grid_ok_empty_grid.
  - apply initial_resources_ledger_ok.
  - unfold initial_resources, resource_keys. rewrite !dom_insert_L, dom_empty_L.
    simpl. set_solver.
  - intros c Hc. by apply elem_of_nil in Hc.
  - apply sublist_nil_l.
  - intros b Hb. by apply elem_of_nil in Hb.
Qed.

Section InvariantFacts.

Context {PQ : PriorityQueue} {RE : RandomEngine}.


Lemma move_car_ok (g : list (list TileType)) (c : Car) (sc pen : Z) :
  car_ok c → completed (move_car g c sc pen).1.1 = false → car_ok (move_car g c sc pen).1.1.
Proof.
  intros (Hc & Hstuck & Hcol). unfold move_car. rewrite Hc.
  set (route := match path c with [] => _ | _ :: _ => path c end).
  assert ((length route ≤ 1)%nat → stuck_time c = 0) as Hroute.
  { subst route. destruct (path c); [intros _; apply Hstuck; simpl; lia|done]. }
  destruct route as [|p0 [|next_pos rest]]; simpl; try done.
  destruct (can_move_to g next_pos).
  - case_decide; simpl; [done|]. intros _. by split.
  - intros _. split; [done|]. split; [simpl; lia|done].
Qed.

Lemma traffic_loop_ok (g : list (list TileType)) (cs : list Car) (sc pen : Z) :
  (∀ c, c ∈ cs → car_ok c) →
  ∀ c', c' ∈ (traffic_loop g cs sc pen).1.1 → completed c' = false → car_ok c'.
Proof.
  revert sc pen. induction cs as [|c cs IH]; intros sc pen Hcs c'; simpl.
  - intros H. by apply elem_of_nil in H.
  - pose proof (move_car_ok g c sc pen (Hcs c ltac:(left))) as Hmove.
    destruct (move_car g c sc pen) as [[c1 sc1] pen1].
    specialize (IH sc1 pen1 ltac:(intros; apply Hcs; by right)).
    destruct (traffic_loop g cs sc1 pen1) as [[rest sc2] pen2]. simpl in *.
    intros [->|Hin]%elem_of_cons; [done|]. by apply IH.
Qed.

Lemma simulate_traffic_env_ok (e : Env) : env_ok e → env_ok (simulate_traffic e).
Proof.
  intros [Hg Hled Hdom Hcars Hb Hgreen]. unfold simulate_traffic.
  pose proof (traffic_loop_ok (grid e) (cars e) (score e) (congestion_penalty e) Hcars) as Hloop.
  destruct (traffic_loop _ _ _ _) as [[moved sc] pen]. simpl in *.
  split; simpl; try done.
  intros c [Hc Hin]%list_elem_of_filter. by apply Hloop.
Qed.

Lemma matching_business_Some (col : CarColor) (bs : list Building) (business : Building) :
  matching_business col bs = Some business → (BUSINESS, col) ∈ kinds bs.
Proof.
  unfold matching_business. intros H.
  destruct (list_find _ bs) as [[i b]|] eqn:Hfind; [|done].
  simpl in H. injection H as ->.
  apply list_find_Some in Hfind as (Hi & [Ht Hc] & _).
  unfold kinds. apply list_elem_of_fmap. exists business. split; [by rewrite Ht, Hc|].
  eapply list_elem_of_lookup_2. exact Hi.
Qed.

Lemma business_colour (col : CarColor) :
  (BUSINESS, col) ∈ intended_buildings → col = RED ∨ col = BLUE.
Proof.
  unfold intended_buildings. rewrite !elem_of_cons, elem_of_nil.
  intros [H|[H|[H|[H|[H|[]]]]]]; inversion H; auto.
Qed.

(** What the spawner's loop keeps true of the registry and the vehicles. *)
Lemma spawn_from_ok (bs : list Building) (cs : list Car) (rng : Rng) (i : nat) :
  kinds bs `sublist_of` intended_buildings →
  (∀ c, c ∈ cs → car_ok c) →
  (∀ b, b ∈ bs → b_color b = GREEN → cars_spawned b = 0) →
  let st' := spawn_from (bs, cs, rng) i in
  kinds st'.1.1 = kinds bs ∧ length st'.1.1 = length bs
  ∧ (∀ c, c ∈ st'.1.2 → car_ok c)
  ∧ (∀ b, b ∈ st'.1.1 → b_color b = GREEN → cars_spawned b = 0).
Proof.
  intros Hk Hcs Hgreen. unfold spawn_from.
  destruct (bs !! i) as [building|] eqn:Hi; [|done].
  destruct (bool_decide _ && _); [|done].
  destruct (spawn_dist rng) as [roll rng'].
  destruct (negb _); [|done].
  destruct (matching_business _ bs) as [business|] eqn:Hm; [|done].
  apply matching_business_Some in Hm.
  pose proof (business_colour _ (elem_of_sublist _ _ _ Hm Hk)) as Hcol.
  simpl. split; [|split; [|split]].
  - unfold kinds. rewrite list_fmap_insert. simpl. apply list_insert_id.
    rewrite list_lookup_fmap, Hi. done.
  - by rewrite length_insert.
  - intros c [Hc| ->%list_elem_of_singleton]%elem_of_app; [by apply Hcs|].
    split; [done|]. split; [done|]. exact Hcol.
  - intros b [j Hj]%list_elem_of_lookup_1.
    apply list_lookup_insert_Some in Hj as [(-> & <- & _)|[_ Hj]].
    + simpl. intros HG. rewrite HG in Hcol. by destruct Hcol.
    + apply Hgreen. eapply list_elem_of_lookup_2. exact Hj.
Qed.

Lemma spawn_loop_ok (idx : list nat) (bs : list Building) (cs : list Car) (rng : Rng) :
  kinds bs `sublist_of` intended_buildings →
  (∀ c, c ∈ cs → car_ok c) →
  (∀ b, b ∈ bs → b_color b = GREEN → cars_spawned b = 0) →
  let st' := foldl spawn_from (bs, cs, rng) idx in
  kinds st'.1.1 = kinds bs ∧ length st'.1.1 = length bs
  ∧ (∀ c, c ∈ st'.1.2 → car_ok c)
  ∧ (∀ b, b ∈ st'.1.1 → b_color b = GREEN → cars_spawned b = 0).
Proof.
  revert bs cs rng. induction idx as [|i idx IH]; intros bs cs rng Hk Hcs Hgreen;
    cbn [foldl].
  - done.
  - destruct (spawn_from_ok bs cs rng i Hk Hcs Hgreen) as (Hk1 & Hl1 & Hcs1 & Hg1).
    destruct (spawn_from (bs, cs, rng) i) as [[bs1 cs1] rng1]. simpl in *.
    destruct (IH bs1 cs1 rng1) as (Hk2 & Hl2 & Hcs2 & Hg2); try done.
    { by rewrite Hk1. }
    split; [by rewrite <- Hk1|]. split; [by rewrite <- Hl1|]. done.
Qed.

Lemma spawn_cars_env_ok (e : Env) (rng : Rng) : env_ok e → env_ok (spawn_cars e rng).1.
Proof.
  intros [Hg Hled Hdom Hcars Hb Hgreen]. unfold spawn_cars.
  destruct (Z.rem (current_step e) 5 =? 0); [|done].
  destruct (spawn_loop_ok (seq 0 (length (buildings e))) (buildings e) (cars e) rng
              Hb Hcars Hgreen) as (Hk & _ & Hcs & Hgr).
  destruct (foldl _ _ _) as [[bs cs] rng']. simpl in *.
  split; simpl; try done. by rewrite Hk.
Qed.

Lemma step_env_ok (e : Env) (rng : Rng) (action : list Z) :
  env_ok e → env_ok (step e rng action).1.1.
Proof.
  intros Hok. unfold step.
  destruct (game_over e || negb (length action =? 3)%nat); [done|].
  pose proof (spawn_cars_env_ok _ rng
                (simulate_traffic_env_ok _ (apply_action_env_ok e action Hok))) as H.
  destruct (spawn_cars _ _) as [e3 rng']. simpl in *.
  by apply evaluate_termination_env_ok.
Qed.

End InvariantFacts.

Section ReachableFacts.

Context {PQ : PriorityQueue} {RE : RandomEngine}.

Lemma place_building_kinds (t : TileType) (st : Env * Rng) (i : nat) :
  ∃ ks, kinds (buildings (place_building t st i).1) = kinds (buildings st.1) ++ ks
        ∧ ks `sublist_of` [(t, default RED (colors !! i))].
Proof.
  destruct st as [e rng]. unfold place_building.
  destruct (find_empty_position _ _) as [pos rng'].
  case_decide; simpl.
  - eexists. split; [unfold kinds; by rewrite fmap_app|]. simpl. done.
  - exists []. split; [by rewrite app_nil_r|]. apply sublist_nil_l.
Qed.

Lemma place_buildings_kinds (t : TileType) (idx : list nat) (st : Env * Rng) :
  ∃ ks, kinds (buildings (foldl (place_building t) st idx).1) = kinds (buildings st.1) ++ ks
        ∧ ks `sublist_of` ((λ i, (t, default RED (colors !! i))) <$> idx).
Proof.
  revert st. induction idx as [|i idx IH]; intros st; cbn [foldl].
  - exists []. split; [by rewrite app_nil_r|]. done.
  - destruct (IH (place_building t st i)) as (ks2 & -> & Hks2).
    destruct (place_building_kinds t st i) as (ks1 & -> & Hks1).
    exists (ks1 ++ ks2). split; [by rewrite app_assoc|].
    rewrite fmap_cons. by apply (sublist_app ks1 [_]).
Qed.

Lemma place_buildings_grid_ok (t : TileType) (idx : list nat) (st : Env * Rng) :
  grid_ok (grid st.1) → (∀ b, b ∈ buildings st.1 → cars_spawned b = 0) →
  grid_ok (grid (foldl (place_building t) st idx).1)
  ∧ (∀ b, b ∈ buildings (foldl (place_building t) st idx).1 → cars_spawned b = 0).
Proof.
  revert st. induction idx as [|i idx IH]; intros st Hg Hb; cbn [foldl]; [done|].
  apply IH; destruct st as [e rng]; unfold place_building;
    destruct (find_empty_position _ _) as [pos rng']; case_decide; simpl in *; try done.
  - by apply grid_ok_set_tile.
  - intros b [Hin| ->%list_elem_of_singleton]%elem_of_app; [by apply Hb|done].
Qed.

Lemma initial_resources_dom (res : gmap string Z) :
  dom res = list_to_set resource_keys →
  dom (initial_resources res) = list_to_set resource_keys.
Proof.
  intros Hdom. unfold initial_resources.
  rewrite !dom_insert_present; [done|..];
    rewrite ?dom_insert_L, Hdom; unfold resource_keys; simpl;
    rewrite ?elem_of_union, ?elem_of_singleton; tauto.
Qed.

Lemma reset_env_ok (e : Env) (rng : Rng) : env_ok e → env_ok (reset e rng).1.1.
Proof.
  intros Hok.
  destruct (reset_fields e rng) as (Hcars & Hres & _).
  revert Hcars Hres. unfold reset, spawn_initial_buildings.
  set (e0 := mkEnv empty_grid [] [] (initial_resources (resources e)) 0 0 false 0).
  set (st1 := foldl (place_building HOUSE) (e0, rng) (seq 0 3)).
  destruct (place_buildings_kinds HOUSE (seq 0 3) (e0, rng)) as (ks1 & Hk1 & Hs1).
  destruct (place_buildings_kinds BUSINESS (seq 0 2) st1) as (ks2 & Hk2 & Hs2).
  destruct (place_buildings_grid_ok HOUSE (seq 0 3) (e0, rng)) as (Hg1 & Hb1).
  { exact grid_ok_empty_grid. }
  { intros b Hb. by apply elem_of_nil in Hb. }
  destruct (place_buildings_grid_ok BUSINESS (seq 0 2) st1 Hg1 Hb1) as (Hg2 & Hb2).
  fold st1 in Hk1. rewrite Hk1 in Hk2.
  destruct (foldl (place_building BUSINESS) st1 (seq 0 2)) as [e1 rng'].
  simpl in *. intros Hcars Hres. split.
  - done.
  - rewrite Hres. apply initial_resources_ledger_ok.
  - rewrite Hres. apply initial_resources_dom, Hok.
  - rewrite Hcars. intros c Hc. by apply elem_of_nil in Hc.
  - rewrite Hk2. by apply (sublist_app ks1 [_; _; _] ks2 [_; _]).
  - intros b Hb _. by apply Hb2.
Qed.

(** Every reachable state satisfies the invariant. *)
Lemma reachable_env_ok (e : Env) (rng : Rng) : reachable e rng → env_ok e.
Proof.
  induction 1.
  - exact new_env_ok.
  - by apply reset_env_ok.
  - by apply step_env_ok.
  - by apply execute_action_env_ok.
Qed.

End ReachableFacts.

(** ** The termination evaluator *)

Lemma count_stuck_spec (cs : list Car) : count_stuck cs = stuck_over_20 cs.
Proof.
  unfold count_stuck, stuck_over_20.
  assert (∀ n, foldl (λ stuck_cars c, if 20 <? stuck_time c then stuck_cars + 1 else stuck_cars)
                     n cs
               = n + Z.of_nat (length (filter (λ c, 20 < stuck_time c) cs))) as H.
  { induction cs as [|c cs IH]; intros n; simpl; [lia|].
    rewrite IH, filter_cons. destruct (20 <? stuck_time c) eqn:Hc.
    - rewrite decide_True by lia. simpl. lia.
    - rewrite decide_False by lia. lia. }
  rewrite H. lia.
Qed.

Lemma sum_counts_ext (keys : list string) (m1 m2 : gmap string Z) :
  (∀ key, key ∈ keys → m1 !! key = m2 !! key) →
  foldr (λ key total, default 0 (m1 !! key) + total) 0 keys
  = foldr (λ key total, default 0 (m2 !! key) + total) 0 keys.
Proof.
  induction keys as [|key keys IH]; intros Heq; simpl; [done|].
  rewrite IH, (Heq key); [done|by left|]. intros k Hk. apply Heq. by right.
Qed.

Lemma total_resources_keys (keys : list string) (res : gmap string Z) :
  NoDup keys → dom res = list_to_set keys →
  total_resources res = foldr (λ key total, default 0 (res !! key) + total) 0 keys.
Proof.
  unfold total_resources. intros Hnd. revert res.
  induction Hnd as [|key keys Hnotin Hnd IH]; intros res Hdom; simpl in *.
  - apply dom_empty_inv_L in Hdom as ->. by rewrite map_fold_empty.
  - assert (is_Some (res !! key)) as [n Hn].
    { apply elem_of_dom. rewrite Hdom. apply elem_of_union_l. by apply elem_of_singleton. }
    rewrite (map_fold_delete_L _ _ key n res); [|intros; lia|done].
    rewrite (IH (delete key res)), Hn; simpl.
    + rewrite Z.add_comm. f_equal. apply sum_counts_ext. intros k Hk.
      rewrite lookup_delete_ne; [done|]. intros ->. done.
    + rewrite dom_delete_L, Hdom.
      apply set_eq. intros k. rewrite elem_of_difference, elem_of_union, !elem_of_singleton,
        elem_of_list_to_set. split; [intros [[?|?] ?]; done|].
      intros Hk. split; [by right|]. intros ->. done.
Qed.

Lemma resource_keys_NoDup : NoDup resource_keys.
Proof.
  unfold resource_keys.
  repeat (apply NoDup_cons_2;
          [intros H; repeat (apply elem_of_cons in H as [H|H]; [discriminate|]);
           by apply elem_of_nil in H|]).
  apply NoDup_nil_2.
Qed.

Lemma check_game_over_spec (e : Env) :
  dom (resources e) = list_to_set resource_keys →
  check_game_over e = true ↔
  10 < stuck_over_20 (cars e)
  ∨ (six_counts (resources e) = 0 ∧ 15 < Z.of_nat (length (cars e)))
  ∨ MAX_STEPS ≤ current_step e.
Proof.
  intros Hdom. unfold check_game_over, six_counts.
  rewrite count_stuck_spec.
  rewrite (total_resources_keys resource_keys) by (apply resource_keys_NoDup || apply Hdom).
  unfold MAX_STEPS.
  destruct (Z.ltb_spec 10 (stuck_over_20 (cars e))) as [H1|H1].
  { split; [intros _; lia|done]. }
  destruct (Z.eqb_spec (foldr (λ key total, default 0 (resources e !! key) + total) 0
                              resource_keys) 0) as [H2|H2];
    destruct (Z.ltb_spec 15 (Z.of_nat (length (cars e)))) as [H3|H3]; simpl in *.
  1: { split; [intros _; lia|done]. }
  all: destruct (Z.leb_spec 1000 (current_step e)) as [H4|H4].
  all: split; try done; intros ?; lia.
Qed.

Lemma place_dom (e : Env) (key : string) (from to : TileType) (p : Position) :
  key ∈ dom (resources e) → dom (resources (place e key from to p).2) = dom (resources e).
Proof.
  intros [n Hn]%elem_of_dom. unfold place. rewrite (index_or_insert_Some _ _ _ Hn).
  destruct ((0 <? n) && bool_decide (tile_at (grid e) p = from)); simpl; [|done].
  apply dom_insert_present, elem_of_dom. eauto.
Qed.

Lemma give_back_dom (res : gmap string Z) (key : string) :
  key ∈ dom res → dom (give_back res key) = dom res.
Proof.
  intros [n Hn]%elem_of_dom. unfold give_back. rewrite (index_or_insert_Some _ _ _ Hn).
  apply dom_insert_present, elem_of_dom. eauto.
Qed.

Lemma execute_action_dom (e : Env) (action_type x y : Z) :
  dom (resources e) = list_to_set resource_keys →
  dom (resources (execute_action e action_type x y).2) = list_to_set resource_keys.
Proof.
  intros Hdom.
  assert (∀ key, key ∈ resource_keys → key ∈ dom (resources e)) as Hin.
  { intros key Hkey. rewrite Hdom. by apply elem_of_list_to_set. }
  unfold execute_action.
  destruct (negb (is_valid_position (mkPosition x y))); [done|].
  repeat (match goal with |- context [if ?a =? ?b then place _ ?key _ _ _ else _] =>
            destruct (a =? b);
            [rewrite place_dom; [done|apply Hin, in_resource_keys; tauto]|]
          end).
  destruct (action_type =? 5); [|done].
  destruct (bool_decide (tile_at (grid e) (mkPosition x y) = ROAD)); simpl.
  { rewrite give_back_dom; [done|apply Hin, in_resource_keys; tauto]. }
  destruct (bool_decide (tile_at (grid e) (mkPosition x y) = MOTORWAY)); simpl; [|done].
  rewrite give_back_dom; [done|apply Hin, in_resource_keys; tauto].
Qed.

Section TerminationFacts.

Context {PQ : PriorityQueue} {RE : RandomEngine}.

(** C2.  In every state whose ledger holds the six resource categories,
    whatever its vehicles, counts and step counter, the termination
    evaluator reports the episode terminal if and only if more than ten
    active vehicles have been stuck for more than twenty steps, or the six
    resource counts sum to zero while more than fifteen vehicles are active,
    or the step counter has reached 1000.  And on a step that runs from such
    a state (flag not set, action of three elements) the new state is the
    one produced by the action, the traffic and the spawner, with its flag
    set by the evaluator run on that state: the flag of the new state is set
    if and only if one of the three conditions holds of the new state. *)
Theorem C2_terminal_iff (e : Env) (rng : Rng) (action : list Z) :
  dom (resources e) = list_to_set resource_keys →
  (check_game_over e = true ↔
     10 < stuck_over_20 (cars e)
     ∨ (six_counts (resources e) = 0 ∧ 15 < Z.of_nat (length (cars e)))
     ∨ 1000 ≤ current_step e)
  ∧ (game_over e = false → length action = 3%nat →
     let e' := (step e rng action).1.1 in
     e' = evaluate_termination (spawn_cars (simulate_traffic (apply_action e action)) rng).1
     ∧ (game_over e' = true ↔
          10 < stuck_over_20 (cars e')
          ∨ (six_counts (resources e') = 0 ∧ 15 < Z.of_nat (length (cars e')))
          ∨ 1000 ≤ current_step e')).
Proof.
  intros Hdom. split; [by apply check_game_over_spec|].
  intros Hgo Hlen e'.
  assert (dom (resources (spawn_cars (simulate_traffic (apply_action e action)) rng).1)
          = list_to_set resource_keys) as Hdom3.
  { destruct (spawn_cars_frame (simulate_traffic (apply_action e action)) rng)
      as (_ & -> & _).
    destruct (simulate_traffic_frame (apply_action e action)) as (_ & _ & -> & _).
    unfold apply_action. destruct (_ <? 6); [|done]. by apply execute_action_dom. }
  subst e'. unfold step. rewrite Hgo, Hlen. simpl.
  destruct (spawn_cars _ _) as [e3 rng']. simpl in *.
  split; [done|]. by apply check_game_over_spec.
Qed.

End TerminationFacts.

Lemma dom_initial_resources : dom (initial_resources ∅) = list_to_set resource_keys.
Proof. exact (ok_dom _ new_env_ok). Qed.

Lemma C2_terminal_iff_witness :
  let e' := (step (PQ := first_min_queue) (RE := counter_engine) jammed_env 0%nat
                  [6; 0; 0]).1.1 in
  (check_game_over jammed_env = true ↔
     10 < stuck_over_20 (cars jammed_env)
     ∨ (six_counts (resources jammed_env) = 0
        ∧ 15 < Z.of_nat (length (cars jammed_env)))
     ∨ 1000 ≤ current_step jammed_env)
  ∧ (game_over e' = true ↔
       10 < stuck_over_20 (cars e')
       ∨ (six_counts (resources e') = 0 ∧ 15 < Z.of_nat (length (cars e')))
       ∨ 1000 ≤ current_step e')
  ∧ game_over e' = true ∧ current_step e' = 1 ∧ six_counts (resources e') = 29.
Proof.
  intros e'.
  destruct (C2_terminal_iff (PQ := first_min_queue) (RE := counter_engine)
              jammed_env 0%nat [6; 0; 0] dom_initial_resources) as [Hnow Hstep].
  destruct (Hstep eq_refl eq_refl) as [_ Hnext].
  split; [exact Hnow|]. split; [exact Hnext|].
  split; [vm_compute; reflexivity|]. split; vm_compute; reflexivity.
Defined.

(** Each condition of the evaluator on its own.  Eleven vehicles stuck for
    21 steps end the episode at step 0 with a full ledger; sixteen vehicles
    with an empty ledger end it, none of them stuck; the same sixteen
    vehicles with the ledger of the constructor do not; and neither does an
    empty ledger with no vehicles. *)
Example check_game_over_each_condition :
  (check_game_over jammed_env = true ∧ stuck_over_20 (cars jammed_env) = 11
   ∧ six_counts (resources jammed_env) = 29 ∧ current_step jammed_env = 0)
  ∧ (check_game_over spent_env = true ∧ stuck_over_20 (cars spent_env) = 0
     ∧ six_counts (resources spent_env) = 0 ∧ length (cars spent_env) = 16%nat
     ∧ current_step spent_env = 0)
  ∧ (check_game_over crowded_env = false ∧ length (cars crowded_env) = 16%nat)
  ∧ check_game_over
      (mkEnv empty_grid [] [] spent_ledger 0 0 false 0) = false.
Proof. repeat split; vm_compute; reflexivity. Qed.

(** ** The observation encoder *)

Lemma length_bind_const {A B} (f : A → list B) (n : nat) (l : list A) :
  (∀ x, length (f x) = n) → length (l ≫= f) = (length l * n)%nat.
Proof.
  intros Hf. induction l as [|x l IH]; [done|].
  rewrite bind_cons, length_app, IH, Hf. simpl. lia.
Qed.

Lemma grid_layer_length (g : list (list TileType)) : length (grid_layer g) = 400%nat.
Proof.
  unfold grid_layer.
  rewrite (length_bind_const _ 20); [reflexivity|].
  intros y. by rewrite (length_bind_const _ 1).
Qed.

Lemma density_layer_length (cs : list Car) : length (density_layer cs) = 400%nat.
Proof.
  unfold density_layer.
  rewrite (length_bind_const _ 20); [reflexivity|].
  intros y. by rewrite (length_bind_const _ 1).
Qed.

Lemma get_observation_length (e : Env) :
  ledger_ok (resources e) →
  ∃ obs, get_observation e = Some obs ∧ observation_layout obs.
Proof.
  intros Hok. unfold get_observation, resource_layer.
  destruct (Hok "roads") as (n1 & -> & _); [apply in_resource_keys; tauto|].
  destruct (Hok "motorways") as (n2 & -> & _); [apply in_resource_keys; tauto|].
  destruct (Hok "bridges") as (n3 & -> & _); [apply in_resource_keys; tauto|].
  destruct (Hok "roundabouts") as (n4 & -> & _); [apply in_resource_keys; tauto|].
  destruct (Hok "traffic_lights") as (n5 & -> & _); [apply in_resource_keys; tauto|].
  destruct (Hok "upgrades") as (n6 & -> & _); [apply in_resource_keys; tauto|].
  cbn [mbind option_bind]. eexists. split; [reflexivity|].
  split.
  - rewrite !length_app, grid_layer_length, density_layer_length. reflexivity.
  - eexists _, _, _, _. split; [reflexivity|].
    rewrite grid_layer_length, density_layer_length. done.
Qed.

Section ObservationFacts.

Context {PQ : PriorityQueue} {RE : RandomEngine}.

Lemma reset_observation (e : Env) (rng : Rng) :
  (reset e rng).2 = get_observation (reset e rng).1.1.
Proof. unfold reset. by destruct (spawn_initial_buildings _). Qed.

Lemma step_observation (e : Env) (rng : Rng) (action : list Z) :
  (step e rng action).2 = get_observation (step e rng action).1.1.
Proof.
  unfold step. destruct (_ || _); [done|]. by destruct (spawn_cars _ _).
Qed.

(** C8.  In every reachable state of the 20 by 20 configuration, a call of
    [reset] and a call of [step], whatever the action, return an observation
    vector; its length is exactly 810, made of 400 grid values, 400
    vehicle-density values, 6 resource values and 4 scalar values. *)
Theorem C8_observation_length (e : Env) (rng : Rng) :
  reachable e rng →
  (∃ obs, (reset e rng).2 = Some obs ∧ observation_layout obs)
  ∧ (∀ action, ∃ obs, (step e rng action).2 = Some obs ∧ observation_layout obs).
Proof.
  intros Hreach. pose proof (reachable_env_ok e rng Hreach) as Hok. split.
  - rewrite reset_observation. apply get_observation_length.
    by apply reset_env_ok.
  - intros action. rewrite step_observation. apply get_observation_length.
    by apply step_env_ok.
Qed.

End ObservationFacts.

Lemma C8_observation_length_witness :
  (∃ obs, (reset (RE := counter_engine) new_env 0%nat).2 = Some obs ∧ observation_layout obs)
  ∧ (∀ action, ∃ obs,
       (step (PQ := first_min_queue) (RE := counter_engine) new_env 0%nat action).2 = Some obs
       ∧ observation_layout obs).
Proof.
  apply (C8_observation_length (PQ := first_min_queue) (RE := counter_engine) new_env 0%nat).
  apply reachable_new.
Defined.

(** ** The traffic mover *)

Section TrafficFacts.

Context {PQ : PriorityQueue}.

Lemma move_car_spec (g : list (list TileType)) (c : Car) (sc pen : Z) :
  (move_car g c sc pen).1.1 = moved_car g c
  ∧ (move_car g c sc pen).2 = pen + (if penalised g c then 1 else 0).
Proof.
  unfold moved_car, penalised, stalls, planned_route, move_car.
  destruct (completed c); simpl; [split; [done|lia]|].
  destruct (match path c with [] => _ | _ :: _ => path c end) as [|p0 [|next_pos rest]];
    simpl; try (split; [done|lia]).
  destruct (can_move_to g next_pos); simpl.
  - case_decide; simpl; (split; [done|lia]).
  - destruct (10 <? stuck_time c + 1); simpl; (split; [done|lia]).
Qed.

Lemma traffic_loop_spec (g : list (list TileType)) (cs : list Car) (sc pen : Z) :
  (traffic_loop g cs sc pen).1.1 = moved_car g <$> cs
  ∧ (traffic_loop g cs sc pen).2
    = pen + Z.of_nat (length (filter (λ c, penalised g c = true) cs)).
Proof.
  revert sc pen. induction cs as [|c cs IH]; intros sc pen; simpl; [split; [done|lia]|].
  destruct (move_car_spec g c sc pen) as [Hcar Hpen].
  destruct (move_car g c sc pen) as [[c1 sc1] pen1]. simpl in *.
  destruct (IH sc1 pen1) as [IHcars IHpen].
  destruct (traffic_loop g cs sc1 pen1) as [[rest sc2] pen2]. simpl in *.
  subst. split; [done|].
  destruct (penalised g c) eqn:Hp.
  - rewrite filter_cons_True by done. simpl. lia.
  - rewrite filter_cons_False by (by rewrite Hp). lia.
Qed.

Lemma simulate_traffic_spec (e : Env) :
  cars (simulate_traffic e) = filter (λ c, completed c = false) (moved_car (grid e) <$> cars e)
  ∧ congestion_penalty (simulate_traffic e)
    = congestion_penalty e
      + Z.of_nat (length (filter (λ c, penalised (grid e) c = true) (cars e))).
Proof.
  unfold simulate_traffic.
  destruct (traffic_loop_spec (grid e) (cars e) (score e) (congestion_penalty e)) as [H1 H2].
  destruct (traffic_loop _ _ _ _) as [[moved sc] pen]. simpl in *. by subst.
Qed.

(** C6.  In the traffic phase of a step, take a non-completed vehicle whose
    route, as the mover looks at it, holds at least two waypoints, the
    second one not passable.  The vehicle comes out with its stuck-duration
    counter one higher, its position and route as they were, and stays
    active; the loop body adds 1 to the congestion penalty for it exactly
    when the new counter exceeds 10; and over the phase the penalty grows by
    the number of vehicles that stall with a new counter above 10, so by one
    for this vehicle on every step on which it is still stuck past the
    threshold. *)
Theorem C6_stalled_vehicle (e : Env) (i : nat) (c : Car)
    (p0 next_pos : Position) (rest : list Position) :
  cars e !! i = Some c → completed c = false →
  planned_route (grid e) c = p0 :: next_pos :: rest →
  can_move_to (grid e) next_pos = false →
  let stalled :=
    mkCar (position c) (destination c) (color c) (p0 :: next_pos :: rest)
          (stuck_time c + 1) false in
  (path c ≠ [] → path stalled = path c)
  ∧ (∀ sc pen, move_car (grid e) c sc pen
               = (stalled, sc, if 10 <? stuck_time c + 1 then pen + 1 else pen))
  ∧ (traffic_loop (grid e) (cars e) (score e) (congestion_penalty e)).1.1 !! i = Some stalled
  ∧ stalled ∈ cars (simulate_traffic e)
  ∧ penalised (grid e) c = (10 <? stuck_time c + 1)
  ∧ congestion_penalty (simulate_traffic e)
    = congestion_penalty e
      + Z.of_nat (length (filter (λ c, penalised (grid e) c = true) (cars e))).
Proof.
  intros Hi Hc Hroute Hblocked stalled.
  assert (∀ sc pen, move_car (grid e) c sc pen
             = (stalled, sc, if 10 <? stuck_time c + 1 then pen + 1 else pen)) as Hmove.
  { intros sc pen. unfold move_car. unfold planned_route in Hroute.
    by rewrite Hc, Hroute, Hblocked. }
  assert (moved_car (grid e) c = stalled) as Hmoved.
  { unfold moved_car. by rewrite Hmove. }
  destruct (simulate_traffic_spec e) as [Hcars Hpen].
  destruct (traffic_loop_spec (grid e) (cars e) (score e) (congestion_penalty e)) as [Hloop _].
  split; [|split; [exact Hmove|split; [|split; [|split; [|exact Hpen]]]]].
  - intros Hne. simpl. unfold planned_route in Hroute. by destruct (path c).
  - rewrite Hloop, list_lookup_fmap, Hi. simpl. by rewrite Hmoved.
  - rewrite Hcars. apply list_elem_of_filter. split; [done|].
    rewrite <- Hmoved. apply list_elem_of_fmap_2. eapply list_elem_of_lookup_2. exact Hi.
  - unfold penalised, stalls. rewrite Hc, Hroute, Hblocked. done.
Qed.

End TrafficFacts.

Lemma C6_stalled_vehicle_witness :
  let c := mkCar (mkPosition 0 0) (mkPosition 5 0) RED
                 [mkPosition 0 0; mkPosition 1 0; mkPosition 2 0] 10 false in
  let e := mkEnv empty_grid [c] [] (initial_resources ∅) 0 0 false 0 in
  congestion_penalty (simulate_traffic (PQ := first_min_queue) e)
  = congestion_penalty e
    + Z.of_nat (length (filter (λ c, penalised (PQ := first_min_queue) (grid e) c = true)
                               (cars e))).
Proof.
  intros c e.
  apply (C6_stalled_vehicle (PQ := first_min_queue) e 0 c
           (mkPosition 0 0) (mkPosition 1 0) [mkPosition 2 0]); reflexivity.
Defined.

Section IdleVehicleFacts.

Context {PQ : PriorityQueue} {RE : RandomEngine}.

(** C9.  Let the traffic phase of a step run on the state [e] that the
    action produced from a reachable state.  An active vehicle whose route
    is empty and for which the path search returns the empty sequence, or
    whose route holds exactly one waypoint, is left by the loop body exactly
    as it was (position, route and stuck-duration counter included) with the
    score and the congestion penalty untouched, and stays active.  Its
    stuck-duration counter is 0, so it is not among the vehicles the
    termination evaluator counts as stuck. *)
Theorem C9_idle_vehicle_unchanged (e0 : Env) (rng : Rng) (action : list Z)
    (i : nat) (c : Car) :
  reachable e0 rng →
  let e := apply_action e0 action in
  cars e !! i = Some c →
  (path c = [] ∧ find_path (position c) (destination c) (grid e) = [])
  ∨ (∃ p, path c = [p]) →
  completed c = false
  ∧ (∀ sc pen, move_car (grid e) c sc pen = (c, sc, pen))
  ∧ (traffic_loop (grid e) (cars e) (score e) (congestion_penalty e)).1.1 !! i = Some c
  ∧ c ∈ cars (simulate_traffic e)
  ∧ penalised (grid e) c = false
  ∧ stuck_time c = 0
  ∧ (20 <? stuck_time c) = false.
Proof.
  intros Hreach e Hi Hidle.
  pose proof (apply_action_env_ok e0 action (reachable_env_ok e0 rng Hreach)) as Hok.
  fold e in Hok.
  destruct (ok_cars e Hok c) as (Hc & Hstuck & _).
  { eapply list_elem_of_lookup_2. exact Hi. }
  assert (stuck_time c = 0) as Hzero.
  { apply Hstuck. destruct Hidle as [[-> _]|[p ->]]; simpl; lia. }
  assert (∀ sc pen, move_car (grid e) c sc pen = (c, sc, pen)) as Hmove.
  { intros sc pen. unfold move_car. rewrite Hc.
    destruct Hidle as [[Hpath Hfind]|[p Hpath]]; rewrite Hpath; [rewrite Hfind|];
      rewrite <- Hpath, <- Hc; by destruct c. }
  assert (moved_car (grid e) c = c) as Hmoved.
  { unfold moved_car. by rewrite Hmove. }
  destruct (simulate_traffic_spec e) as [Hcars _].
  destruct (traffic_loop_spec (grid e) (cars e) (score e) (congestion_penalty e)) as [Hloop _].
  split; [exact Hc|]. split; [exact Hmove|]. split; [|split; [|split; [|split]]].
  - rewrite Hloop, list_lookup_fmap, Hi. simpl. by rewrite Hmoved.
  - rewrite Hcars. apply list_elem_of_filter. split; [done|].
    rewrite <- Hmoved at 1. apply list_elem_of_fmap_2. eapply list_elem_of_lookup_2. exact Hi.
  - unfold penalised, stalls, planned_route. rewrite Hc.
    destruct Hidle as [[Hpath Hfind]|[p Hpath]]; rewrite Hpath; [rewrite Hfind|]; done.
  - exact Hzero.
  - rewrite Hzero. reflexivity.
Qed.

(** ** Colours *)

Lemma sublist_same_length {A} (l1 l2 : list A) :
  l1 `sublist_of` l2 → (length l2 ≤ length l1)%nat → l1 = l2.
Proof.
  induction 1 as [|x l1 l2 Hsub IH|x l1 l2 Hsub IH]; simpl; intros Hlen.
  - done.
  - f_equal. apply IH. lia.
  - apply sublist_length in Hsub. lia.
Qed.

(** C10.  In every reachable state, so after every reset and all through
    the episode: the registry lists, in order, those of house red, house
    blue, house green, business red, business blue whose search for an empty
    cell succeeded, and it is exactly this list when all five were placed;
    every business is red or blue; a green house has spawned no vehicle; and
    every active vehicle is red or blue. *)
Theorem C10_green_house_never_spawns (e : Env) (rng : Rng) :
  reachable e rng →
  kinds (buildings e) `sublist_of` intended_buildings
  ∧ (length (buildings e) = 5%nat → kinds (buildings e) = intended_buildings)
  ∧ (∀ b, b ∈ buildings e → b_type b = BUSINESS → b_color b = RED ∨ b_color b = BLUE)
  ∧ (∀ b, b ∈ buildings e → b_color b = GREEN → cars_spawned b = 0)
  ∧ (∀ c, c ∈ cars e → color c = RED ∨ color c = BLUE).
Proof.
  intros Hreach. destruct (reachable_env_ok e rng Hreach) as [_ _ _ Hcars Hb Hgreen].
  split; [exact Hb|]. split; [|split; [|split; [exact Hgreen|]]].
  - intros Hlen. apply sublist_same_length; [done|].
    unfold kinds. rewrite length_fmap, Hlen. simpl. lia.
  - intros b Hin Ht. apply business_colour.
    apply (elem_of_sublist _ _ _ (list_elem_of_fmap_2 _ _ _ Hin)) in Hb.
    simpl in Hb. by rewrite Ht in Hb.
  - intros c Hc. by destruct (Hcars c Hc) as (_ & _ & ?).
Qed.

End IdleVehicleFacts.

(** The short run is reachable. *)
Lemma demo_pass_reachable (s : Env * @Rng counter_engine) :
  reachable (PQ := first_min_queue) (RE := counter_engine) s.1 s.2 →
  reachable (PQ := first_min_queue) (RE := counter_engine) (demo_pass s).1 (demo_pass s).2.
Proof.
  intros Hs. exact (reachable_step (PQ := first_min_queue) (RE := counter_engine) _ _ _ Hs).
Qed.

Lemma demo_state_reachable :
  reachable (PQ := first_min_queue) (RE := counter_engine) demo_state.1 demo_state.2.
Proof.
  unfold demo_state. do 5 apply demo_pass_reachable.
  exact (reachable_reset (PQ := first_min_queue) (RE := counter_engine) _ _
           (reachable_new (PQ := first_min_queue) (RE := counter_engine) 0%nat)).
Qed.

Lemma C9_idle_vehicle_unchanged_witness :
  let e := apply_action demo_state.1 [6; 0; 0] in
  let c := new_car (mkPosition 0 1) (mkPosition 6 7) RED in
  completed c = false
  ∧ (∀ sc pen, move_car (PQ := first_min_queue) (grid e) c sc pen = (c, sc, pen))
  ∧ (traffic_loop (PQ := first_min_queue) (grid e) (cars e) (score e)
                  (congestion_penalty e)).1.1 !! 0%nat = Some c
  ∧ c ∈ cars (simulate_traffic (PQ := first_min_queue) e)
  ∧ penalised (PQ := first_min_queue) (grid e) c = false
  ∧ stuck_time c = 0
  ∧ (20 <? stuck_time c) = false.
Proof.
  intros e c.
  apply (C9_idle_vehicle_unchanged (PQ := first_min_queue) (RE := counter_engine)
           demo_state.1 demo_state.2 [6; 0; 0] 0 c).
  - exact demo_state_reachable.
  - vm_compute. reflexivity.
  - left. split; vm_compute; reflexivity.
Defined.

Lemma C10_green_house_never_spawns_witness :
  kinds (buildings demo_state.1) = intended_buildings
  ∧ (∀ b, b ∈ buildings demo_state.1 → b_color b = GREEN → cars_spawned b = 0)
  ∧ (∀ c, c ∈ cars demo_state.1 → color c = RED ∨ color c = BLUE).
Proof.
  destruct (C10_green_house_never_spawns (PQ := first_min_queue) (RE := counter_engine)
              demo_state.1 demo_state.2 demo_state_reachable)
    as (_ & Hkinds & _ & Hgreen & Hcars).
  split; [|split; [exact Hgreen|exact Hcars]].
  apply Hkinds. vm_compute. reflexivity.
Defined.

Lemma C4_step_is_noop_when_terminal_or_malformed_witness :
  step (PQ := first_min_queue) (RE := counter_engine) new_env 0%nat [0; 1]
  = (new_env, 0%nat, get_observation new_env).
Proof.
  apply (C4_step_is_noop_when_terminal_or_malformed
           (PQ := first_min_queue) (RE := counter_engine) new_env 0%nat [0; 1]).
  right. simpl. lia.
Defined.

Lemma C7_pass_action_edits_nothing_witness :
  let e' := (step (PQ := first_min_queue) (RE := counter_engine) demo_state.1 demo_state.2
                  [6; 3; 4]).1.1 in
  grid e' = grid demo_state.1 ∧ resources e' = resources demo_state.1
  ∧ current_step e' = current_step demo_state.1 + 1.
Proof.
  destruct (C7_pass_action_edits_nothing (PQ := first_min_queue) (RE := counter_engine)
              demo_state.1 demo_state.2 6 3 4) as (Hg & Hr & Hs & _).
  - vm_compute. reflexivity.
  - lia.
  - exact (conj Hg (conj Hr Hs)).
Defined.

(** ** The path finder *)

Section RouteFacts.

Context (grid : list (list TileType)).

Lemma in_directions (dir : Position) :
  dir ∈ directions ↔
  dir = mkPosition 0 1 ∨ dir = mkPosition 1 0 ∨ dir = mkPosition 0 (-1)
  ∨ dir = mkPosition (-1) 0.
Proof. unfold directions. rewrite !elem_of_cons, elem_of_nil. tauto. Qed.

Lemma edge_adjacent (p q : Position) : edge grid p q → adjacent4 p q.
Proof.
  intros [_ (dir & Hdir & ->)]. apply in_directions in Hdir.
  unfold adjacent4, offset.
  destruct Hdir as [-> | [-> | [-> | ->]]]; simpl; lia.
Qed.

Lemma adjacent_edge (p q : Position) : adjacent4 p q → open_cell grid q → edge grid p q.
Proof.
  unfold adjacent4. intros Hadj Hopen. split; [done|].
  destruct p as [px py], q as [qx qy]. simpl in Hadj.
  assert ((qx = px + 0 ∧ qy = py + 1) ∨ (qx = px + 1 ∧ qy = py + 0)
          ∨ (qx = px + 0 ∧ qy = py + -1) ∨ (qx = px + -1 ∧ qy = py + 0)) as Hcases by lia.
  destruct Hcases as [[-> ->] | [[-> ->] | [[-> ->] | [-> ->]]]].
  - exists (mkPosition 0 1). split; [apply in_directions; tauto|done].
  - exists (mkPosition 1 0). split; [apply in_directions; tauto|done].
  - exists (mkPosition 0 (-1)). split; [apply in_directions; tauto|done].
  - exists (mkPosition (-1) 0). split; [apply in_directions; tauto|done].
Qed.

(** The Manhattan distance is consistent: it drops by at most one along a
    move. *)
Lemma heuristic_consistent (p q goal : Position) :
  edge grid p q → calculate_distance p goal ≤ calculate_distance q goal + 1.
Proof.
  intros Hedge. apply edge_adjacent in Hedge.
  unfold adjacent4 in Hedge. unfold calculate_distance. lia.
Qed.

Lemma reach_nonneg (start p : Position) (k : Z) : reach grid start k p → 0 ≤ k.
Proof. induction 1; lia. Qed.

Lemma reach_front (s s' p : Position) (k : Z) :
  edge grid s s' → reach grid s' k p → reach grid s (k + 1) p.
Proof.
  intros Hedge. induction 1 as [|k p q Hreach IH Hpq].
  - apply (reach_move grid s 0 s s'); [constructor|done].
  - by apply (reach_move grid s (k + 1) p q).
Qed.

Lemma route_reach (start goal : Position) (l : list Position) :
  route grid start goal l → reach grid start (Z.of_nat (length l) - 1) goal.
Proof.
  revert start. induction l as [|p l IH]; intros start (Hhead & Hlast & Hadj & Hopen).
  - done.
  - simpl in Hhead. injection Hhead as ->.
    destruct l as [|q l].
    + simpl in Hlast. injection Hlast as ->. simpl. constructor.
    + destruct Hadj as [Hpq Hadj]. apply Forall_cons in Hopen as [_ Hopen].
      replace (Z.of_nat (length (start :: q :: l)) - 1)
        with (Z.of_nat (length (q :: l)) - 1 + 1) by (simpl length; lia).
      apply (reach_front start q).
      * apply adjacent_edge; [done|]. by apply Forall_cons in Hopen as [? _].
      * apply IH. split; [done|]. split; [|done]. by rewrite last_cons_cons in Hlast.
Qed.

Lemma stepwise_adjacent_snoc (l : list Position) (q p : Position) :
  stepwise_adjacent l → last l = Some q → adjacent4 q p → stepwise_adjacent (l ++ [p]).
Proof.
  induction l as [|a l IH]; intros Hadj Hlast Hqp; [done|].
  destruct l as [|b l].
  - simpl in *. injection Hlast as ->. done.
  - destruct Hadj as [Hab Hadj]. rewrite last_cons_cons in Hlast.
    change ((a :: b :: l) ++ [p]) with (a :: ((b :: l) ++ [p])).
    change (adjacent4 a b ∧ stepwise_adjacent ((b :: l) ++ [p])).
    split; [done|]. by apply IH.
Qed.

(** The reversed predecessor chain leads from [start] to [p] by moves. *)
Lemma back_chain_path (start p : Position) (l : list Position) :
  back_chain grid start p l →
  head (reverse (l ++ [start])) = Some start
  ∧ last (reverse (l ++ [start])) = Some p
  ∧ stepwise_adjacent (reverse (l ++ [start]))
  ∧ Forall (open_cell grid) l.
Proof.
  induction 1 as [|p q l Hedge Hchain (Hhead & Hlast & Hadj & Hopen)].
  - simpl. done.
  - change ((p :: l) ++ [start]) with (p :: (l ++ [start])). rewrite reverse_cons.
    split; [|split; [|split]].
    + destruct (reverse (l ++ [start])); [done|]. done.
    + by rewrite last_snoc.
    + eapply stepwise_adjacent_snoc; [done..|]. by apply edge_adjacent.
    + apply Forall_cons_2; [apply Hedge|done].
Qed.

Lemma back_chain_route (start p : Position) (l : list Position) :
  open_cell grid start → back_chain grid start p l →
  route grid start p (reverse (l ++ [start])).
Proof.
  intros Hstart Hchain.
  destruct (back_chain_path start p l Hchain) as (Hhead & Hlast & Hadj & Hopen).
  split; [done|]. split; [done|]. split; [done|].
  apply Forall_reverse, Forall_app. split; [done|]. by apply Forall_singleton.
Qed.

End RouteFacts.

(** *** The measure of the search *)

Lemma in_grid_cells (grid : list (list TileType)) (p : Position) :
  in_grid grid p → p ∈ cells grid.
Proof.
  unfold in_grid, grid_cols, grid_rows, cells. intros [Hx Hy].
  apply list_elem_of_bind. exists (Z.to_nat (pos_y p)). split; [|apply elem_of_seq; lia].
  apply list_elem_of_bind. exists (Z.to_nat (pos_x p)). split; [|apply elem_of_seq; lia].
  apply list_elem_of_singleton. destruct p as [x y]. simpl in *. f_equal; lia.
Qed.

Lemma cells_length (grid : list (list TileType)) :
  length (cells grid) = (length grid * length (default [] (grid !! 0%nat)))%nat.
Proof.
  unfold cells.
  rewrite (length_bind_const _ (length (default [] (grid !! 0%nat)))).
  - by rewrite length_seq.
  - intros y. rewrite (length_bind_const _ 1); [|done]. rewrite length_seq. lia.
Qed.

Lemma size_list_to_set_le (l : list Position) :
  (size (list_to_set l : gset Position) ≤ length l)%nat.
Proof.
  induction l as [|p l IH].
  - change (size (∅ : gset Position) ≤ 0)%nat. by rewrite size_empty.
  - rewrite list_to_set_cons, size_union_alt, size_singleton. simpl length.
    pose proof (subseteq_size (list_to_set l ∖ {[p]}) (list_to_set l : gset Position)
                  ltac:(apply subseteq_difference_l; done)).
    lia.
Qed.

Lemma came_from_size (grid : list (list TileType)) (cf : gmap Position Position) :
  (∀ p, is_Some (cf !! p) → in_grid grid p) →
  (size cf ≤ length (cells grid))%nat.
Proof.
  intros Hdom. rewrite <- (size_dom (D := gset Position)).
  etransitivity; [|apply size_list_to_set_le].
  apply subseteq_size. intros p Hp. apply elem_of_list_to_set, in_grid_cells, Hdom.
  by apply elem_of_dom.
Qed.

Lemma cost_insert (B : nat) (gs : gmap Position Z) (q p : Position) (v : Z) :
  cost B (<[q := v]> gs) p = if decide (q = p) then Z.to_nat v else cost B gs p.
Proof. unfold cost. rewrite lookup_insert. by case_decide. Qed.

Lemma potential_insert_le (B : nat) (keys : list Position) (gs : gmap Position Z)
    (q : Position) (v : Z) :
  (Z.to_nat v ≤ cost B gs q)%nat →
  (potential B keys (<[q := v]> gs) ≤ potential B keys gs)%nat.
Proof.
  intros Hle. unfold potential. induction keys as [|p keys IH]; simpl; [done|].
  rewrite cost_insert. case_decide; subst; lia.
Qed.

Lemma potential_insert_lt (B : nat) (keys : list Position) (gs : gmap Position Z)
    (q : Position) (v : Z) :
  q ∈ keys → (Z.to_nat v < cost B gs q)%nat →
  (potential B keys (<[q := v]> gs) < potential B keys gs)%nat.
Proof.
  intros Hin Hlt. unfold potential. induction Hin as [q keys|q p keys Hin IH]; simpl.
  - rewrite cost_insert, decide_True by done.
    pose proof (potential_insert_le B keys gs q v ltac:(lia)) as Hle.
    unfold potential in Hle. lia.
  - rewrite cost_insert. case_decide; subst; lia.
Qed.

Lemma potential_bound (B : nat) (keys : list Position) (gs : gmap Position Z) :
  (∀ p, cost B gs p ≤ B)%nat → (potential B keys gs ≤ length keys * B)%nat.
Proof.
  intros Hle. unfold potential. induction keys as [|p keys IH]; simpl; [done|].
  specialize (Hle p). lia.
Qed.

(** *** The invariant of the search *)

Section SearchFacts.

Context {PQ : PriorityQueue} (Hpq : pq_correct PQ).
Context (grid : list (list TileType)) (start goal : Position).

Lemma start_search_inv (cur : Position) :
  search_inv grid start goal cur [] (start_search start goal).
Proof.
  split; simpl.
  - apply lookup_singleton_eq.
  - apply lookup_empty.
  - intros p Hp. by apply not_elem_of_empty in Hp.
  - apply not_elem_of_empty.
  - intros n ->%list_elem_of_singleton. simpl. split; [done|].
    exists 0. by rewrite lookup_singleton_eq.
  - intros p v [-> <-]%lookup_singleton_Some _.
    eexists. split; [by apply list_elem_of_singleton|done].
  - intros p Hp. by apply not_elem_of_empty in Hp.
  - intros p v [-> <-]%lookup_singleton_Some Hne. done.
  - intros p k v Hp. by apply not_elem_of_empty in Hp.
  - intros p q Hp. by apply not_elem_of_empty in Hp.
  - intros p [q Hq]. by rewrite lookup_empty in Hq.
  - intros p v [-> <-]%lookup_singleton_Some. rewrite map_size_empty. lia.
  - intros p [v [-> <-]%lookup_singleton_Some]. by left.
Qed.

(** A recorded [g_score] is the length of a sequence of moves from the
    start. *)
Lemma g_score_reach (cur : Position) (todo : list Position) (st : Search)
    (p : Position) (v : Z) :
  search_inv grid start goal cur todo st →
  g_score st !! p = Some v → reach grid start v p.
Proof.
  intros Hinv.
  assert (∀ n p v, Z.to_nat v = n → g_score st !! p = Some v → reach grid start v p) as H.
  { clear p v. induction n as [|n IH]; intros p v Hn Hp;
      pose proof (inv_g_bound _ _ _ _ _ _ Hinv p v Hp) as Hb;
      destruct (decide (p = start)) as [->|Hne].
    - rewrite (inv_g_start _ _ _ _ _ _ Hinv) in Hp. injection Hp as <-. constructor.
    - destruct (inv_chain _ _ _ _ _ _ Hinv p v Hp Hne) as (q & _ & _ & Hq & _).
      pose proof (inv_g_bound _ _ _ _ _ _ Hinv q _ Hq). lia.
    - rewrite (inv_g_start _ _ _ _ _ _ Hinv) in Hp. injection Hp as <-. constructor.
    - destruct (inv_chain _ _ _ _ _ _ Hinv p v Hp Hne) as (q & _ & _ & Hq & Hedge).
      replace v with (v - 1 + 1) by lia.
      apply (reach_move grid start (v - 1) q p); [|done].
      apply IH; [lia|done]. }
  intros Hp. by apply (H (Z.to_nat v)).
Qed.

(** Every cell within [k] moves of the start is closed with a [g_score] of
    at most [k], or the queue holds a node of cost at most [k] plus the
    cell's distance to the goal. *)
Lemma frontier (cur : Position) (st : Search) (k : Z) (p : Position) :
  search_inv grid start goal cur [] st → reach grid start k p →
  (p ∈ closed_set st ∧ ∃ v, g_score st !! p = Some v ∧ v ≤ k)
  ∨ (∃ m, m ∈ open_set st ∧ f_cost m ≤ k + calculate_distance p goal).
Proof.
  intros Hinv. induction 1 as [|k p q Hreach IH Hedge].
  - destruct (decide (start ∈ closed_set st)) as [Hin|Hnotin].
    + left. split; [done|]. exists 0. split; [apply Hinv|lia].
    + right. destruct (inv_open_complete _ _ _ _ _ _ Hinv start 0) as (n & Hn & Hpos & Hg);
        [apply Hinv|done|].
      exists n. split; [done|]. unfold f_cost.
      destruct (inv_open_sound _ _ _ _ _ _ Hinv n Hn) as [-> _]. rewrite Hpos, Hg. lia.
  - pose proof (heuristic_consistent grid p q goal Hedge) as Hh.
    destruct IH as [[Hclosed (v & Hv & Hvk)]|(m & Hm & Hf)].
    + destruct (inv_closed_edges _ _ _ _ _ _ Hinv p q Hclosed Hedge) as (u & w & Hu & Hw & Hle).
      { intros _ dir Hdir. by apply elem_of_nil in Hdir. }
      rewrite Hv in Hu. injection Hu as <-.
      destruct (decide (q ∈ closed_set st)) as [Hq|Hq].
      * left. split; [done|]. exists w. split; [done|lia].
      * right. destruct (inv_open_complete _ _ _ _ _ _ Hinv q w Hw Hq) as (n & Hn & Hpos & Hg).
        exists n. split; [done|]. unfold f_cost.
        destruct (inv_open_sound _ _ _ _ _ _ Hinv n Hn) as [-> _]. rewrite Hpos, Hg. lia.
    + right. exists m. split; [done|lia].
Qed.

(** The node the queue hands out carries the least number of moves to its
    cell. *)
Lemma pop_optimal (cur : Position) (st : Search) (n : Node) (rest : list Node) :
  search_inv grid start goal cur [] st → pq_pop (open_set st) = Some (n, rest) →
  ∃ u, g_score st !! node_pos n = Some u
       ∧ ∀ k, reach grid start k (node_pos n) → u ≤ k.
Proof.
  intros Hinv Hpop. pose proof (Hpq (open_set st)) as Hspec. rewrite Hpop in Hspec.
  destruct Hspec as [Hperm Hmin].
  assert (n ∈ open_set st) as Hn by (rewrite Hperm; left).
  destruct (inv_open_sound _ _ _ _ _ _ Hinv n Hn) as [Hh (u & Hu & Hle)].
  exists u. split; [done|]. intros k Hreach.
  destruct (frontier cur st k (node_pos n) Hinv Hreach)
    as [[_ (v & Hv & Hvk)]|(m & Hm & Hf)].
  - rewrite Hu in Hv. injection Hv as <-. done.
  - specialize (Hmin m Hm). unfold f_cost in Hmin at 1. lia.
Qed.

Lemma pop_inv (cur : Position) (st : Search) (n : Node) (rest : list Node) :
  search_inv grid start goal cur [] st → pq_pop (open_set st) = Some (n, rest) →
  node_pos n ≠ goal →
  let st1 := mkSearch rest ({[node_pos n]} ∪ closed_set st) (came_from st) (g_score st) in
  search_inv grid start goal (node_pos n) directions st1
  ∧ S (search_measure grid start st1) = search_measure grid start st.
Proof.
  intros Hinv Hpop Hgoal st1.
  destruct (pop_optimal cur st n rest Hinv Hpop) as (u & Hu & Hopt).
  pose proof (Hpq (open_set st)) as Hspec. rewrite Hpop in Hspec.
  destruct Hspec as [Hperm Hmin].
  assert (∀ m, m ∈ rest → m ∈ open_set st) as Hrest.
  { intros m Hm. rewrite Hperm. by right. }
  split; [split; simpl|].
  - apply Hinv.
  - apply Hinv.
  - intros _ _. destruct (decide (start ∈ closed_set st)) as [Hin|Hnotin].
    { by apply elem_of_union_r. }
    apply elem_of_union_l, elem_of_singleton.
    destruct (decide (start = node_pos n)) as [|Hne]; [done|].
    destruct (inv_chain _ _ _ _ _ _ Hinv (node_pos n) u Hu) as (q & _ & Hq & _); [done|].
    destruct Hnotin. by apply (inv_closed_start _ _ _ _ _ _ Hinv q).
  - intros [Heq%elem_of_singleton|Hin]%elem_of_union; [done|].
    by apply (inv_goal _ _ _ _ _ _ Hinv).
  - intros m Hm. by apply (inv_open_sound _ _ _ _ _ _ Hinv), Hrest.
  - intros p v Hp Hnotin.
    destruct (inv_open_complete _ _ _ _ _ _ Hinv p v Hp) as (m & Hm & Hpos & Hg).
    { intros Hin. apply Hnotin. by apply elem_of_union_r. }
    exists m. split; [|done]. rewrite Hperm in Hm.
    apply elem_of_cons in Hm as [->|Hm]; [|done].
    destruct Hnotin. apply elem_of_union_l, elem_of_singleton. done.
  - intros p [->%elem_of_singleton|Hin]%elem_of_union; [by eexists|].
    by apply (inv_closed_dom _ _ _ _ _ _ Hinv).
  - intros p v Hp Hne.
    destruct (inv_chain _ _ _ _ _ _ Hinv p v Hp Hne) as (q & Hcf & Hq & Hgq & Hedge).
    exists q. split; [done|]. split; [by apply elem_of_union_r|done].
  - intros p k v [->%elem_of_singleton|Hin]%elem_of_union Hreach Hp.
    + rewrite Hu in Hp. injection Hp as <-. by apply Hopt.
    + by apply (inv_closed_opt _ _ _ _ _ _ Hinv p k v).
  - intros p q Hin Hedge Hexempt.
    destruct (decide (p = node_pos n)) as [->|Hne].
    + destruct Hedge as [_ (dir & Hdir & ->)]. by destruct (Hexempt eq_refl dir Hdir).
    + apply elem_of_union in Hin as [Hin%elem_of_singleton|Hin]; [done|].
      apply (inv_closed_edges _ _ _ _ _ _ Hinv p q Hin Hedge).
      intros _ dir Hdir. by apply elem_of_nil in Hdir.
  - apply Hinv.
  - apply Hinv.
  - apply Hinv.
  - unfold search_measure. subst st1. simpl.
    apply Permutation_length in Hperm. rewrite Hperm. simpl. lia.
Qed.

(** Dropping a direction from the list still to visit, once the invariant
    holds for the neighbour in that direction. *)
Lemma search_inv_skip (p dir : Position) (todo : list Position) (st : Search) :
  search_inv grid start goal p (dir :: todo) st →
  (edge grid p (offset p dir) →
   ∃ u v, g_score st !! p = Some u ∧ g_score st !! offset p dir = Some v ∧ v ≤ u + 1) →
  search_inv grid start goal p todo st.
Proof.
  intros [] Hdone. split; try done.
  intros x q Hx Hedge Hexempt.
  destruct (decide (x = p ∧ q = offset p dir)) as [[-> ->]|Hne]; [by apply Hdone|].
  apply inv_closed_edges0; [done..|].
  intros -> dir' [->|Hin]%elem_of_cons.
  - intros ->. by apply Hne.
  - by apply Hexempt.
Qed.

Lemma bounds_test (q : Position) :
  (pos_x q <? 0) || (grid_cols grid <=? pos_x q)
  || (pos_y q <? 0) || (grid_rows grid <=? pos_y q) = false ↔ in_grid grid q.
Proof. unfold in_grid. rewrite !orb_false_iff, !Z.ltb_ge, !Z.leb_gt. lia. Qed.

Lemma map_size_insert_ge (cf : gmap Position Position) (q p : Position) :
  (size cf ≤ size (<[q := p]> cf))%nat.
Proof.
  destruct (cf !! q) eqn:Hq.
  - by rewrite map_size_insert_Some.
  - rewrite map_size_insert_None by done. lia.
Qed.

(** Recording a better way into the neighbour [q] of the closed cell [p]. *)
Lemma relax_inv (p dir : Position) (todo : list Position) (st : Search) (u : Z) :
  let q := offset p dir in
  let st' := mkSearch (mkNode q (u + 1) (calculate_distance q goal) p :: open_set st)
                      (closed_set st) (<[q := p]> (came_from st))
                      (<[q := u + 1]> (g_score st)) in
  search_inv grid start goal p (dir :: todo) st →
  dir ∈ directions → p ∈ closed_set st → g_score st !! p = Some u →
  q ∉ closed_set st → open_cell grid q →
  (g_score st !! q = None ∨ ∃ g_old, g_score st !! q = Some g_old ∧ u + 1 < g_old) →
  search_inv grid start goal p todo st'
  ∧ (search_measure grid start st' ≤ search_measure grid start st)%nat.
Proof.
  intros q st' Hinv Hdir Hp Hu Hq Hopen Hupd.
  assert (edge grid p q) as Hedge by (split; [done|by exists dir]).
  assert (q ≠ start) as Hqs.
  { intros Heq. apply Hq. rewrite Heq. by apply (inv_closed_start _ _ _ _ _ _ Hinv p). }
  assert (∀ x, x ∈ closed_set st → x ≠ q) as Hclosed by (intros x Hx ->; done).
  pose proof (inv_g_bound _ _ _ _ _ _ Hinv p u Hu) as Hub.
  assert (∀ v, g_score st !! q = Some v → u + 1 < v) as Hold.
  { intros v Hv. destruct Hupd as [Hn|(g_old & Hg & Hlt)]; congruence. }
  assert (u + 1 ≤ Z.of_nat (size (<[q := p]> (came_from st)))) as Hsize.
  { destruct (g_score st !! q) as [v|] eqn:Hg.
    - pose proof (inv_g_bound _ _ _ _ _ _ Hinv q v Hg).
      pose proof (map_size_insert_ge (came_from st) q p). specialize (Hold v eq_refl). lia.
    - rewrite map_size_insert_None; [lia|].
      apply eq_None_not_Some. intros Hcf.
      destruct (inv_cf_dom _ _ _ _ _ _ Hinv q Hcf) as [_ [v Hv]]. congruence. }
  split; [split; simpl|].
  - rewrite lookup_insert_ne by done. apply Hinv.
  - rewrite lookup_insert_ne by done. apply Hinv.
  - apply Hinv.
  - apply Hinv.
  - intros n [->|Hn]%elem_of_cons; simpl.
    + split; [done|]. exists (u + 1). rewrite lookup_insert_eq. split; [done|lia].
    + destruct (inv_open_sound _ _ _ _ _ _ Hinv n Hn) as [Hh (v & Hv & Hle)].
      split; [done|]. destruct (decide (q = node_pos n)) as [Heq|Hne].
      * exists (u + 1). rewrite <- Heq, lookup_insert_eq. split; [done|].
        rewrite <- Heq in Hv. specialize (Hold v Hv). lia.
      * exists v. by rewrite lookup_insert_ne.
  - intros x v Hx Hnotin. destruct (decide (q = x)) as [<-|Hne].
    + rewrite lookup_insert_eq in Hx. injection Hx as <-.
      eexists. split; [by left|done].
    + rewrite lookup_insert_ne in Hx by done.
      destruct (inv_open_complete _ _ _ _ _ _ Hinv x v Hx Hnotin) as (n & Hn & Hpos).
      exists n. split; [by right|done].
  - intros x Hx. rewrite lookup_insert_ne by (by apply not_eq_sym, Hclosed).
    by apply (inv_closed_dom _ _ _ _ _ _ Hinv).
  - intros x v Hx Hne. destruct (decide (q = x)) as [<-|Hqx].
    + rewrite lookup_insert_eq in Hx. injection Hx as <-.
      exists p. rewrite lookup_insert_eq. split; [done|]. split; [done|].
      rewrite lookup_insert_ne by (by apply not_eq_sym, Hclosed).
      split; [|done]. rewrite Hu. f_equal. lia.
    + rewrite lookup_insert_ne in Hx by done.
      destruct (inv_chain _ _ _ _ _ _ Hinv x v Hx Hne) as (y & Hcf & Hy & Hgy & Hyx).
      exists y. rewrite !lookup_insert_ne; [done|by apply not_eq_sym, Hclosed|done].
  - intros x k v Hx Hreach Hv.
    rewrite lookup_insert_ne in Hv by (by apply not_eq_sym, Hclosed).
    by apply (inv_closed_opt _ _ _ _ _ _ Hinv x k v).
  - intros x y Hx Hxy Hexempt.
    destruct (decide (x = p ∧ y = q)) as [[-> ->]|Hne].
    + exists u, (u + 1). rewrite lookup_insert_eq.
      rewrite lookup_insert_ne by (by apply not_eq_sym, Hclosed). split; [done|]. split; [done|lia].
    + destruct (inv_closed_edges _ _ _ _ _ _ Hinv x y Hx Hxy) as (u' & v' & Hu' & Hv' & Hle).
      { intros -> dir' [->|Hin]%elem_of_cons.
        - intros ->. by apply Hne.
        - by apply Hexempt. }
      exists u'. rewrite (lookup_insert_ne _ q x) by (by apply not_eq_sym, Hclosed).
      destruct (decide (q = y)) as [<-|Hqy].
      * exists (u + 1). rewrite lookup_insert_eq. specialize (Hold v' Hv').
        split; [done|]. split; [done|lia].
      * exists v'. by rewrite lookup_insert_ne.
  - intros x Hx. destruct (decide (q = x)) as [<-|Hqx].
    + split; [apply Hopen|]. rewrite lookup_insert_eq. by eexists.
    + rewrite lookup_insert_ne in Hx by done. rewrite lookup_insert_ne by done.
      by apply (inv_cf_dom _ _ _ _ _ _ Hinv).
  - intros x v Hx. destruct (decide (q = x)) as [<-|Hqx].
    + rewrite lookup_insert_eq in Hx. injection Hx as <-. lia.
    + rewrite lookup_insert_ne in Hx by done.
      pose proof (inv_g_bound _ _ _ _ _ _ Hinv x v Hx).
      pose proof (map_size_insert_ge (came_from st) q p). lia.
  - intros x Hx. destruct (decide (q = x)) as [<-|Hqx].
    + right. apply Hopen.
    + rewrite lookup_insert_ne in Hx by done. by apply (inv_g_dom _ _ _ _ _ _ Hinv).
  - unfold search_measure. subst st'. cbn [open_set g_score]. simpl length.
    pose proof (potential_insert_lt (length (cells grid) + 2) (start :: cells grid)
                  (g_score st) q (u + 1)) as Hlt.
    enough (potential (length (cells grid) + 2) (start :: cells grid)
                      (<[q := (u + 1)%Z]> (g_score st))
            < potential (length (cells grid) + 2) (start :: cells grid) (g_score st))%nat
      by lia.
    apply Hlt.
    + right. apply in_grid_cells, Hopen.
    + unfold cost. destruct (g_score st !! q) as [v|] eqn:Hg.
      * specialize (Hold v eq_refl). lia.
      * pose proof (came_from_size grid (came_from st)
                      (λ x Hx, proj1 (inv_cf_dom _ _ _ _ _ _ Hinv x Hx))).
        lia.
Qed.

Lemma search_eta (st : Search) :
  mkSearch (open_set st) (closed_set st) (came_from st) (g_score st) = st.
Proof. by destruct st. Qed.

(** One pass through the body of the loop over the directions. *)
Lemma visit_neighbor_inv (current : Node) (dir : Position) (todo : list Position)
    (st : Search) :
  search_inv grid start goal (node_pos current) (dir :: todo) st →
  dir ∈ directions → node_pos current ∈ closed_set st →
  let st' := visit_neighbor grid goal current st dir in
  search_inv grid start goal (node_pos current) todo st'
  ∧ closed_set st' = closed_set st
  ∧ (search_measure grid start st' ≤ search_measure grid start st)%nat.
Proof.
  intros Hinv Hdir Hp. unfold visit_neighbor.
  fold (offset (node_pos current) dir). set (q := offset (node_pos current) dir).
  destruct (inv_closed_dom _ _ _ _ _ _ Hinv _ Hp) as [u Hu].
  destruct (_ || _) eqn:Hbounds.
  { split; [|done]. apply (search_inv_skip _ dir); [done|].
    intros [[Hin%bounds_test _] _]. fold q in Hin. congruence. }
  apply bounds_test in Hbounds.
  destruct (decide (q ∈ closed_set st)) as [Hq|Hq].
  { split; [|done]. apply (search_inv_skip _ dir); [done|]. intros Hedge.
    destruct (inv_closed_dom _ _ _ _ _ _ Hinv _ Hq) as [v Hv].
    exists u, v. split; [done|]. split; [done|].
    apply (inv_closed_opt _ _ _ _ _ _ Hinv q (u + 1) v Hq); [|done].
    apply (reach_move grid start u (node_pos current) q); [|done].
    exact (g_score_reach _ _ st _ _ Hinv Hu). }
  destruct (passable (tile_at grid q)) eqn:Hpass; simpl.
  2: { split; [|done]. apply (search_inv_skip _ dir); [done|].
       intros [[_ Hopen] _]. fold q in Hopen. congruence. }
  rewrite (index_or_insert_Some _ _ _ Hu).
  destruct (g_score st !! q) as [g_old|] eqn:Hgq.
  - destruct (u + 1 <? g_old) eqn:Hlt.
    + destruct (relax_inv (node_pos current) dir todo st u) as [Hinv' Hm]; try done.
      { right. exists g_old. split; [done|lia]. }
    + rewrite search_eta. split; [|done]. apply (search_inv_skip _ dir); [done|].
      intros _. exists u, g_old. fold q. split; [done|]. split; [done|lia].
  - destruct (relax_inv (node_pos current) dir todo st u) as [Hinv' Hm]; try done.
    by left.
Qed.

Lemma visit_neighbors_inv (current : Node) (todo : list Position) (st : Search) :
  search_inv grid start goal (node_pos current) todo st →
  (∀ dir, dir ∈ todo → dir ∈ directions) → node_pos current ∈ closed_set st →
  let st' := foldl (visit_neighbor grid goal current) st todo in
  search_inv grid start goal (node_pos current) [] st'
  ∧ (search_measure grid start st' ≤ search_measure grid start st)%nat.
Proof.
  revert st. induction todo as [|dir todo IH]; intros st Hinv Hdirs Hp; cbn [foldl].
  - done.
  - destruct (visit_neighbor_inv current dir todo st Hinv) as (Hinv' & Hclosed & Hm);
      [apply Hdirs; by left|done|].
    destruct (IH (visit_neighbor grid goal current st dir) Hinv') as [Hinv'' Hm'].
    + intros d Hd. apply Hdirs. by right.
    + by rewrite Hclosed.
    + split; [done|]. lia.
Qed.

(** *** Reconstruction *)

Lemma reconstruct_loop_chain (cur : Position) (st : Search) (fuel : nat)
    (p : Position) (v : Z) (acc : list Position) :
  search_inv grid start goal cur [] st →
  g_score st !! p = Some v → (Z.to_nat v ≤ fuel)%nat →
  ∃ l, reconstruct_loop fuel (came_from st) start p acc = Some (acc ++ l)
       ∧ Z.of_nat (length l) = v ∧ back_chain grid start p l.
Proof.
  intros Hinv. revert p v acc.
  induction fuel as [|fuel IH]; intros p v acc Hp Hfuel; simpl;
    (destruct (decide (p = start)) as [->|Hne];
     [rewrite (inv_g_start _ _ _ _ _ _ Hinv) in Hp; injection Hp as <-;
      exists []; rewrite app_nil_r; split; [done|]; split; [done|constructor]|]);
    destruct (inv_chain _ _ _ _ _ _ Hinv p v Hp Hne) as (q & Hcf & _ & Hq & Hedge);
    pose proof (inv_g_bound _ _ _ _ _ _ Hinv q _ Hq) as Hqb.
  - lia.
  - rewrite Hcf.
    destruct (IH q (v - 1) (acc ++ [p]) Hq ltac:(lia)) as (l & Hloop & Hlen & Hchain).
    exists (p :: l). split; [by rewrite Hloop, <- app_assoc|].
    split; [simpl length; lia|by apply (back_chain_move grid start p q l)].
Qed.

Lemma reconstruct_path_correct (cur : Position) (st : Search) (v : Z) :
  search_inv grid start goal cur [] st → g_score st !! goal = Some v →
  ∃ l, reconstruct_path (came_from st) start goal = Some (reverse (l ++ [start]))
       ∧ Z.of_nat (length l) = v ∧ back_chain grid start goal l.
Proof.
  intros Hinv Hv. unfold reconstruct_path.
  pose proof (inv_g_bound _ _ _ _ _ _ Hinv goal v Hv) as Hb.
  destruct (reconstruct_loop_chain cur st (S (size (came_from st))) goal v [] Hinv Hv)
    as (l & -> & Hlen & Hchain); [lia|].
  simpl. by exists l.
Qed.

(** *** The loop *)

(** The loop returns within the fuel it is given: the empty sequence when no
    sequence of moves reaches the goal, and otherwise the reversed chain of
    predecessors of the goal, which has the least number of moves. *)
Lemma search_loop_correct (fuel : nat) (st : Search) (cur : Position) :
  search_inv grid start goal cur [] st →
  (search_measure grid start st < fuel)%nat →
  ∃ res, search_loop fuel grid start goal st = Some res
         ∧ ((res = [] ∧ ∀ k, ¬ reach grid start k goal)
            ∨ (∃ l, res = reverse (l ++ [start]) ∧ back_chain grid start goal l
                    ∧ ∀ k, reach grid start k goal → Z.of_nat (length l) ≤ k)).
Proof.
  revert st cur.
  induction fuel as [|fuel IH]; intros st cur Hinv Hfuel; [lia|]. simpl.
  pose proof (Hpq (open_set st)) as Hspec.
  destruct (pq_pop (open_set st)) as [[current rest]|] eqn:Hpop.
  - destruct (decide (node_pos current = goal)) as [Hgoal|Hgoal].
    + destruct (pop_optimal cur st current rest Hinv Hpop) as (u & Hu & Hopt).
      rewrite Hgoal in Hu, Hopt.
      destruct (reconstruct_path_correct cur st u Hinv Hu) as (l & -> & Hlen & Hchain).
      eexists. split; [done|]. right. exists l. split; [done|]. split; [done|].
      intros k Hk. specialize (Hopt k Hk). lia.
    + destruct (pop_inv cur st current rest Hinv Hpop Hgoal) as [Hinv1 Hm1].
      destruct (visit_neighbors_inv current directions _ Hinv1) as [Hinv2 Hm2]; [done|..].
      { simpl. apply elem_of_union_l. by apply elem_of_singleton. }
      apply (IH _ (node_pos current) Hinv2). lia.
  - exists []. split; [done|]. left. split; [done|].
    intros k Hk. destruct (frontier cur st k goal Hinv Hk) as [[Hin _]|(m & Hm & _)].
    + by apply (inv_goal _ _ _ _ _ _ Hinv).
    + rewrite Hspec in Hm. by apply elem_of_nil in Hm.
Qed.

Lemma start_search_measure :
  (search_measure grid start (start_search start goal) < search_fuel grid)%nat.
Proof.
  unfold search_measure, search_fuel, start_search. cbn [open_set g_score].
  rewrite <- cells_length. simpl length.
  pose proof (potential_bound (length (cells grid) + 2) (start :: cells grid)
                ({[start := 0]} : gmap Position Z)) as Hb.
  simpl length in Hb.
  assert (potential (length (cells grid) + 2) (start :: cells grid)
                    ({[start := 0%Z]} : gmap Position Z)
          ≤ S (length (cells grid)) * (length (cells grid) + 2))%nat as Hle.
  { apply Hb. intros p. unfold cost. destruct (decide (start = p)) as [<-|Hne].
    - rewrite lookup_singleton_eq. simpl. lia.
    - by rewrite lookup_singleton_ne. }
  lia.
Qed.

(** The fuel of [find_path] is never used up, whatever the start, the goal
    and the grid. *)
Lemma find_path_returns :
  ∃ res, search_loop (search_fuel grid) grid start goal (start_search start goal) = Some res
         ∧ find_path start goal grid = res.
Proof.
  unfold find_path.
  destruct (search_loop_correct (search_fuel grid) (start_search start goal) start
              (start_search_inv start) start_search_measure) as (res & -> & _).
  by exists res.
Qed.

(** What [find_path] returns is the empty sequence when no sequence of moves
    reaches the goal, and a shortest route otherwise. *)
Lemma find_path_correct :
  open_cell grid start →
  (find_path start goal grid = [] ∧ ∀ k, ¬ reach grid start k goal)
  ∨ (route grid start goal (find_path start goal grid)
     ∧ ∀ k, reach grid start k goal →
            Z.of_nat (length (find_path start goal grid)) - 1 ≤ k).
Proof.
  intros Hstart. unfold find_path.
  destruct (search_loop_correct (search_fuel grid) (start_search start goal) start
              (start_search_inv start) start_search_measure)
    as (res & -> & [Hnone|(l & -> & Hchain & Hmin)]).
  - by left.
  - right. split; [by apply back_chain_route|].
    intros k Hk. specialize (Hmin k Hk). simpl.
    rewrite length_reverse, length_app. simpl. lia.
Qed.

End SearchFacts.

(** C1.  With a priority queue that hands out a node of least cost, on a
    grid whose rows have one length, for a start and a goal joined by a
    sequence of 4-adjacent passable cells: the search loop of [find_path]
    returns within its fuel, and the sequence returned begins with the
    start, ends with the goal, steps between 4-adjacent cells, runs over
    passable cells only, and is no longer than any sequence of 4-adjacent
    passable cells from the start to the goal; so its length minus one is
    the least number of moves. *)
Theorem C1_find_path_shortest {PQ : PriorityQueue} (grid : list (list TileType))
    (start goal : Position) :
  pq_correct PQ → rectangular grid → connected grid start goal →
  search_loop (search_fuel grid) grid start goal (start_search start goal)
  = Some (find_path start goal grid)
  ∧ route grid start goal (find_path start goal grid)
  ∧ ∀ l, route grid start goal l → (length (find_path start goal grid) ≤ length l)%nat.
Proof.
  intros Hpq _ [l0 Hl0].
  split; [by destruct (find_path_returns Hpq grid start goal) as (res & -> & ->)|].
  assert (open_cell grid start) as Hstart.
  { destruct Hl0 as (Hhead & _ & _ & Hopen). destruct l0 as [|p l0]; [done|].
    simpl in Hhead. injection Hhead as ->. by apply Forall_cons in Hopen as [? _]. }
  destruct (find_path_correct Hpq grid start goal Hstart) as [[_ Hnone]|[Hroute Hmin]].
  - destruct (Hnone _ (route_reach grid start goal l0 Hl0)).
  - split; [done|]. intros l Hl.
    specialize (Hmin _ (route_reach grid start goal l Hl)). lia.
Qed.

Lemma pop_min_correct : pq_correct first_min_queue.
Proof.
  intros l. simpl. induction l as [|n l IH]; simpl; [done|].
  destruct (pop_min l) as [[m rest]|].
  - destruct IH as [Hperm Hmin].
    destruct (Z.leb_spec (f_cost n) (f_cost m)) as [Hle|Hlt].
    + split; [done|]. intros x [->|Hx]%elem_of_cons; [lia|].
      specialize (Hmin x Hx). lia.
    + split.
      * rewrite Hperm. apply perm_swap.
      * intros x [->|Hx]%elem_of_cons; [lia|]. by apply Hmin.
  - subst l. split; [done|]. intros x ->%list_elem_of_singleton. lia.
Qed.

Lemma C1_find_path_shortest_witness :
  let start := mkPosition 0 2 in
  let goal := mkPosition 2 2 in
  search_loop (PQ := first_min_queue) (search_fuel demo_grid) demo_grid start goal
              (start_search start goal)
  = Some (find_path (PQ := first_min_queue) start goal demo_grid)
  ∧ route demo_grid start goal (find_path (PQ := first_min_queue) start goal demo_grid)
  ∧ ∀ l, route demo_grid start goal l →
         (length (find_path (PQ := first_min_queue) start goal demo_grid) ≤ length l)%nat.
Proof.
  intros start goal.
  apply (C1_find_path_shortest (PQ := first_min_queue) demo_grid start goal).
  - exact pop_min_correct.
  - intros row Hrow. unfold demo_grid in Hrow.
    rewrite !elem_of_cons, elem_of_nil in Hrow.
    destruct Hrow as [-> | [-> | [-> | []]]]; reflexivity.
  - exists [mkPosition 0 2; mkPosition 0 1; mkPosition 0 0; mkPosition 1 0;
            mkPosition 2 0; mkPosition 2 1; mkPosition 2 2].
    split; [reflexivity|]. split; [reflexivity|]. split.
    + unfold adjacent4. simpl. repeat (split; [reflexivity|]). exact I.
    + repeat (apply Forall_cons_2; [split; [vm_compute; intuition discriminate|reflexivity]|]).
      apply Forall_nil_2.
Defined.

(** ** Runs of the model on small inputs *)

Example find_path_demo_grid :
  find_path (PQ := first_min_queue) (mkPosition 0 2) (mkPosition 2 2) demo_grid
  = [mkPosition 0 2; mkPosition 0 1; mkPosition 0 0; mkPosition 1 0;
     mkPosition 2 0; mkPosition 2 1; mkPosition 2 2].
Proof. vm_compute. reflexivity. Qed.

Example find_path_no_route :
  find_path (PQ := first_min_queue) (mkPosition 0 2) (mkPosition 1 1) demo_grid = [].
Proof. vm_compute. reflexivity. Qed.

Example find_path_start_is_goal :
  find_path (PQ := first_min_queue) (mkPosition 0 2) (mkPosition 0 2) demo_grid
  = [mkPosition 0 2].
Proof. vm_compute. reflexivity. Qed.

(** Six roads from (0,0) to (5,0): each placement succeeds and the ledger
    goes from 20 roads to 14. *)
Example six_roads_ledger :
  let actions := [(0, 0, 0); (0, 1, 0); (0, 2, 0); (0, 3, 0); (0, 4, 0); (0, 5, 0)] in
  resources new_env !! "roads" = Some 20
  ∧ resources (run_actions new_env actions) !! "roads" = Some 14
  ∧ tile_at (grid (run_actions new_env actions)) (mkPosition 5 0) = ROAD.
Proof. vm_compute. auto. Qed.

(** A vehicle set on that road at (0,0) and bound for (5,0) arrives in five
    traffic phases; the fifth completes it, removes it and scores once. *)
Example six_roads_vehicle :
  let actions := [(0, 0, 0); (0, 1, 0); (0, 2, 0); (0, 3, 0); (0, 4, 0); (0, 5, 0)] in
  let e := run_actions new_env actions in
  let e0 := mkEnv (grid e) [new_car (mkPosition 0 0) (mkPosition 5 0) RED] (buildings e)
                  (resources e) (score e) (current_step e) (game_over e)
                  (congestion_penalty e) in
  let run n := Nat.iter n (simulate_traffic (PQ := first_min_queue)) e0 in
  (position <$> cars (run 4%nat)) = [mkPosition 4 0] ∧ score (run 4%nat) = 0
  ∧ cars (run 5%nat) = [] ∧ score (run 5%nat) = 1.
Proof. vm_compute. auto. Qed.

(** A traffic light goes on a road, not on an empty cell. *)
Example traffic_light_needs_road :
  (execute_action new_env 4 2 2).1 = false
  ∧ (execute_action (execute_action new_env 0 2 2).2 4 2 2).1 = true
  ∧ tile_at (grid (execute_action (execute_action new_env 0 2 2).2 4 2 2).2) (mkPosition 2 2)
    = TRAFFIC_LIGHT.
Proof. vm_compute. auto. Qed.

(** ** More on the path finder *)

Section PathFinderMore.

Context {PQ : PriorityQueue} (Hpq : pq_correct PQ).
Context (grid : list (list TileType)) (start goal : Position).

(** What [find_path] returns, for any start, goal and grid. *)
Lemma find_path_cases :
  (find_path start goal grid = [] ∧ ∀ k, ¬ reach grid start k goal)
  ∨ (∃ l, find_path start goal grid = start :: reverse l
          ∧ back_chain grid start goal l
          ∧ ∀ k, reach grid start k goal → Z.of_nat (length l) ≤ k).
Proof.
  unfold find_path.
  destruct (search_loop_correct Hpq grid start goal (search_fuel grid)
              (start_search start goal) start (start_search_inv grid start goal start)
              (start_search_measure grid start goal))
    as (res & -> & [Hnone|(l & -> & Hchain & Hmin)]).
  - by left.
  - right. exists l. by rewrite reverse_snoc.
Qed.

Lemma stepwise_distance (l : list Position) (p q : Position) :
  head l = Some p → last l = Some q → stepwise_adjacent l →
  calculate_distance p q ≤ Z.of_nat (length l) - 1.
Proof.
  revert p. induction l as [|a l IH]; intros p Hhead Hlast Hadj; [done|].
  simpl in Hhead. injection Hhead as ->.
  destruct l as [|b l].
  - simpl in Hlast. injection Hlast as ->. unfold calculate_distance. simpl. lia.
  - destruct Hadj as [Hab Hadj]. rewrite last_cons_cons in Hlast.
    specialize (IH b eq_refl Hlast Hadj).
    unfold adjacent4 in Hab. unfold calculate_distance in *. simpl length in *. lia.
Qed.

(** On a grid with at least one row, whose rows have one length, whatever
    the start (passable or not, inside the grid or not), a non-empty result
    of [find_path] begins with the start, ends with the goal, steps between
    4-adjacent cells, enters passable cells only, and has at least as many
    moves as the Manhattan distance from start to goal. *)
Theorem find_path_result_is_walk :
  rectangular grid → grid ≠ [] →
  let p := find_path start goal grid in
  p = []
  ∨ (head p = Some start ∧ last p = Some goal ∧ stepwise_adjacent p
     ∧ Forall (open_cell grid) (tail p)
     ∧ calculate_distance start goal ≤ Z.of_nat (length p) - 1).
Proof.
  intros _ _. destruct find_path_cases as [[-> _]|(l & Hl & Hchain & _)]; [by left|].
  right. simpl. rewrite Hl.
  destruct (back_chain_path grid start goal l Hchain) as (Hhead & Hlast & Hadj & Hopen).
  rewrite reverse_snoc in Hhead, Hlast, Hadj.
  split; [done|]. split; [done|]. split; [done|].
  split; [by apply Forall_reverse|]. by apply stepwise_distance.
Qed.

(** On a grid whose rows have one length, from a passable start,
    [find_path] returns the empty sequence exactly when no sequence of
    4-adjacent passable cells joins the start to the goal. *)
Theorem find_path_empty_iff_disconnected :
  rectangular grid → open_cell grid start →
  find_path start goal grid = [] ↔ ¬ connected grid start goal.
Proof.
  intros _ Hstart.
  destruct (find_path_correct Hpq grid start goal Hstart) as [[Hnil Hnone]|[Hroute _]].
  - split; [|done]. intros _ [l Hl]. by apply (Hnone _ (route_reach grid start goal l Hl)).
  - split.
    + intros Hnil. rewrite Hnil in Hroute. by destruct Hroute as [? _].
    + intros Hnot. destruct Hnot. by eexists.
Qed.

End PathFinderMore.

(** When the goal is the start, [find_path] returns the one-cell sequence,
    on any grid and for any start: the search returns on its first
    iteration, before it looks at the grid. *)
Theorem find_path_start_is_goal_cell {PQ : PriorityQueue}
    (grid : list (list TileType)) (start : Position) :
  pq_correct PQ → find_path start start grid = [start].
Proof.
  intros Hpq.
  destruct (find_path_cases Hpq grid start start) as [[_ Hnone]|(l & -> & Hchain & Hmin)].
  - destruct (Hnone 0). constructor.
  - specialize (Hmin 0 (reach_start grid start)).
    destruct l; [done|]. simpl in Hmin. lia.
Qed.

(** ** More on the action executor *)

Lemma place_true_iff (e : Env) (key : string) (from to : TileType) (p : Position) :
  (place e key from to p).1 = true
  ↔ 0 < resource_count (resources e) key ∧ tile_at (grid e) p = from.
Proof.
  unfold place, index_or_insert, resource_count.
  destruct (resources e !! key) as [n|]; simpl.
  - destruct (Z.ltb_spec 0 n); simpl.
    + case_bool_decide; simpl; split; intros; try done; tauto.
    + split; [done|]. lia.
  - split; [done|]. lia.
Qed.

(** [execute_action] returns [true] exactly when the cell is on the grid and
    the action fits: kinds 0 to 3 need an empty cell and a unit of their
    resource, kind 4 a road and a traffic light in stock, kind 5 a road or a
    motorway; every other call, with any other kind, returns [false]. *)
Theorem execute_action_succeeds_iff (e : Env) (action_type x y : Z) :
  (execute_action e action_type x y).1 = true
  ↔ action_applies e action_type (mkPosition x y).
Proof.
  unfold execute_action, action_applies.
  destruct (is_valid_position (mkPosition x y)) eqn:Hp; simpl.
  2: { split; [done|]. intros [? _]. done. }
  destruct (Z.eqb_spec action_type 0) as [->|H0].
  { rewrite place_true_iff. intuition (first [lia | congruence]). }
  destruct (Z.eqb_spec action_type 1) as [->|H1].
  { rewrite place_true_iff. intuition (first [lia | congruence]). }
  destruct (Z.eqb_spec action_type 2) as [->|H2].
  { rewrite place_true_iff. intuition (first [lia | congruence]). }
  destruct (Z.eqb_spec action_type 3) as [->|H3].
  { rewrite place_true_iff. intuition (first [lia | congruence]). }
  destruct (Z.eqb_spec action_type 4) as [->|H4].
  { rewrite place_true_iff. intuition (first [lia | congruence]). }
  destruct (Z.eqb_spec action_type 5) as [->|H5].
  - destruct (tile_at (grid e) (mkPosition x y)) eqn:Ht; simpl;
      intuition (first [lia | congruence]).
  - simpl. intuition (first [lia | congruence]).
Qed.

Lemma tile_at_set_tile_other (g : list (list TileType)) (p q : Position) (t : TileType) :
  is_valid_position p = true → is_valid_position q = true → p ≠ q →
  tile_at (set_tile g p t) q = tile_at g q.
Proof.
  intros Hp%is_valid_position_spec Hq%is_valid_position_spec Hne.
  unfold tile_at, set_tile.
  destruct (decide (Z.to_nat (pos_y p) = Z.to_nat (pos_y q))) as [Hy|Hy].
  - rewrite Hy, list_lookup_alter_eq.
    destruct (g !! Z.to_nat (pos_y q)) as [row|]; simpl; [|done].
    rewrite list_lookup_insert_ne; [done|].
    intros Hx. apply Hne. destruct p, q. simpl in *. f_equal; lia.
  - by rewrite list_lookup_alter_ne.
Qed.

(** What an action can do to the grid, and what it leaves alone. *)
Lemma execute_action_shape (e : Env) (action_type x y : Z) :
  let e' := (execute_action e action_type x y).2 in
  cars e' = cars e ∧ buildings e' = buildings e ∧ score e' = score e
  ∧ current_step e' = current_step e ∧ game_over e' = game_over e
  ∧ congestion_penalty e' = congestion_penalty e
  ∧ (grid e' = grid e
     ∨ (is_valid_position (mkPosition x y) = true
        ∧ (tile_at (grid e) (mkPosition x y) = EMPTY
           ∨ tile_at (grid e) (mkPosition x y) = ROAD
           ∨ tile_at (grid e) (mkPosition x y) = MOTORWAY)
        ∧ ∃ t, t ≠ HOUSE ∧ t ≠ BUSINESS
               ∧ grid e' = set_tile (grid e) (mkPosition x y) t)).
Proof.
  assert (∀ key from to, from = EMPTY ∨ from = ROAD → to ≠ HOUSE ∧ to ≠ BUSINESS →
            is_valid_position (mkPosition x y) = true →
            let e' := (place e key from to (mkPosition x y)).2 in
            cars e' = cars e ∧ buildings e' = buildings e ∧ score e' = score e
            ∧ current_step e' = current_step e ∧ game_over e' = game_over e
            ∧ congestion_penalty e' = congestion_penalty e
            ∧ (grid e' = grid e
               ∨ (is_valid_position (mkPosition x y) = true
                  ∧ (tile_at (grid e) (mkPosition x y) = EMPTY
                     ∨ tile_at (grid e) (mkPosition x y) = ROAD
                     ∨ tile_at (grid e) (mkPosition x y) = MOTORWAY)
                  ∧ ∃ t, t ≠ HOUSE ∧ t ≠ BUSINESS
                         ∧ grid e' = set_tile (grid e) (mkPosition x y) t))) as Hplace.
  { intros key from to Hfrom Hto Hp. unfold place.
    destruct (index_or_insert (resources e) key) as [n res].
    destruct (0 <? n); simpl; [|by repeat split; try left].
    case_bool_decide as Ht; simpl; [|by repeat split; try left].
    destruct Hto as [Hto1 Hto2].
    repeat split; try done. right. split; [done|]. split; [|by exists to].
    rewrite Ht. tauto. }
  unfold execute_action.
  destruct (is_valid_position (mkPosition x y)) eqn:Hp; simpl;
    [|by repeat split; try left].
  repeat (match goal with |- context [if ?a =? ?b then place _ _ _ _ _ else _] =>
            destruct (a =? b); [apply Hplace; [tauto|done..]|]
          end).
  destruct (action_type =? 5); [|by repeat split; try left].
  destruct (tile_at (grid e) (mkPosition x y)) eqn:Ht; simpl;
    try (by repeat split; try left);
    (repeat split; try done; right; split; [done|]; split; [tauto|by exists EMPTY]).
Qed.

(** An action changes the grid at most at its own cell, changes that cell
    only if it is empty, a road or a motorway (so never a house, a
    business, a bridge, a roundabout or a traffic light), and never touches
    the vehicles, the buildings, the score, the step counter, the terminal
    flag or the congestion penalty. *)
Theorem execute_action_frame (e : Env) (action_type x y : Z) :
  let e' := (execute_action e action_type x y).2 in
  cars e' = cars e ∧ buildings e' = buildings e ∧ score e' = score e
  ∧ current_step e' = current_step e ∧ game_over e' = game_over e
  ∧ congestion_penalty e' = congestion_penalty e
  ∧ (∀ q, is_valid_position q = true → q ≠ mkPosition x y →
          tile_at (grid e') q = tile_at (grid e) q)
  ∧ (∀ q, is_valid_position q = true → tile_at (grid e) q ≠ EMPTY →
          tile_at (grid e) q ≠ ROAD → tile_at (grid e) q ≠ MOTORWAY →
          tile_at (grid e') q = tile_at (grid e) q).
Proof.
  destruct (execute_action_shape e action_type x y)
    as (H1 & H2 & H3 & H4 & H5 & H6 & Hgrid).
  repeat (split; [done|]).
  destruct Hgrid as [->|(Hp & Hold & t & _ & _ & ->)]; [done|]. split.
  - intros q Hq Hne. by apply tile_at_set_tile_other.
  - intros q Hq He Hr Hm. destruct (decide (q = mkPosition x y)) as [->|Hne].
    + destruct Hold as [?|[?|?]]; done.
    + by apply tile_at_set_tile_other.
Qed.

Lemma tile_at_lookup (g : list (list TileType)) (p : Position) :
  grid_ok g → is_valid_position p = true →
  ∃ row, g !! Z.to_nat (pos_y p) = Some row
         ∧ row !! Z.to_nat (pos_x p) = Some (tile_at g p).
Proof.
  intros [Hrows Hcols] Hp%is_valid_position_spec.
  destruct (lookup_lt_is_Some_2 g (Z.to_nat (pos_y p))) as [row Hrow].
  { rewrite Hrows. unfold GRID_HEIGHT in *. lia. }
  exists row. split; [done|].
  destruct (lookup_lt_is_Some_2 row (Z.to_nat (pos_x p))) as [t Ht].
  { rewrite Forall_forall in Hcols. rewrite (Hcols row).
    - unfold GRID_WIDTH in *. lia.
    - eapply list_elem_of_lookup_2. exact Hrow. }
  unfold tile_at. rewrite Hrow. simpl. by rewrite Ht.
Qed.

Lemma set_tile_restore (g : list (list TileType)) (p : Position) (t : TileType) :
  grid_ok g → is_valid_position p = true →
  set_tile (set_tile g p t) p (tile_at g p) = g.
Proof.
  intros Hg Hp. destruct (tile_at_lookup g p Hg Hp) as (row & Hrow & Hx).
  unfold set_tile at 1 2. rewrite list_alter_alter_eq.
  apply list_eq. intros i. rewrite list_lookup_alter. case_decide as Hi; [|done].
  subst i. rewrite Hrow. simpl. f_equal.
  rewrite list_insert_insert_eq. by apply list_insert_id.
Qed.

Lemma place_succeeds (e : Env) (key : string) (from to : TileType) (p : Position) (n : Z) :
  resources e !! key = Some n → 0 < n → tile_at (grid e) p = from →
  place e key from to p
  = (true, mkEnv (set_tile (grid e) p to) (cars e) (buildings e)
                 (<[key := n - 1]> (resources e))
                 (score e) (current_step e) (game_over e) (congestion_penalty e)).
Proof.
  intros Hn Hpos Ht. unfold place. rewrite (index_or_insert_Some _ _ _ Hn).
  destruct (Z.ltb_spec 0 n); [|lia]. by rewrite bool_decide_eq_true_2.
Qed.

Lemma give_back_present (res : gmap string Z) (key : string) (n : Z) :
  res !! key = Some n → give_back res key = <[key := n + 1]> res.
Proof. intros Hn. unfold give_back. by rewrite (index_or_insert_Some _ _ _ Hn). Qed.

(** Placing a road or a motorway and removing it at once gives back the
    very state the placement started from: grid, ledger and all. *)
Theorem place_then_remove_restores_state (e e1 : Env) (kind x y : Z) :
  grid_ok (grid e) → kind = 0 ∨ kind = 1 →
  execute_action e kind x y = (true, e1) →
  execute_action e1 5 x y = (true, e).
Proof.
  intros Hg Hkind. unfold execute_action at 1.
  destruct (is_valid_position (mkPosition x y)) eqn:Hp; simpl; [|intros [=]].
  destruct Hkind as [-> | ->]; simpl;
    intros (n & Hn & Hpos & Ht & ->)%place_true;
    unfold execute_action; rewrite Hp; simpl;
    rewrite (tile_at_set_tile _ _ _ Hg Hp); simpl;
    rewrite (give_back_present _ _ (n - 1)) by apply lookup_insert_eq;
    rewrite insert_insert_eq; replace (n - 1 + 1) with n by lia;
    rewrite (insert_id _ _ _ Hn); rewrite <- Ht at 1;
    rewrite (set_tile_restore _ _ _ Hg Hp); by rewrite env_eta.
Qed.

(** Removing a road or a motorway and placing the same kind back at once
    gives back the very state the removal started from. *)
Theorem remove_then_place_restores_state (e e1 : Env) (x y : Z) :
  grid_ok (grid e) → ledger_ok (resources e) →
  execute_action e 5 x y = (true, e1) →
  execute_action e1 (if bool_decide (tile_at (grid e) (mkPosition x y) = ROAD) then 0 else 1)
                 x y
  = (true, e).
Proof.
  intros Hg Hok. unfold execute_action at 1.
  destruct (is_valid_position (mkPosition x y)) eqn:Hp; simpl; [|intros [=]].
  destruct (Hok "roads") as (r & Hr & Hr0); [apply in_resource_keys; tauto|].
  destruct (Hok "motorways") as (m & Hm & Hm0); [apply in_resource_keys; tauto|].
  destruct (tile_at (grid e) (mkPosition x y)) eqn:Ht; simpl; intros [= <-];
    unfold execute_action; rewrite Hp; simpl.
  - rewrite (give_back_present _ _ r Hr).
    rewrite (place_succeeds _ "roads" EMPTY ROAD _ (r + 1)); simpl;
      [|apply lookup_insert_eq|lia|by apply tile_at_set_tile].
    rewrite insert_insert_eq. replace (r + 1 - 1) with r by lia.
    rewrite (insert_id _ _ _ Hr). rewrite <- Ht at 1.
    rewrite (set_tile_restore _ _ _ Hg Hp). by rewrite env_eta.
  - rewrite (give_back_present _ _ m Hm).
    rewrite (place_succeeds _ "motorways" EMPTY MOTORWAY _ (m + 1)); simpl;
      [|apply lookup_insert_eq|lia|by apply tile_at_set_tile].
    rewrite insert_insert_eq. replace (m + 1 - 1) with m by lia.
    rewrite (insert_id _ _ _ Hm). rewrite <- Ht at 1.
    rewrite (set_tile_restore _ _ _ Hg Hp). by rewrite env_eta.
Qed.

(** ** Resource accounting *)

Lemma sum_list_with_insert {A} (f : A → nat) (l : list A) (i : nat) (a b : A) :
  l !! i = Some a →
  (sum_list_with f (<[i := b]> l) + f a = sum_list_with f l + f b)%nat.
Proof.
  revert i. induction l as [|x l IH]; intros [|i] Hi; simpl in *; try done.
  - injection Hi as ->. lia.
  - specialize (IH i Hi). lia.
Qed.

Lemma sum_list_with_alter {A} (f : A → nat) (h : A → A) (l : list A) (i : nat) (a : A) :
  l !! i = Some a →
  (sum_list_with f (alter h i l) + f a = sum_list_with f l + f (h a))%nat.
Proof.
  revert i. induction l as [|x l IH]; intros [|i] Hi; simpl in *; try done.
  - injection Hi as ->. generalize (f (h a)) (f a) (sum_list_with f l). intros; lia.
  - specialize (IH i Hi). change (list_alter h i l) with (alter h i l). revert IH.
    generalize (f (h a)) (f a) (f x) (sum_list_with f l) (sum_list_with f (alter h i l)).
    intros; lia.
Qed.

Lemma list_alter_None {A} (h : A → A) (l : list A) (i : nat) :
  l !! i = None → alter h i l = l.
Proof.
  revert i. induction l as [|x l IH]; intros [|i] Hi; simpl in *; try done.
  f_equal. by apply IH.
Qed.

(** Writing a cell moves one unit from the count of its old kind to the
    count of its new kind; a write outside the grid changes nothing. *)
Lemma count_tiles_set_tile (t : TileType) (g : list (list TileType)) (p : Position)
    (new : TileType) :
  set_tile g p new = g
  ∨ count_tiles t (set_tile g p new) + (if decide (tile_at g p = t) then 1 else 0)
    = count_tiles t g + (if decide (new = t) then 1 else 0).
Proof.
  unfold set_tile, tile_at, count_tiles.
  destruct (g !! Z.to_nat (pos_y p)) as [row|] eqn:Hrow; simpl.
  2: { left. by apply list_alter_None. }
  destruct (row !! Z.to_nat (pos_x p)) as [old|] eqn:Hold; simpl.
  2: { left. apply list_eq. intros i. rewrite list_lookup_alter. case_decide; [|done].
       subst i. rewrite Hrow. simpl. f_equal. apply list_insert_ge.
       by apply lookup_ge_None_1. }
  right.
  pose proof (sum_list_with_alter (count_in_row t)
                (λ row, <[Z.to_nat (pos_x p) := new]> row) g _ row Hrow) as Hrows.
  assert (count_in_row t (<[Z.to_nat (pos_x p) := new]> row)
          + (if decide (old = t) then 1 else 0)
          = count_in_row t row + (if decide (new = t) then 1 else 0))%nat as Hcells
    by exact (sum_list_with_insert (λ tile, if decide (tile = t) then 1%nat else 0%nat)
                row _ old new Hold).
  cbv beta in Hrows.
  destruct (decide (old = t)), (decide (new = t)); lia.
Qed.

Lemma count_tiles_set_tile_other (t : TileType) (g : list (list TileType)) (p : Position)
    (new : TileType) :
  tile_at g p ≠ t → new ≠ t → count_tiles t (set_tile g p new) = count_tiles t g.
Proof.
  intros Hold Hnew. destruct (count_tiles_set_tile t g p new) as [->|H]; [done|].
  rewrite !decide_False in H by done. lia.
Qed.

Lemma count_tiles_set_tile_valid (t : TileType) (g : list (list TileType)) (p : Position)
    (new : TileType) :
  grid_ok g → is_valid_position p = true →
  count_tiles t (set_tile g p new) + (if decide (tile_at g p = t) then 1 else 0)
  = count_tiles t g + (if decide (new = t) then 1 else 0).
Proof.
  intros Hg Hp. destruct (count_tiles_set_tile t g p new) as [Heq|H]; [|done].
  pose proof (tile_at_set_tile g p new Hg Hp) as Hnew. rewrite Heq in *.
  rewrite Hnew. lia.
Qed.

Lemma count_tiles_nonneg (t : TileType) (g : list (list TileType)) : 0 ≤ count_tiles t g.
Proof. unfold count_tiles. lia. Qed.

Lemma count_tiles_empty_grid (t : TileType) : t ≠ EMPTY → count_tiles t empty_grid = 0.
Proof. intros Ht. destruct t; try done; vm_compute; reflexivity. Qed.

Lemma resource_count_insert (res : gmap string Z) (key key' : string) (n : Z) :
  resource_count (<[key := n]> res) key'
  = if decide (key = key') then n else resource_count res key'.
Proof. unfold resource_count. rewrite lookup_insert. by case_decide. Qed.

Ltac count_all_tiles g p new Hg Hp :=
  pose proof (count_tiles_set_tile_valid ROAD g p new Hg Hp);
  pose proof (count_tiles_set_tile_valid TRAFFIC_LIGHT g p new Hg Hp);
  pose proof (count_tiles_set_tile_valid MOTORWAY g p new Hg Hp);
  pose proof (count_tiles_set_tile_valid BRIDGE g p new Hg Hp);
  pose proof (count_tiles_set_tile_valid ROUNDABOUT g p new Hg Hp).

Lemma place_balanced (e : Env) (key : string) (from to : TileType) (p : Position) :
  (key, from, to) ∈ [("roads", EMPTY, ROAD); ("motorways", EMPTY, MOTORWAY);
                     ("bridges", EMPTY, BRIDGE); ("roundabouts", EMPTY, ROUNDABOUT);
                     ("traffic_lights", ROAD, TRAFFIC_LIGHT)] →
  grid_ok (grid e) → ledger_ok (resources e) → is_valid_position p = true →
  ledger_balanced e → ledger_balanced (place e key from to p).2.
Proof.
  intros Hcase Hg Hok Hp Hbal.
  destruct (place e key from to p) as [[] e'] eqn:Hplace.
  2: { pose proof (place_false e key from to p) as Hfalse. rewrite Hplace in Hfalse.
       simpl in *. rewrite Hfalse; [done| |done].
       destruct (Hok key) as (n & -> & _); [|by eexists].
       apply in_resource_keys. rewrite !elem_of_cons, elem_of_nil in Hcase.
       destruct Hcase as [H|[H|[H|[H|[H|[]]]]]]; injection H as -> _ _; tauto. }
  apply place_true in Hplace as (n & Hn & Hpos & Ht & ->). simpl.
  count_all_tiles (grid e) p to Hg Hp.
  assert (resource_count (resources e) key = n) as Hcount
    by (unfold resource_count; by rewrite Hn).
  unfold ledger_balanced in *. simpl. rewrite !resource_count_insert.
  rewrite Ht in *.
  rewrite !elem_of_cons, elem_of_nil in Hcase.
  destruct Hcase as [Hc|[Hc|[Hc|[Hc|[Hc|[]]]]]]; injection Hc as -> -> ->;
    repeat (case_decide; try done); lia.
Qed.

Lemma execute_action_balanced (e : Env) (action_type x y : Z) :
  grid_ok (grid e) → ledger_ok (resources e) →
  ledger_balanced e → ledger_balanced (execute_action e action_type x y).2.
Proof.
  intros Hg Hok Hbal. unfold execute_action.
  destruct (is_valid_position (mkPosition x y)) eqn:Hp; simpl; [|done].
  repeat (match goal with |- context [if ?a =? ?b then place _ _ _ _ _ else _] =>
            destruct (a =? b);
            [apply place_balanced; try done; rewrite !elem_of_cons; tauto|]
          end).
  destruct (action_type =? 5); [|done].
  destruct (Hok "roads") as (r & Hr & _); [apply in_resource_keys; tauto|].
  destruct (Hok "motorways") as (m & Hm & _); [apply in_resource_keys; tauto|].
  assert (resource_count (resources e) "roads" = r) as Hcr
    by (unfold resource_count; by rewrite Hr).
  assert (resource_count (resources e) "motorways" = m) as Hcm
    by (unfold resource_count; by rewrite Hm).
  count_all_tiles (grid e) (mkPosition x y) EMPTY Hg Hp.
  unfold ledger_balanced in *.
  destruct (tile_at (grid e) (mkPosition x y)) eqn:Ht; simpl; try done.
  - rewrite (give_back_present _ _ r Hr), !resource_count_insert.
    repeat (case_decide; try done); lia.
  - rewrite (give_back_present _ _ m Hm), !resource_count_insert.
    repeat (case_decide; try done); lia.
Qed.

Lemma ledger_balanced_ext (e e' : Env) :
  grid e' = grid e → resources e' = resources e →
  ledger_balanced e → ledger_balanced e'.
Proof. unfold ledger_balanced. by intros -> ->. Qed.

Section BalanceFacts.

Context {PQ : PriorityQueue} {RE : RandomEngine}.

Lemma place_building_counts (t kind : TileType) (st : Env * Rng) (i : nat) :
  kind = HOUSE ∨ kind = BUSINESS → t ≠ EMPTY → t ≠ HOUSE → t ≠ BUSINESS →
  count_tiles t (grid (place_building kind st i).1) = count_tiles t (grid st.1).
Proof.
  intros Hkind H1 H2 H3. destruct st as [e rng]. unfold place_building.
  unfold find_empty_position.
  assert (∀ n rng, (find_empty_loop n (grid e) rng).1 = mkPosition (-1) (-1)
                   ∨ tile_at (grid e) (find_empty_loop n (grid e) rng).1 = EMPTY) as Hfind.
  { induction n as [|n IH]; intros r; simpl; [by left|].
    destruct (position_dist_x r) as [px r1]. destruct (position_dist_y r1) as [py r2].
    case_decide; simpl; [by right|apply IH]. }
  specialize (Hfind 100%nat rng).
  destruct (find_empty_loop 100 (grid e) rng) as [pos rng']. simpl in *.
  case_decide as Hx; simpl; [|done].
  destruct Hfind as [->|Hempty]; [done|].
  apply count_tiles_set_tile_other; [by rewrite Hempty|].
  destruct Hkind as [-> | ->]; done.
Qed.

Lemma place_buildings_counts (t kind : TileType) (idx : list nat) (st : Env * Rng) :
  kind = HOUSE ∨ kind = BUSINESS → t ≠ EMPTY → t ≠ HOUSE → t ≠ BUSINESS →
  count_tiles t (grid (foldl (place_building kind) st idx).1) = count_tiles t (grid st.1).
Proof.
  intros Hkind H1 H2 H3. revert st.
  induction idx as [|i idx IH]; intros st; cbn [foldl]; [done|].
  rewrite IH. by apply place_building_counts.
Qed.

Lemma reset_balanced (e : Env) (rng : Rng) : ledger_balanced (reset e rng).1.1.
Proof.
  destruct (reset_fields e rng) as (_ & Hres & _).
  assert (∀ t, t ≠ EMPTY → t ≠ HOUSE → t ≠ BUSINESS →
               count_tiles t (grid (reset e rng).1.1) = 0) as Hgrid.
  { intros t H1 H2 H3. unfold reset, spawn_initial_buildings.
    set (e0 := mkEnv empty_grid [] [] (initial_resources (resources e)) 0 0 false 0).
    pose proof (place_buildings_counts t BUSINESS (seq 0 2)
                  (foldl (place_building HOUSE) (e0, rng) (seq 0 3))
                  ltac:(tauto) H1 H2 H3) as Hb.
    pose proof (place_buildings_counts t HOUSE (seq 0 3) (e0, rng)
                  ltac:(tauto) H1 H2 H3) as Hh.
    destruct (foldl (place_building BUSINESS) _ _) as [e1 rng']. simpl in *.
    rewrite Hb, Hh. by apply count_tiles_empty_grid. }
  unfold ledger_balanced. rewrite Hres, !Hgrid by done.
  unfold resource_count, initial_resources. by simplify_map_eq.
Qed.

Lemma step_grid_resources (e : Env) (rng : Rng) (action : list Z) :
  (grid (step e rng action).1.1 = grid e
   ∧ resources (step e rng action).1.1 = resources e)
  ∨ (grid (step e rng action).1.1 = grid (apply_action e action)
     ∧ resources (step e rng action).1.1 = resources (apply_action e action)).
Proof.
  unfold step. destruct (game_over e || _); [by left|]. right.
  destruct (spawn_cars_frame (simulate_traffic (apply_action e action)) rng)
    as (Hg & Hr & _).
  destruct (simulate_traffic_frame (apply_action e action)) as (Hg' & _ & Hr' & _).
  destruct (spawn_cars _ _) as [e3 rng']. simpl in *.
  by rewrite Hg, Hr, Hg', Hr'.
Qed.

Lemma reachable_balanced (e : Env) (rng : Rng) : reachable e rng → ledger_balanced e.
Proof.
  induction 1 as [rng|e rng Hreach IH|e rng action Hreach IH|e rng kind x y Hreach IH].
  - unfold ledger_balanced. vm_compute. tauto.
  - apply reset_balanced.
  - pose proof (reachable_env_ok e rng Hreach) as Hok.
    destruct (step_grid_resources e rng action) as [[Hg Hr]|[Hg Hr]].
    + by apply (ledger_balanced_ext e).
    + apply (ledger_balanced_ext (apply_action e action)); [done..|].
      unfold apply_action. destruct (_ <? 6); [|done].
      apply execute_action_balanced; [apply Hok..|done].
  - pose proof (reachable_env_ok e rng Hreach) as Hok.
    apply execute_action_balanced; [apply Hok..|done].
Qed.

(** In every reachable state the ledger and the grid balance: roads left
    plus road tiles plus traffic-light tiles (each a converted road) make
    20, motorways left plus motorway tiles make 3, bridges and bridge tiles
    2, roundabouts and roundabout tiles 1, traffic lights left and
    traffic-light tiles 2, and the upgrade count stays 1.  So no count
    ever exceeds what the episode started with. *)
Theorem ledger_balances_grid (e : Env) (rng : Rng) :
  reachable e rng →
  ledger_balanced e
  ∧ 0 ≤ resource_count (resources e) "roads" ≤ 20
  ∧ 0 ≤ resource_count (resources e) "motorways" ≤ 3
  ∧ 0 ≤ resource_count (resources e) "bridges" ≤ 2
  ∧ 0 ≤ resource_count (resources e) "roundabouts" ≤ 1
  ∧ 0 ≤ resource_count (resources e) "traffic_lights" ≤ 2.
Proof.
  intros Hreach. pose proof (reachable_balanced e rng Hreach) as Hbal.
  split; [done|].
  pose proof (ok_ledger e (reachable_env_ok e rng Hreach)) as Hok.
  assert (∀ key, key ∈ resource_keys → 0 ≤ resource_count (resources e) key) as Hpos.
  { intros key Hkey. destruct (Hok key Hkey) as (n & Hn & ?).
    unfold resource_count. by rewrite Hn. }
  pose proof (Hpos "roads" ltac:(apply in_resource_keys; tauto)).
  pose proof (Hpos "motorways" ltac:(apply in_resource_keys; tauto)).
  pose proof (Hpos "bridges" ltac:(apply in_resource_keys; tauto)).
  pose proof (Hpos "roundabouts" ltac:(apply in_resource_keys; tauto)).
  pose proof (Hpos "traffic_lights" ltac:(apply in_resource_keys; tauto)).
  pose proof (count_tiles_nonneg ROAD (grid e)).
  pose proof (count_tiles_nonneg TRAFFIC_LIGHT (grid e)).
  pose proof (count_tiles_nonneg MOTORWAY (grid e)).
  pose proof (count_tiles_nonneg BRIDGE (grid e)).
  pose proof (count_tiles_nonneg ROUNDABOUT (grid e)).
  unfold ledger_balanced in Hbal. lia.
Qed.

End BalanceFacts.

(** ** Vehicle accounting *)

Lemma total_spawned_insert (bs : list Building) (i : nat) (b b' : Building) :
  bs !! i = Some b → cars_spawned b' = cars_spawned b + 1 →
  total_spawned (<[i := b']> bs) = total_spawned bs + 1.
Proof.
  revert i. induction bs as [|a bs IH]; intros [|i] Hi Hb; simpl in *; try done.
  - injection Hi as ->. lia.
  - rewrite (IH i Hi Hb). lia.
Qed.

Lemma spawn_cap_nonneg (k : TileType * CarColor) : 0 ≤ spawn_cap k.
Proof. destruct k as [[] []]; simpl; lia. Qed.

Lemma total_spawned_bound (bs : list Building) :
  (∀ b, b ∈ bs → cars_spawned b ≤ spawn_cap (b_type b, b_color b)) →
  kinds bs `sublist_of` intended_buildings → total_spawned bs ≤ 10.
Proof.
  intros Hcap Hsub.
  assert (total_spawned bs ≤ foldr (λ k total, spawn_cap k + total) 0 (kinds bs)) as H1.
  { clear Hsub. induction bs as [|b bs IH]; [simpl; lia|].
    pose proof (Hcap b ltac:(left)) as Hb.
    specialize (IH ltac:(intros; apply Hcap; by right)).
    change (cars_spawned b + total_spawned bs
            ≤ spawn_cap (b_type b, b_color b)
              + foldr (λ k total, spawn_cap k + total) 0 (kinds bs)).
    lia. }
  assert (∀ l1 l2 : list (TileType * CarColor), l1 `sublist_of` l2 →
            foldr (λ k total, spawn_cap k + total) 0 l1
            ≤ foldr (λ k total, spawn_cap k + total) 0 l2) as H2.
  { induction 1 as [|k l1 l2 _ IH|k l1 l2 _ IH]; simpl; [lia|lia|].
    pose proof (spawn_cap_nonneg k). lia. }
  specialize (H2 _ _ Hsub). simpl in H2. lia.
Qed.

Section FleetFacts.

Context {PQ : PriorityQueue} {RE : RandomEngine}.

Lemma move_car_score (g : list (list TileType)) (c : Car) (sc pen : Z) :
  completed c = false →
  (move_car g c sc pen).1.2 = sc + (if completed (moved_car g c) then 1 else 0).
Proof.
  intros Hc. unfold moved_car, move_car. rewrite Hc.
  destruct (match path c with [] => _ | _ :: _ => path c end) as [|p0 [|next_pos rest]];
    simpl; try lia.
  destruct (can_move_to g next_pos); simpl; [|lia].
  case_decide; simpl; lia.
Qed.

Lemma traffic_loop_score (g : list (list TileType)) (cs : list Car) (sc pen : Z) :
  (∀ c, c ∈ cs → completed c = false) →
  (traffic_loop g cs sc pen).1.2
  = sc + Z.of_nat (length (filter (λ c, completed c = true) (moved_car g <$> cs))).
Proof.
  revert sc pen. induction cs as [|c cs IH]; intros sc pen Hcs; [simpl; lia|].
  cbn [traffic_loop]. rewrite fmap_cons.
  pose proof (move_car_score g c sc pen (Hcs c ltac:(left))) as Hsc.
  destruct (move_car g c sc pen) as [[c1 sc1] pen1]. cbn [fst snd] in Hsc.
  specialize (IH sc1 pen1 ltac:(intros; apply Hcs; by right)).
  destruct (traffic_loop g cs sc1 pen1) as [[rest sc2] pen2]. cbn [fst snd] in *.
  rewrite IH, Hsc. destruct (completed (moved_car g c)) eqn:Hdone.
  - rewrite filter_cons_True by done. simpl length. lia.
  - rewrite filter_cons_False by (by rewrite Hdone). lia.
Qed.

Lemma filter_completed_split (cs : list Car) :
  (length (filter (λ c, completed c = false) cs)
   + length (filter (λ c, completed c = true) cs) = length cs)%nat.
Proof.
  induction cs as [|c cs IH]; [done|].
  destruct (completed c) eqn:Hc.
  - rewrite filter_cons_False, filter_cons_True by (by rewrite Hc). simpl. lia.
  - rewrite filter_cons_True, filter_cons_False by (by rewrite Hc). simpl. lia.
Qed.

(** The traffic phase removes exactly the vehicles it completes, and scores
    one for each. *)
Lemma simulate_traffic_fleet (e : Env) :
  (∀ c, c ∈ cars e → completed c = false) →
  Z.of_nat (length (cars (simulate_traffic e))) + score (simulate_traffic e)
  = Z.of_nat (length (cars e)) + score e
  ∧ score e ≤ score (simulate_traffic e)
  ∧ ∀ c, c ∈ cars (simulate_traffic e) → completed c = false.
Proof.
  intros Hcs. destruct (simulate_traffic_spec e) as [Hcars _].
  assert (score (simulate_traffic e)
          = score e + Z.of_nat (length (filter (λ c, completed c = true)
                                               (moved_car (grid e) <$> cars e)))) as Hsc.
  { unfold simulate_traffic.
    pose proof (traffic_loop_score (grid e) (cars e) (score e) (congestion_penalty e) Hcs).
    by destruct (traffic_loop _ _ _ _) as [[moved sc] pen]. }
  pose proof (filter_completed_split (moved_car (grid e) <$> cars e)) as Hsplit.
  rewrite length_fmap in Hsplit. rewrite Hcars, Hsc.
  split; [lia|]. split; [lia|].
  intros c [Hc _]%list_elem_of_filter. done.
Qed.

End FleetFacts.

Section FleetInvariant.

Context {PQ : PriorityQueue} {RE : RandomEngine}.

Lemma spawn_from_fleet (bs : list Building) (cs : list Car) (rng : Rng) (i : nat) :
  kinds bs `sublist_of` intended_buildings →
  (∀ c, c ∈ cs → completed c = false) →
  (∀ b, b ∈ bs → max_cars b = 5 ∧ 0 ≤ cars_spawned b ≤ spawn_cap (b_type b, b_color b)) →
  let st' := spawn_from (bs, cs, rng) i in
  kinds st'.1.1 = kinds bs
  ∧ (∀ c, c ∈ st'.1.2 → completed c = false)
  ∧ (∀ b, b ∈ st'.1.1 →
       max_cars b = 5 ∧ 0 ≤ cars_spawned b ≤ spawn_cap (b_type b, b_color b))
  ∧ Z.of_nat (length st'.1.2) - total_spawned st'.1.1
    = Z.of_nat (length cs) - total_spawned bs.
Proof.
  intros Hk Hcs Hcap. unfold spawn_from.
  destruct (bs !! i) as [building|] eqn:Hi; [|done].
  destruct (bool_decide (b_type building = HOUSE)) eqn:Hhouse; simpl; [|done].
  destruct (Z.ltb_spec (cars_spawned building) (max_cars building)) as [Hlt|]; [|done].
  destruct (spawn_dist rng) as [roll rng'].
  destruct (negb _); [|done].
  destruct (matching_business _ bs) as [business|] eqn:Hm; [|done].
  apply matching_business_Some in Hm.
  pose proof (business_colour _ (elem_of_sublist _ _ _ Hm Hk)) as Hcol.
  apply bool_decide_eq_true in Hhouse.
  destruct (Hcap building) as (Hmax & Hlo & Hhi); [by eapply list_elem_of_lookup_2|].
  simpl. split; [|split; [|split]].
  - unfold kinds. rewrite list_fmap_insert. simpl. apply list_insert_id.
    rewrite list_lookup_fmap, Hi. done.
  - intros c [Hc| ->%list_elem_of_singleton]%elem_of_app; [by apply Hcs|done].
  - intros b [j Hj]%list_elem_of_lookup_1.
    apply list_lookup_insert_Some in Hj as [(-> & <- & _)|[_ Hj]].
    + simpl. split; [done|]. rewrite Hhouse.
      destruct Hcol as [-> | ->]; simpl; lia.
    + apply Hcap. by eapply list_elem_of_lookup_2.
  - rewrite length_app. simpl length.
    rewrite (total_spawned_insert bs i building); [lia|done|done].
Qed.

Lemma spawn_loop_fleet (idx : list nat) (bs : list Building) (cs : list Car) (rng : Rng) :
  kinds bs `sublist_of` intended_buildings →
  (∀ c, c ∈ cs → completed c = false) →
  (∀ b, b ∈ bs → max_cars b = 5 ∧ 0 ≤ cars_spawned b ≤ spawn_cap (b_type b, b_color b)) →
  let st' := foldl spawn_from (bs, cs, rng) idx in
  (∀ c, c ∈ st'.1.2 → completed c = false)
  ∧ (∀ b, b ∈ st'.1.1 →
       max_cars b = 5 ∧ 0 ≤ cars_spawned b ≤ spawn_cap (b_type b, b_color b))
  ∧ Z.of_nat (length st'.1.2) - total_spawned st'.1.1
    = Z.of_nat (length cs) - total_spawned bs.
Proof.
  revert bs cs rng. induction idx as [|i idx IH]; intros bs cs rng Hk Hcs Hcap;
    cbn [foldl].
  - done.
  - destruct (spawn_from_fleet bs cs rng i Hk Hcs Hcap) as (Hk1 & Hcs1 & Hcap1 & Hn1).
    destruct (spawn_from (bs, cs, rng) i) as [[bs1 cs1] rng1]. cbn [fst snd] in *.
    destruct (IH bs1 cs1 rng1) as (Hcs2 & Hcap2 & Hn2); try done.
    { by rewrite Hk1. }
    split; [done|]. split; [done|]. lia.
Qed.

Lemma spawn_cars_fleet (e : Env) (rng : Rng) :
  kinds (buildings e) `sublist_of` intended_buildings →
  (∀ c, c ∈ cars e → completed c = false) →
  (∀ b, b ∈ buildings e →
     max_cars b = 5 ∧ 0 ≤ cars_spawned b ≤ spawn_cap (b_type b, b_color b)) →
  let e' := (spawn_cars e rng).1 in
  (∀ c, c ∈ cars e' → completed c = false)
  ∧ (∀ b, b ∈ buildings e' →
       max_cars b = 5 ∧ 0 ≤ cars_spawned b ≤ spawn_cap (b_type b, b_color b))
  ∧ Z.of_nat (length (cars e')) - total_spawned (buildings e')
    = Z.of_nat (length (cars e)) - total_spawned (buildings e).
Proof.
  intros Hk Hcs Hcap. unfold spawn_cars.
  destruct (Z.rem (current_step e) 5 =? 0); [|done].
  pose proof (spawn_loop_fleet (seq 0 (length (buildings e))) (buildings e) (cars e) rng
                Hk Hcs Hcap) as H.
  by destruct (foldl _ _ _) as [[bs cs] rng'].
Qed.

(** With at most ten vehicles about, the termination evaluator looks at the
    step counter only. *)
Lemma check_game_over_small_fleet (e : Env) :
  (length (cars e) ≤ 10)%nat → check_game_over e = (MAX_STEPS <=? current_step e).
Proof.
  intros Hlen. unfold check_game_over. rewrite count_stuck_spec.
  pose proof (length_filter (λ c, 20 < stuck_time c) (cars e)) as Hf.
  unfold stuck_over_20.
  destruct (Z.ltb_spec 10 (Z.of_nat (length (filter (λ c, 20 < stuck_time c) (cars e)))));
    [lia|].
  destruct (Z.ltb_spec 15 (Z.of_nat (length (cars e)))); [lia|].
  rewrite andb_false_r. by destruct (MAX_STEPS <=? current_step e).
Qed.

Lemma fleet_size (e : Env) :
  0 ≤ score e →
  Z.of_nat (length (cars e)) + score e = total_spawned (buildings e) →
  (∀ b, b ∈ buildings e →
     max_cars b = 5 ∧ 0 ≤ cars_spawned b ≤ spawn_cap (b_type b, b_color b)) →
  kinds (buildings e) `sublist_of` intended_buildings →
  (length (cars e) ≤ 10)%nat ∧ score e ≤ 10.
Proof.
  intros Hsc Htot Hcap Hk.
  pose proof (total_spawned_bound (buildings e)
                (λ b Hb, proj2 (proj2 (Hcap b Hb))) Hk).
  lia.
Qed.

Lemma apply_action_fields (e : Env) (action : list Z) :
  cars (apply_action e action) = cars e
  ∧ buildings (apply_action e action) = buildings e
  ∧ score (apply_action e action) = score e
  ∧ current_step (apply_action e action) = current_step e + 1
  ∧ game_over (apply_action e action) = game_over e
  ∧ congestion_penalty (apply_action e action) = congestion_penalty e.
Proof.
  unfold apply_action. destruct (_ <? 6); [|done].
  destruct (execute_action_shape (advance_step e) (default 0 (action !! 0%nat))
              (default 0 (action !! 1%nat)) (default 0 (action !! 2%nat)))
    as (-> & -> & -> & -> & -> & -> & _).
  done.
Qed.

Lemma step_fleet_ok (e : Env) (rng : Rng) (action : list Z) :
  env_ok e → fleet_ok e → fleet_ok (step e rng action).1.1.
Proof.
  intros Hok Hfleet. unfold step.
  destruct (game_over e) eqn:Hgo; simpl; [done|].
  destruct (negb _); [done|].
  destruct Hfleet as [Hact Hsc Htot Hcap [Hrange Hflag]].
  destruct (apply_action_fields e action) as (Ac & Ab & As & At & Ag & _).
  set (e1 := apply_action e action) in *.
  assert (∀ c, c ∈ cars e1 → completed c = false) as Hact1 by (by rewrite Ac).
  destruct (simulate_traffic_fleet e1 Hact1) as (Htot2 & Hsc2 & Hact2).
  destruct (simulate_traffic_frame e1) as (_ & Tb & _ & Tt & _).
  set (e2 := simulate_traffic e1) in *.
  pose proof (ok_buildings e Hok) as Hk.
  destruct (spawn_cars_fleet e2 rng) as (Hact3 & Hcap3 & Htot3).
  { by rewrite Tb, Ab. }
  { done. }
  { by rewrite Tb, Ab. }
  destruct (spawn_cars_frame e2 rng) as (_ & _ & Ss & St & _).
  pose proof (spawn_cars_env_ok e2 rng
                (simulate_traffic_env_ok _ (apply_action_env_ok e action Hok))) as Hok3.
  destruct (spawn_cars e2 rng) as [e3 rng']. cbn [fst snd] in *.
  clearbody e1 e2. rewrite Ac in Htot2.
  assert (0 ≤ score e3) as Hsc3 by lia.
  assert (Z.of_nat (length (cars e3)) + score e3 = total_spawned (buildings e3)) as Htot4.
  { rewrite Tb, Ab in Htot3. lia. }
  destruct (fleet_size e3 Hsc3 Htot4 Hcap3 (ok_buildings _ Hok3)) as [Hlen _].
  assert (current_step e ≠ 1000) as Hne.
  { intros Heq. apply Hflag in Heq. congruence. }
  unfold evaluate_termination, MAX_STEPS in *. split; simpl; try done.
  rewrite (check_game_over_small_fleet e3 Hlen). unfold MAX_STEPS.
  split; [lia|]. rewrite Z.leb_le. lia.
Qed.

End FleetInvariant.

Section FleetReachable.

Context {PQ : PriorityQueue} {RE : RandomEngine}.

Lemma place_buildings_fresh (t : TileType) (idx : list nat) (st : Env * Rng) :
  (∀ b, b ∈ buildings st.1 → cars_spawned b = 0 ∧ max_cars b = 5) →
  ∀ b, b ∈ buildings (foldl (place_building t) st idx).1 →
       cars_spawned b = 0 ∧ max_cars b = 5.
Proof.
  revert st. induction idx as [|i idx IH]; intros st Hb; cbn [foldl]; [done|].
  apply IH. destruct st as [e rng]. unfold place_building.
  destruct (find_empty_position _ _) as [pos rng']. case_decide; simpl in *; [|done].
  intros b [Hin| ->%list_elem_of_singleton]%elem_of_app; [by apply Hb|done].
Qed.

Lemma total_spawned_fresh (bs : list Building) :
  (∀ b, b ∈ bs → cars_spawned b = 0 ∧ max_cars b = 5) → total_spawned bs = 0.
Proof.
  induction bs as [|b bs IH]; intros Hb; simpl; [done|].
  destruct (Hb b ltac:(left)) as [-> _]. rewrite IH; [done|].
  intros b' Hin. apply Hb. by right.
Qed.

Lemma reset_fleet_ok (e : Env) (rng : Rng) : fleet_ok (reset e rng).1.1.
Proof.
  destruct (reset_fields e rng) as (Hcars & _ & Hscore & Hstep & Hgo & _).
  assert (∀ b, b ∈ buildings (reset e rng).1.1 → cars_spawned b = 0 ∧ max_cars b = 5)
    as Hfresh.
  { unfold reset, spawn_initial_buildings.
    set (e0 := mkEnv empty_grid [] [] (initial_resources (resources e)) 0 0 false 0).
    pose proof (place_buildings_fresh BUSINESS (seq 0 2)
                  (foldl (place_building HOUSE) (e0, rng) (seq 0 3))) as Hb.
    pose proof (place_buildings_fresh HOUSE (seq 0 3) (e0, rng)) as Hh.
    destruct (foldl (place_building BUSINESS) _ _) as [e1 rng']. simpl in *.
    apply Hb, Hh. intros b Hin. by apply elem_of_nil in Hin. }
  split.
  - rewrite Hcars. intros c Hc. by apply elem_of_nil in Hc.
  - lia.
  - rewrite Hcars, Hscore, (total_spawned_fresh _ Hfresh). done.
  - intros b Hb. destruct (Hfresh b Hb) as [-> ->].
    pose proof (spawn_cap_nonneg (b_type b, b_color b)). lia.
  - rewrite Hstep, Hgo. unfold MAX_STEPS. split; [lia|]. split; [done|lia].
Qed.

Lemma execute_action_fleet_ok (e : Env) (action_type x y : Z) :
  fleet_ok e → fleet_ok (execute_action e action_type x y).2.
Proof.
  intros [Hact Hsc Htot Hcap Hclock].
  destruct (execute_action_shape e action_type x y) as (H1 & H2 & H3 & H4 & H5 & _).
  split; by rewrite ?H1, ?H2, ?H3, ?H4, ?H5.
Qed.

Lemma reachable_fleet_ok (e : Env) (rng : Rng) : reachable e rng → fleet_ok e.
Proof.
  induction 1 as [rng|e rng Hreach IH|e rng action Hreach IH|e rng kind x y Hreach IH].
  - split; simpl; try done; unfold MAX_STEPS;
      try (intros x Hx; by apply elem_of_nil in Hx); try lia;
      try (split; [lia|]; split; [done|lia]).
  - apply reset_fleet_ok.
  - apply step_fleet_ok; [by apply (reachable_env_ok e rng)|done].
  - by apply execute_action_fleet_ok.
Qed.

(** In every reachable state the active vehicles and the score add up to
    the vehicles the houses have sent out; no house has sent out more than
    five; so at most ten vehicles are ever active and the score never
    passes ten. *)
Theorem fleet_is_accounted_for (e : Env) (rng : Rng) :
  reachable e rng →
  Z.of_nat (length (cars e)) + score e = total_spawned (buildings e)
  ∧ (∀ b, b ∈ buildings e → 0 ≤ cars_spawned b ≤ 5 ∧ max_cars b = 5)
  ∧ (length (cars e) ≤ 10)%nat
  ∧ 0 ≤ score e ≤ 10.
Proof.
  intros Hreach. pose proof (reachable_env_ok e rng Hreach) as Hok.
  destruct (reachable_fleet_ok e rng Hreach) as [Hact Hsc Htot Hcap Hclock].
  destruct (fleet_size e Hsc Htot Hcap (ok_buildings e Hok)) as [Hlen Hscore].
  split; [done|]. split; [|split; [done|lia]].
  intros b Hb. destruct (Hcap b Hb) as (Hmax & Hlo & Hhi). split; [|done].
  destruct (b_type b), (b_color b); simpl in Hhi; lia.
Qed.

(** In every reachable state the stuck-vehicle and the out-of-resources
    conditions of the termination evaluator are false, since there are never
    more than ten vehicles; the evaluator answers by the step counter alone,
    the counter stays between 0 and 1000, and the terminal flag is set
    exactly when the counter is 1000. *)
Theorem only_the_horizon_ends_an_episode (e : Env) (rng : Rng) :
  reachable e rng →
  check_game_over e = (1000 <=? current_step e)
  ∧ stuck_over_20 (cars e) ≤ 10
  ∧ (length (cars e) ≤ 15)%nat
  ∧ 0 ≤ current_step e ≤ 1000
  ∧ (game_over e = true ↔ current_step e = 1000).
Proof.
  intros Hreach. pose proof (reachable_env_ok e rng Hreach) as Hok.
  destruct (reachable_fleet_ok e rng Hreach) as [Hact Hsc Htot Hcap Hclock].
  destruct (fleet_size e Hsc Htot Hcap (ok_buildings e Hok)) as [Hlen _].
  split; [by apply check_game_over_small_fleet|].
  pose proof (length_filter (λ c, 20 < stuck_time c) (cars e)).
  unfold stuck_over_20, MAX_STEPS in *. split; [lia|]. split; [lia|]. done.
Qed.

Lemma step_clock (e : Env) (rng : Rng) (action : list Z) :
  reachable e rng → length action = 3%nat →
  current_step (step e rng action).1.1 = Z.min (current_step e + 1) 1000.
Proof.
  intros Hreach Hlen.
  destruct (reachable_fleet_ok e rng Hreach) as [_ _ _ _ [Hrange Hflag]].
  unfold step, MAX_STEPS in *. rewrite Hlen. simpl. rewrite orb_false_r.
  destruct (game_over e) eqn:Hgo.
  - simpl. assert (current_step e = 1000) by by apply Hflag. lia.
  - assert (current_step e ≠ 1000) by (intros Heq; apply Hflag in Heq; done).
    destruct (apply_action_fields e action) as (_ & _ & _ & At & _).
    destruct (simulate_traffic_frame (apply_action e action)) as (_ & _ & _ & Tt & _).
    destruct (spawn_cars_frame (simulate_traffic (apply_action e action)) rng)
      as (_ & _ & _ & St & _).
    destruct (spawn_cars _ _) as [e3 rng']. simpl in *. lia.
Qed.

Lemma run_steps_reachable (s : Env * Rng) (actions : list (list Z)) :
  reachable s.1 s.2 → reachable (run_steps s actions).1 (run_steps s actions).2.
Proof.
  revert s. induction actions as [|a actions IH]; intros s Hs; [done|].
  unfold run_steps. cbn [foldl]. apply IH. simpl. by apply reachable_step.
Qed.

Lemma run_steps_clock (s : Env * Rng) (actions : list (list Z)) :
  reachable s.1 s.2 → Forall (λ action, length action = 3%nat) actions →
  current_step (run_steps s actions).1
  = Z.min (current_step s.1 + Z.of_nat (length actions)) 1000.
Proof.
  revert s. induction actions as [|a actions IH]; intros s Hs Hlen.
  - destruct (reachable_fleet_ok _ _ Hs) as [_ _ _ _ [Hrange _]].
    unfold MAX_STEPS in *. simpl. lia.
  - apply Forall_cons in Hlen as [Ha Hlen].
    unfold run_steps. cbn [foldl]. fold (run_steps (step s.1 s.2 a).1 actions).
    rewrite IH; [|by apply reachable_step|done].
    simpl fst. rewrite (step_clock _ _ _ Hs Ha). simpl length. lia.
Qed.

(** An episode lasts exactly 1000 steps: after a reset and any [n] steps
    with three-element actions, whatever they are, the step counter is the
    smaller of [n] and 1000, and the episode is over if and only if [n] is
    at least 1000. *)
Theorem episode_lasts_1000_steps (e : Env) (rng : Rng) (actions : list (list Z)) :
  reachable e rng → Forall (λ action, length action = 3%nat) actions →
  let s := run_steps (reset e rng).1 actions in
  current_step s.1 = Z.min (Z.of_nat (length actions)) 1000
  ∧ (game_over s.1 = true ↔ 1000 ≤ Z.of_nat (length actions)).
Proof.
  intros Hreach Hlen s.
  assert (reachable (reset e rng).1.1 (reset e rng).1.2) as Hreset
    by (by apply reachable_reset).
  pose proof (run_steps_clock _ actions Hreset Hlen) as Hclock.
  destruct (reset_fields e rng) as (_ & _ & _ & Hstep & _).
  rewrite Hstep in Hclock. fold s in Hclock.
  split; [rewrite Hclock; lia|].
  destruct (reachable_fleet_ok _ _ (run_steps_reachable _ actions Hreset))
    as [_ _ _ _ [_ Hflag]].
  fold s in Hflag. rewrite Hflag. unfold MAX_STEPS. lia.
Qed.

End FleetReachable.

(** ** The further properties on concrete inputs *)

Lemma rectangular_demo_grid : rectangular demo_grid.
Proof.
  intros row Hrow. unfold demo_grid in Hrow.
  rewrite !elem_of_cons, elem_of_nil in Hrow.
  destruct Hrow as [-> | [-> | [-> | []]]]; reflexivity.
Qed.

Lemma find_path_result_is_walk_witness :
  let p := find_path (PQ := first_min_queue) (mkPosition 0 2) (mkPosition 2 2) demo_grid in
  p = []
  ∨ (head p = Some (mkPosition 0 2) ∧ last p = Some (mkPosition 2 2)
     ∧ stepwise_adjacent p ∧ Forall (open_cell demo_grid) (tail p)
     ∧ calculate_distance (mkPosition 0 2) (mkPosition 2 2) ≤ Z.of_nat (length p) - 1).
Proof.
  apply (find_path_result_is_walk (PQ := first_min_queue) pop_min_correct demo_grid
           (mkPosition 0 2) (mkPosition 2 2)).
  - exact rectangular_demo_grid.
  - discriminate.
Defined.

Lemma find_path_empty_iff_disconnected_witness :
  find_path (PQ := first_min_queue) (mkPosition 0 0) (mkPosition 1 1) demo_grid = []
  ↔ ¬ connected demo_grid (mkPosition 0 0) (mkPosition 1 1).
Proof.
  apply (find_path_empty_iff_disconnected (PQ := first_min_queue) pop_min_correct demo_grid
           (mkPosition 0 0) (mkPosition 1 1)).
  - exact rectangular_demo_grid.
  - split; [vm_compute; intuition discriminate|reflexivity].
Defined.

Lemma find_path_start_is_goal_cell_witness :
  find_path (PQ := first_min_queue) (mkPosition 1 1) (mkPosition 1 1) demo_grid
  = [mkPosition 1 1].
Proof.
  apply (find_path_start_is_goal_cell (PQ := first_min_queue) demo_grid (mkPosition 1 1)).
  exact pop_min_correct.
Defined.

Lemma place_then_remove_restores_state_witness :
  execute_action (execute_action new_env 1 3 4).2 5 3 4 = (true, new_env).
Proof.
  apply (place_then_remove_restores_state new_env (execute_action new_env 1 3 4).2 1 3 4).
  - exact grid_ok_empty_grid.
  - right. reflexivity.
  - vm_compute. reflexivity.
Defined.

Lemma remove_then_place_restores_state_witness :
  let e := (execute_action new_env 0 3 4).2 in
  execute_action (execute_action e 5 3 4).2 0 3 4 = (true, e).
Proof.
  intros e.
  apply (remove_then_place_restores_state e (execute_action e 5 3 4).2 3 4).
  - exact (ok_grid _ (execute_action_env_ok new_env 0 3 4 new_env_ok)).
  - exact (ok_ledger _ (execute_action_env_ok new_env 0 3 4 new_env_ok)).
  - vm_compute. reflexivity.
Defined.

Lemma ledger_balances_grid_witness :
  ledger_balanced demo_state.1
  ∧ 0 ≤ resource_count (resources demo_state.1) "roads" ≤ 20
  ∧ 0 ≤ resource_count (resources demo_state.1) "motorways" ≤ 3
  ∧ 0 ≤ resource_count (resources demo_state.1) "bridges" ≤ 2
  ∧ 0 ≤ resource_count (resources demo_state.1) "roundabouts" ≤ 1
  ∧ 0 ≤ resource_count (resources demo_state.1) "traffic_lights" ≤ 2.
Proof.
  exact (ledger_balances_grid (PQ := first_min_queue) (RE := counter_engine)
           demo_state.1 demo_state.2 demo_state_reachable).
Defined.

Lemma fleet_is_accounted_for_witness :
  Z.of_nat (length (cars demo_state.1)) + score demo_state.1
  = total_spawned (buildings demo_state.1)
  ∧ (∀ b, b ∈ buildings demo_state.1 → 0 ≤ cars_spawned b ≤ 5 ∧ max_cars b = 5)
  ∧ (length (cars demo_state.1) ≤ 10)%nat
  ∧ 0 ≤ score demo_state.1 ≤ 10.
Proof.
  exact (fleet_is_accounted_for (PQ := first_min_queue) (RE := counter_engine)
           demo_state.1 demo_state.2 demo_state_reachable).
Defined.

Lemma only_the_horizon_ends_an_episode_witness :
  check_game_over demo_state.1 = (1000 <=? current_step demo_state.1)
  ∧ stuck_over_20 (cars demo_state.1) ≤ 10
  ∧ (length (cars demo_state.1) ≤ 15)%nat
  ∧ 0 ≤ current_step demo_state.1 ≤ 1000
  ∧ (game_over demo_state.1 = true ↔ current_step demo_state.1 = 1000).
Proof.
  exact (only_the_horizon_ends_an_episode (PQ := first_min_queue) (RE := counter_engine)
           demo_state.1 demo_state.2 demo_state_reachable).
Defined.

Lemma episode_lasts_1000_steps_witness :
  let s := run_steps (PQ := first_min_queue) (RE := counter_engine)
             (reset (RE := counter_engine) new_env 0%nat).1 [[6; 0; 0]; [0; 3; 4]] in
  current_step s.1 = Z.min 2 1000 ∧ (game_over s.1 = true ↔ 1000 ≤ 2).
Proof.
  apply (episode_lasts_1000_steps (PQ := first_min_queue) (RE := counter_engine)
           new_env 0%nat [[6; 0; 0]; [0; 3; 4]]).
  - exact (reachable_new (PQ := first_min_queue) (RE := counter_engine) 0%nat).
  - repeat (apply Forall_cons_2; [reflexivity|]). apply Forall_nil_2.
Defined.

(** ** Score and congestion penalty over a step *)

Section ScoreFacts.

Context {PQ : PriorityQueue} {RE : RandomEngine}.

Lemma move_car_gain (g : list (list TileType)) (c : Car) (sc pen : Z) :
  sc ≤ (move_car g c sc pen).1.2
  ∧ pen ≤ (move_car g c sc pen).2
  ∧ ((move_car g c sc pen).1.2 - sc) + ((move_car g c sc pen).2 - pen) ≤ 1.
Proof.
  unfold move_car. destruct (completed c); simpl; [lia|].
  destruct (match path c with [] => _ | _ :: _ => path c end) as [|p0 [|next_pos rest]];
    simpl; try lia.
  destruct (can_move_to g next_pos); simpl.
  - case_decide; simpl; lia.
  - destruct (10 <? stuck_time c + 1); simpl; lia.
Qed.

Lemma traffic_loop_gain (g : list (list TileType)) (cs : list Car) (sc pen : Z) :
  sc ≤ (traffic_loop g cs sc pen).1.2
  ∧ pen ≤ (traffic_loop g cs sc pen).2
  ∧ ((traffic_loop g cs sc pen).1.2 - sc) + ((traffic_loop g cs sc pen).2 - pen)
    ≤ Z.of_nat (length cs).
Proof.
  revert sc pen. induction cs as [|c cs IH]; intros sc pen; [simpl; lia|].
  cbn [traffic_loop].
  pose proof (move_car_gain g c sc pen) as Hc.
  destruct (move_car g c sc pen) as [[c1 sc1] pen1]. cbn [fst snd] in Hc.
  specialize (IH sc1 pen1).
  destruct (traffic_loop g cs sc1 pen1) as [[rest sc2] pen2]. cbn [fst snd] in *.
  simpl length. lia.
Qed.

(** A step never lowers the score or the congestion penalty, and the two
    together grow by at most one for each vehicle that was active when the
    step began: a vehicle arrives, or is penalised, or neither, never both. *)
Theorem step_score_and_penalty_grow (e : Env) (rng : Rng) (action : list Z) :
  let e' := (step e rng action).1.1 in
  score e ≤ score e'
  ∧ congestion_penalty e ≤ congestion_penalty e'
  ∧ (score e' - score e) + (congestion_penalty e' - congestion_penalty e)
    ≤ Z.of_nat (length (cars e)).
Proof.
  unfold step. destruct (game_over e || negb (length action =? 3)%nat); simpl; [lia|].
  destruct (apply_action_fields e action) as (Ac & _ & As & _ & _ & Ap).
  pose proof (traffic_loop_gain (grid (apply_action e action)) (cars (apply_action e action))
                (score (apply_action e action))
                (congestion_penalty (apply_action e action))) as Hgain.
  destruct (spawn_cars_frame (simulate_traffic (apply_action e action)) rng)
    as (_ & _ & Ss & _ & _ & Sp).
  destruct (spawn_cars _ _) as [e3 rng']. simpl in *.
  rewrite Ss, Sp. unfold simulate_traffic.
  destruct (traffic_loop _ _ _ _) as [[moved sc] pen]. simpl in *.
  rewrite Ac, As, Ap in Hgain. lia.
Qed.

End ScoreFacts.

(** ** Routes and destinations of the vehicles *)

Lemma matching_business_cons (col : CarColor) (b : Building) (bs : list Building) :
  matching_business col (b :: bs)
  = if decide (b_type b = BUSINESS ∧ b_color b = col) then Some b
    else matching_business col bs.
Proof.
  unfold matching_business. cbn [list_find]. case_decide; [done|].
  destruct (list_find _ bs) as [[i x]|]; done.
Qed.

Lemma business_position_sites (col : CarColor) (bs bs' : list Building) :
  sites bs = sites bs' → business_position col bs = business_position col bs'.
Proof.
  unfold business_position. revert bs'.
  induction bs as [|b bs IH]; intros [|b' bs'] Hs; try done.
  injection Hs as Hp Hc Ht Hs. rewrite !matching_business_cons, Hc, Ht.
  case_decide; simpl; [by rewrite Hp|]. by apply IH.
Qed.

Section RouteInvariant.

Context {PQ : PriorityQueue} {RE : RandomEngine} (Hpq : pq_correct PQ).

Lemma planned_route_walk (g : list (list TileType)) (c : Car) :
  route_ok c →
  planned_route g c = []
  ∨ (head (planned_route g c) = Some (position c)
     ∧ last (planned_route g c) = Some (destination c)
     ∧ stepwise_adjacent (planned_route g c)
     ∧ (path c = [] → Forall (open_cell g) (tail (planned_route g c)))).
Proof.
  intros Hroute. unfold planned_route, route_ok in *.
  destruct (path c) as [|p0 l] eqn:Hpath.
  - destruct (find_path_cases Hpq g (position c) (destination c))
      as [[-> _]|(l & -> & Hchain & _)]; [by left|].
    right.
    destruct (back_chain_path g _ _ l Hchain) as (Hhead & Hlast & Hadj & Hopen).
    rewrite reverse_snoc in Hhead, Hlast, Hadj.
    split; [done|]. split; [done|]. split; [done|]. intros _. simpl.
    by apply Forall_reverse.
  - right. destruct Hroute as [?|(Hhead & Hlast & Hadj)]; [done|].
    split; [done|]. split; [done|]. split; [done|]. intros [=].
Qed.

(** One pass of the mover's loop body over an active vehicle. *)
Lemma moved_car_cases (g : list (list TileType)) (c : Car) :
  completed c = false → route_ok c →
  let c' := moved_car g c in
  route_ok c' ∧ destination c' = destination c ∧ color c' = color c
  ∧ ((position c' = position c ∧ completed c' = false
      ∧ stuck_time c' = stuck_time c + (if stalls g c then 1 else 0))
     ∨ (adjacent4 (position c) (position c') ∧ can_move_to g (position c') = true
        ∧ stuck_time c' = 0 ∧ stalls g c = false
        ∧ (completed c' = true ↔ position c' = destination c))).
Proof.
  intros Hc Hroute. pose proof (planned_route_walk g c Hroute) as Hwalk.
  unfold moved_car, move_car, stalls. rewrite Hc.
  change (match path c with [] => find_path (position c) (destination c) g
                        | _ :: _ => path c end) with (planned_route g c).
  destruct (planned_route g c) as [|p0 [|next_pos rest]] eqn:Hplan; simpl.
  - split; [by left|]. do 2 (split; [done|]). left. split; [done|]. split; [done|]. lia.
  - split.
    { right. destruct Hwalk as [?|(Hhead & Hlast & Hadj & _)]; [done|]. done. }
    do 2 (split; [done|]). left. split; [done|]. split; [done|]. lia.
  - destruct Hwalk as [?|(Hhead & Hlast & Hadj & _)]; [done|].
    simpl in Hhead. injection Hhead as ->. destruct Hadj as [Hstep Hadj].
    rewrite last_cons_cons in Hlast.
    destruct (can_move_to g next_pos) eqn:Hmove; simpl.
    + case_decide as Hdest; simpl.
      * split; [right; by rewrite <- Hdest at 2|]. do 2 (split; [done|]).
        right. do 4 (split; [done|]). done.
      * split; [by right|]. do 2 (split; [done|]).
        right. do 4 (split; [done|]). split; [done|]. intros ->. done.
    + split.
      { right. cbn [path head]. split; [done|]. split; [by rewrite last_cons_cons|].
        by split. }
      do 2 (split; [done|]). left. done.
Qed.

Lemma open_cell_can_move_to (g : list (list TileType)) (p : Position) :
  grid_ok g → open_cell g p → can_move_to g p = true.
Proof.
  intros [Hrows Hcols] [[Hx Hy] Hpass]. unfold can_move_to.
  assert (is_valid_position p = true) as ->; [|done].
  apply is_valid_position_spec. unfold grid_rows, grid_cols in *.
  rewrite Hrows in Hy. destruct g as [|row g]; [simpl in Hx; lia|].
  apply Forall_cons in Hcols as [Hrow _]. simpl in Hx. rewrite Hrow in Hx.
  unfold GRID_WIDTH, GRID_HEIGHT in *. lia.
Qed.

Lemma simulate_traffic_traffic_ok (e : Env) :
  (∀ c, c ∈ cars e → completed c = false) →
  traffic_ok e → traffic_ok (simulate_traffic e).
Proof.
  intros Hact [Hroutes Hbound Hstuck Hpen].
  destruct (simulate_traffic_spec e) as [Hcars Hpen'].
  destruct (simulate_traffic_frame e) as (_ & Hb & _).
  assert (∀ c', c' ∈ cars (simulate_traffic e) →
            ∃ c, c ∈ cars e ∧ c' = moved_car (grid e) c) as Hfrom.
  { intros c'. rewrite Hcars. intros [_ Hin]%list_elem_of_filter.
    apply list_elem_of_fmap in Hin as (c & -> & Hin). by exists c. }
  split.
  - intros c' (c & Hin & ->)%Hfrom.
    by destruct (moved_car_cases (grid e) c (Hact c Hin) (Hroutes c Hin)) as [? _].
  - intros c' (c & Hin & ->)%Hfrom.
    destruct (moved_car_cases (grid e) c (Hact c Hin) (Hroutes c Hin))
      as (_ & -> & -> & _).
    rewrite Hb. by apply Hbound.
  - intros c' (c & Hin & ->)%Hfrom. specialize (Hstuck c Hin).
    destruct (moved_car_cases (grid e) c (Hact c Hin) (Hroutes c Hin))
      as (_ & _ & _ & [(_ & _ & ->)|(_ & _ & -> & _)]); [|lia].
    destruct (stalls _ _); lia.
  - rewrite Hpen'. lia.
Qed.

Lemma spawn_from_shape (bs : list Building) (cs : list Car) (rng : Rng) (i : nat) :
  let st' := spawn_from (bs, cs, rng) i in
  sites st'.1.1 = sites bs
  ∧ (st'.1.2 = cs
     ∨ ∃ house business,
         bs !! i = Some house ∧ b_type house = HOUSE
         ∧ cars_spawned house < max_cars house
         ∧ matching_business (b_color house) bs = Some business
         ∧ st'.1.2 = cs ++ [new_car (b_position house) (b_position business)
                                    (b_color house)]).
Proof.
  unfold spawn_from.
  destruct (bs !! i) as [building|] eqn:Hi; [|by split; [|left]].
  destruct (bool_decide (b_type building = HOUSE)) eqn:Hhouse; simpl; [|by split; [|left]].
  destruct (Z.ltb_spec (cars_spawned building) (max_cars building)) as [Hlt|];
    [|by split; [|left]].
  destruct (spawn_dist rng) as [roll rng'].
  destruct (negb _); [|by split; [|left]].
  destruct (matching_business _ bs) as [business|] eqn:Hm; [|by split; [|left]].
  apply bool_decide_eq_true in Hhouse. simpl. split.
  - unfold sites. rewrite list_fmap_insert. simpl. apply list_insert_id.
    by rewrite list_lookup_fmap, Hi.
  - right. by exists building, business.
Qed.

Lemma spawn_loop_traffic (idx : list nat) (bs : list Building) (cs : list Car) (rng : Rng) :
  (∀ c, c ∈ cs → route_ok c ∧ business_position (color c) bs = Some (destination c)
                 ∧ 0 ≤ stuck_time c) →
  let st' := foldl spawn_from (bs, cs, rng) idx in
  sites st'.1.1 = sites bs
  ∧ (∀ c, c ∈ st'.1.2 → route_ok c ∧ business_position (color c) bs = Some (destination c)
                         ∧ 0 ≤ stuck_time c).
Proof.
  revert bs cs rng. induction idx as [|i idx IH]; intros bs cs rng Hcs; cbn [foldl]; [done|].
  destruct (spawn_from_shape bs cs rng i) as [Hs Hnew].
  destruct (spawn_from (bs, cs, rng) i) as [[bs1 cs1] rng1]. cbn [fst snd] in *.
  assert (∀ c, c ∈ cs1 → route_ok c ∧ business_position (color c) bs = Some (destination c)
                          ∧ 0 ≤ stuck_time c) as Hcs1.
  { destruct Hnew as [->|(house & business & _ & _ & _ & Hm & ->)]; [done|].
    intros c [Hin| ->%list_elem_of_singleton]%elem_of_app; [by apply Hcs|].
    split; [by left|]. split; [|done]. unfold business_position. simpl. by rewrite Hm. }
  destruct (IH bs1 cs1 rng1) as [Hs2 Hcs2].
  { intros c Hin. rewrite (business_position_sites _ bs1 bs Hs). by apply Hcs1. }
  split; [by rewrite Hs2|].
  intros c Hin. rewrite <- (business_position_sites _ bs1 bs Hs). by apply Hcs2.
Qed.

Lemma spawn_cars_traffic_ok (e : Env) (rng : Rng) :
  traffic_ok e → traffic_ok (spawn_cars e rng).1.
Proof.
  intros [Hroutes Hbound Hstuck Hpen]. unfold spawn_cars.
  destruct (Z.rem (current_step e) 5 =? 0); [|done].
  destruct (spawn_loop_traffic (seq 0 (length (buildings e))) (buildings e) (cars e) rng)
    as [Hs Hcs]; [by intros c Hin; repeat split; auto|].
  destruct (foldl _ _ _) as [[bs cs] rng']. cbn [fst snd] in *.
  split; simpl; try done; try (intros c Hin; by apply Hcs).
  intros c Hin. rewrite (business_position_sites _ bs (buildings e) Hs). by apply Hcs.
Qed.

Lemma reachable_traffic_ok (e : Env) (rng : Rng) : reachable e rng → traffic_ok e.
Proof.
  induction 1 as [rng|e rng Hreach IH|e rng action Hreach IH|e rng kind x y Hreach IH].
  - split; simpl; try done; intros c Hc; by apply elem_of_nil in Hc.
  - destruct (reset_fields e rng) as (Hcars & _ & _ & _ & _ & Hpen).
    split; rewrite ?Hcars, ?Hpen; try done; intros c Hc; by apply elem_of_nil in Hc.
  - unfold step. destruct (game_over e || negb (length action =? 3)%nat); [done|].
    assert (traffic_ok (apply_action e action)) as Hok1.
    { destruct IH as [Hroutes Hbound Hstuck Hpen].
      destruct (apply_action_fields e action) as (Ac & Ab & _ & _ & _ & Ap).
      split; rewrite ?Ac, ?Ab, ?Ap; done. }
    assert (∀ c, c ∈ cars (apply_action e action) → completed c = false) as Hact.
    { destruct (apply_action_fields e action) as (-> & _).
      intros c Hc. by destruct (ok_cars e (reachable_env_ok e rng Hreach) c Hc). }
    pose proof (spawn_cars_traffic_ok _ rng (simulate_traffic_traffic_ok _ Hact Hok1)) as H.
    destruct (spawn_cars _ _) as [e3 rng']. simpl in *.
    destruct H as [Hroutes Hbound Hstuck Hpen]. by split.
  - destruct IH as [Hroutes Hbound Hstuck Hpen].
    destruct (execute_action_shape e kind x y) as (Ac & Ab & _ & _ & _ & Ap & _).
    split; rewrite ?Ac, ?Ab, ?Ap; done.
Qed.

(** Every active vehicle of a reachable state is bound for the first
    business of its own colour in the registry; the route it stores is
    empty, or leads from its position to that destination through
    4-adjacent cells; its stuck counter is not negative, and neither is the
    congestion penalty. *)
Theorem vehicles_hold_routes_to_their_business (e : Env) (rng : Rng) :
  reachable e rng →
  0 ≤ congestion_penalty e
  ∧ ∀ c, c ∈ cars e →
      business_position (color c) (buildings e) = Some (destination c)
      ∧ route_ok c ∧ 0 ≤ stuck_time c.
Proof.
  intros Hreach. destruct (reachable_traffic_ok e rng Hreach) as [Hroutes Hbound Hstuck Hpen].
  split; [done|]. intros c Hc. auto.
Qed.

(** On any 20 by 20 grid, the traffic mover leaves a vehicle of a reachable
    state where it is, or moves it by one cell, to a 4-adjacent cell that is
    passable on that grid, with the stuck counter back at 0; the vehicle is
    completed exactly when that cell is its destination.  A vehicle left in
    place stays active and its counter grows by one if it stalls. *)
Theorem vehicle_moves_one_cell (e : Env) (rng : Rng) (c : Car) (g : list (list TileType)) :
  reachable e rng → c ∈ cars e → grid_ok g →
  let c' := moved_car g c in
  destination c' = destination c ∧ color c' = color c
  ∧ ((position c' = position c ∧ completed c' = false
      ∧ stuck_time c' = stuck_time c + (if stalls g c then 1 else 0))
     ∨ (adjacent4 (position c) (position c') ∧ can_move_to g (position c') = true
        ∧ stuck_time c' = 0 ∧ stalls g c = false
        ∧ (completed c' = true ↔ position c' = destination c))).
Proof.
  intros Hreach Hc _.
  destruct (ok_cars e (reachable_env_ok e rng Hreach) c Hc) as [Hact _].
  destruct (moved_car_cases g c Hact (traffic_routes e (reachable_traffic_ok e rng Hreach) c Hc))
    as (_ & H).
  exact H.
Qed.

(** A vehicle that stores no route never stalls on the 20 by 20 grid: the
    route planned for it on the spot enters passable cells only, so the
    mover can take its first move.  Only a route stored on an earlier step
    can be blocked. *)
Theorem fresh_route_never_stalls (g : list (list TileType)) (c : Car) :
  grid_ok g → path c = [] → stalls g c = false ∧ penalised g c = false.
Proof.
  intros Hg Hpath.
  assert (stalls g c = false) as Hstalls; [|by unfold penalised; rewrite Hstalls].
  unfold stalls. destruct (completed c); [done|]. simpl.
  destruct (planned_route_walk g c (or_introl Hpath)) as [->|(_ & _ & _ & Hopen)]; [done|].
  specialize (Hopen Hpath).
  destruct (planned_route g c) as [|p0 [|next_pos rest]]; try done.
  simpl in Hopen. apply Forall_cons in Hopen as [Hnext _].
  by rewrite (open_cell_can_move_to g next_pos Hg Hnext).
Qed.

End RouteInvariant.

(** ** The buildings on the grid *)

Lemma tile_at_empty_grid (p : Position) : tile_at empty_grid p = EMPTY.
Proof.
  unfold tile_at, empty_grid.
  destruct (replicate (Z.to_nat GRID_HEIGHT) (replicate (Z.to_nat GRID_WIDTH) EMPTY)
              !! Z.to_nat (pos_y p)) as [row|] eqn:Hrow; [|done].
  apply lookup_replicate in Hrow as [-> _]. cbn [mbind option_bind].
  destruct (replicate (Z.to_nat GRID_WIDTH) EMPTY !! Z.to_nat (pos_x p)) as [t|] eqn:Ht;
    [|done].
  by apply lookup_replicate in Ht as [-> _].
Qed.

Lemma sites_elem_of (bs bs' : list Building) (b : Building) :
  sites bs' = sites bs → b ∈ bs' →
  ∃ b0, b0 ∈ bs ∧ b_position b0 = b_position b ∧ b_color b0 = b_color b
        ∧ b_type b0 = b_type b.
Proof.
  intros Hs Hin.
  assert ((b_position b, b_color b, b_type b) ∈ sites bs) as Hsite.
  { rewrite <- Hs. unfold sites. apply list_elem_of_fmap. by exists b. }
  apply list_elem_of_fmap in Hsite as (b0 & [= H1 H2 H3] & Hin0). by exists b0.
Qed.

Lemma sites_positions (bs : list Building) :
  b_position <$> bs = (λ s : Position * CarColor * TileType, s.1.1) <$> sites bs.
Proof. unfold sites. rewrite <- list_fmap_compose. done. Qed.

Lemma sites_ok_ext (e e' : Env) :
  grid e' = grid e → sites (buildings e') = sites (buildings e) →
  sites_ok e → sites_ok e'.
Proof.
  intros Hg Hs [Htiles Hapart Hall]. split.
  - intros b (b0 & Hin & Hp & _ & Ht)%(sites_elem_of (buildings e)); [|done].
    rewrite Hg, <- Hp, <- Ht. by apply Htiles.
  - rewrite sites_positions, Hs, <- sites_positions. done.
  - intros p Hp Htile. rewrite Hg in Htile.
    destruct (Hall p Hp Htile) as (b & Hin & Hb).
    destruct (sites_elem_of (buildings e') (buildings e) b) as (b' & Hin' & Hp' & _);
      [done|done|].
    exists b'. split; [done|]. congruence.
Qed.

Lemma execute_action_sites_ok (e : Env) (action_type x y : Z) :
  grid_ok (grid e) → sites_ok e → sites_ok (execute_action e action_type x y).2.
Proof.
  intros Hg Hok.
  destruct (execute_action_shape e action_type x y)
    as (_ & Hb & _ & _ & _ & _ & [Hgrid|(Hp & Hold & t & Ht1 & Ht2 & Hgrid)]).
  { apply (sites_ok_ext e); [done|by rewrite Hb|done]. }
  destruct Hok as [Htiles Hapart Hall]. split; rewrite ?Hb, ?Hgrid.
  - intros b Hin. destruct (Htiles b Hin) as (Hv & Hkind & Htile).
    do 2 (split; [done|]). rewrite tile_at_set_tile_other; [done..|].
    intros Heq. rewrite Heq, Htile in Hold.
    destruct Hkind as [Hk|Hk]; rewrite Hk in Hold; by destruct Hold as [?|[?|?]].
  - done.
  - intros p Hv Htile. apply Hall; [done|].
    destruct (decide (p = mkPosition x y)) as [->|Hne].
    + rewrite (tile_at_set_tile _ _ _ Hg Hp) in Htile. by destruct Htile.
    + by rewrite tile_at_set_tile_other in Htile.
Qed.

Section SiteInvariant.

Context {PQ : PriorityQueue} {RE : RandomEngine} (Hrange : engine_in_range RE).

Lemma find_empty_loop_spec (attempts : nat) (g : list (list TileType)) (rng : Rng) :
  let pos := (find_empty_loop attempts g rng).1 in
  pos = mkPosition (-1) (-1) ∨ (is_valid_position pos = true ∧ tile_at g pos = EMPTY).
Proof.
  revert rng. induction attempts as [|n IH]; intros rng; simpl; [by left|].
  pose proof (Hrange rng) as [Hx _].
  destruct (position_dist_x rng) as [x rng1]. simpl in Hx.
  pose proof (Hrange rng1) as [_ Hy].
  destruct (position_dist_y rng1) as [y rng2]. simpl in Hy.
  case_decide as Hempty; simpl; [|apply IH].
  right. split; [|done]. by apply is_valid_position_spec.
Qed.

Lemma place_building_sites_ok (t : TileType) (st : Env * Rng) (i : nat) :
  t = HOUSE ∨ t = BUSINESS → grid_ok (grid st.1) → sites_ok st.1 →
  grid_ok (grid (place_building t st i).1) ∧ sites_ok (place_building t st i).1.
Proof.
  destruct st as [e rng]. intros Ht Hg [Htiles Hapart Hall]. unfold place_building.
  pose proof (find_empty_loop_spec 100 (grid e) rng) as Hpos.
  unfold find_empty_position. destruct (find_empty_loop 100 (grid e) rng) as [pos rng'].
  simpl in *. case_decide as Hfound; simpl; [|by split].
  destruct Hpos as [->|[Hv Hempty]]; [done|].
  split; [by apply grid_ok_set_tile|]. split; simpl.
  - intros b [Hin| ->%list_elem_of_singleton]%elem_of_app.
    + destruct (Htiles b Hin) as (Hvb & Hkind & Htile).
      do 2 (split; [done|]). rewrite tile_at_set_tile_other; [done..|].
      intros ->. rewrite Hempty in Htile. by destruct Hkind as [Hk|Hk]; rewrite Hk in Htile.
    + simpl. do 2 (split; [done|]). by apply tile_at_set_tile.
  - rewrite fmap_app. apply NoDup_app. split; [done|]. split; [|apply NoDup_singleton].
    intros p (b & -> & Hin)%list_elem_of_fmap Heq%list_elem_of_singleton.
    destruct (Htiles b Hin) as (_ & Hkind & Htile). simpl in Heq.
    rewrite Heq, Hempty in Htile. by destruct Hkind as [Hk|Hk]; rewrite Hk in Htile.
  - intros p Hp Htile. destruct (decide (p = pos)) as [->|Hne].
    + eexists. split; [apply elem_of_app; right; by apply list_elem_of_singleton|done].
    + rewrite tile_at_set_tile_other in Htile by done.
      destruct (Hall p Hp Htile) as (b & Hin & Hb).
      exists b. split; [|done]. apply elem_of_app. by left.
Qed.

Lemma place_buildings_sites_ok (t : TileType) (idx : list nat) (st : Env * Rng) :
  t = HOUSE ∨ t = BUSINESS → grid_ok (grid st.1) → sites_ok st.1 →
  grid_ok (grid (foldl (place_building t) st idx).1)
  ∧ sites_ok (foldl (place_building t) st idx).1.
Proof.
  intros Ht. revert st. induction idx as [|i idx IH]; intros st Hg Hok; cbn [foldl]; [done|].
  destruct (place_building_sites_ok t st i Ht Hg Hok) as [Hg1 Hok1]. by apply IH.
Qed.

Lemma reset_sites_ok (e : Env) (rng : Rng) : sites_ok (reset e rng).1.1.
Proof.
  unfold reset, spawn_initial_buildings.
  set (e0 := mkEnv empty_grid [] [] (initial_resources (resources e)) 0 0 false 0).
  assert (sites_ok e0) as Hok0.
  { split; simpl.
    - intros b Hb. by apply elem_of_nil in Hb.
    - apply NoDup_nil_2.
    - intros p _. rewrite tile_at_empty_grid. by intros [?|?]. }
  destruct (place_buildings_sites_ok HOUSE (seq 0 3) (e0, rng)) as [Hg1 Hok1];
    [by left|exact grid_ok_empty_grid|done|].
  destruct (place_buildings_sites_ok BUSINESS (seq 0 2)
              (foldl (place_building HOUSE) (e0, rng) (seq 0 3))) as [Hg2 Hok2];
    [by right|done|done|].
  by destruct (foldl (place_building BUSINESS) _ _) as [e1 rng'].
Qed.

Lemma spawn_loop_sites (idx : list nat) (bs : list Building) (cs : list Car) (rng : Rng) :
  sites (foldl spawn_from (bs, cs, rng) idx).1.1 = sites bs.
Proof.
  revert bs cs rng. induction idx as [|i idx IH]; intros bs cs rng; cbn [foldl]; [done|].
  destruct (spawn_from_shape bs cs rng i) as [Hs _].
  destruct (spawn_from (bs, cs, rng) i) as [[bs1 cs1] rng1]. cbn [fst snd] in *.
  by rewrite IH.
Qed.

Lemma step_sites (e : Env) (rng : Rng) (action : list Z) :
  sites (buildings (step e rng action).1.1) = sites (buildings e).
Proof.
  unfold step. destruct (game_over e || negb (length action =? 3)%nat); [done|].
  destruct (apply_action_fields e action) as (_ & Ab & _).
  destruct (simulate_traffic_frame (apply_action e action)) as (_ & Tb & _).
  rewrite <- Ab, <- Tb. unfold spawn_cars.
  destruct (Z.rem _ 5 =? 0); [|done].
  pose proof (spawn_loop_sites (seq 0 (length (buildings (simulate_traffic
                                                           (apply_action e action)))))
                (buildings (simulate_traffic (apply_action e action)))
                (cars (simulate_traffic (apply_action e action))) rng) as Hs.
  by destruct (foldl _ _ _) as [[bs cs] rng'].
Qed.

Lemma step_sites_ok (e : Env) (rng : Rng) (action : list Z) :
  grid_ok (grid e) → sites_ok e → sites_ok (step e rng action).1.1.
Proof.
  intros Hg Hok. pose proof (step_sites e rng action) as Hsites. revert Hsites.
  unfold step. destruct (game_over e || negb (length action =? 3)%nat); [done|].
  assert (sites_ok (apply_action e action)) as Hok1.
  { unfold apply_action. destruct (_ <? 6); [apply execute_action_sites_ok; [done|]|];
      by apply (sites_ok_ext e). }
  destruct (apply_action_fields e action) as (_ & Ab & _).
  destruct (simulate_traffic_frame (apply_action e action)) as (Tg & _).
  destruct (spawn_cars_frame (simulate_traffic (apply_action e action)) rng) as (Sg & _).
  destruct (spawn_cars _ _) as [e3 rng']. simpl in *. intros Hsites.
  apply (sites_ok_ext (apply_action e action)); simpl; [by rewrite Sg, Tg| |done].
  by rewrite Ab.
Qed.

Lemma reachable_sites_ok (e : Env) (rng : Rng) : reachable e rng → sites_ok e.
Proof.
  induction 1 as [rng|e rng Hreach IH|e rng action Hreach IH|e rng kind x y Hreach IH].
  - split; simpl.
    + intros b Hb. by apply elem_of_nil in Hb.
    + apply NoDup_nil_2.
    + intros p _. rewrite tile_at_empty_grid. by intros [?|?].
  - apply reset_sites_ok.
  - apply step_sites_ok; [|done]. apply (ok_grid e (reachable_env_ok e rng Hreach)).
  - apply execute_action_sites_ok; [|done].
    apply (ok_grid e (reachable_env_ok e rng Hreach)).
Qed.

(** When the position draws stay on the grid, as the distributions of the
    constructor make them, the registry and the grid of a reachable state
    agree: every building lies on the grid, on a tile of its own kind; no
    two buildings share a cell; and every house or business tile is the
    site of a registered building.  So no action ever builds over or
    removes a building. *)
Theorem buildings_stand_on_their_tiles (e : Env) (rng : Rng) :
  reachable e rng →
  (∀ b, b ∈ buildings e →
     is_valid_position (b_position b) = true
     ∧ (b_type b = HOUSE ∨ b_type b = BUSINESS)
     ∧ tile_at (grid e) (b_position b) = b_type b)
  ∧ NoDup (b_position <$> buildings e)
  ∧ (∀ p, is_valid_position p = true →
       tile_at (grid e) p = HOUSE ∨ tile_at (grid e) p = BUSINESS →
       ∃ b, b ∈ buildings e ∧ b_position b = p).
Proof.
  intros Hreach. by destruct (reachable_sites_ok e rng Hreach).
Qed.

End SiteInvariant.

(** ** The range of the observation *)

Lemma unit_quotient (n d : Z) :
  0 ≤ n ≤ d → 0 < d →
  (0 <= inject_Z n / inject_Z d)%Q ∧ (inject_Z n / inject_Z d <= 1)%Q.
Proof.
  intros Hn Hd. destruct d as [|d|d]; try lia.
  unfold Qle, Qdiv, Qmult, Qinv, inject_Z. simpl. lia.
Qed.

Lemma grid_layer_range (g : list (list TileType)) :
  Forall (λ q, (0 <= q)%Q ∧ (q <= 1)%Q) (grid_layer g).
Proof.
  unfold grid_layer. apply Forall_forall. intros q Hq.
  apply list_elem_of_bind in Hq as (y & Hq & _).
  apply list_elem_of_bind in Hq as (x & Hq & _).
  apply list_elem_of_singleton in Hq as ->.
  apply (unit_quotient _ 7); [|lia].
  destruct (tile_at g _); simpl; lia.
Qed.

Lemma count_car_nonneg (density : list (list Z)) (c : Car) :
  Forall (Forall (λ n, 0 ≤ n)) density → Forall (Forall (λ n, 0 ≤ n)) (count_car density c).
Proof.
  intros Hd. unfold count_car. destruct (_ && _); [|done].
  apply Forall_alter; [done|]. intros row _ Hrow.
  apply Forall_alter; [done|]. intros n _ Hn. lia.
Qed.

Lemma car_density_nonneg (cs : list Car) (x y : nat) : 0 ≤ density_at (car_density cs) x y.
Proof.
  assert (Forall (Forall (λ n, 0 ≤ n)) (car_density cs)) as Hd.
  { unfold car_density.
    assert (∀ d, Forall (Forall (λ n, 0 ≤ n)) d →
                 Forall (Forall (λ n, 0 ≤ n)) (foldl count_car d cs)) as Hfold.
    { induction cs as [|c cs IH]; intros d Hd; simpl; [done|].
      by apply IH, count_car_nonneg. }
    apply Hfold, Forall_replicate, Forall_replicate. lia. }
  unfold density_at. destruct (car_density cs !! y) as [row|] eqn:Hrow; simpl; [|lia].
  destruct (row !! x) as [n|] eqn:Hn; simpl; [|lia].
  rewrite Forall_lookup in Hd. specialize (Hd _ _ Hrow).
  rewrite Forall_lookup in Hd. by apply (Hd _ _ Hn).
Qed.

Lemma density_layer_range (cs : list Car) :
  Forall (λ q, (0 <= q)%Q ∧ (q <= 1)%Q) (density_layer cs).
Proof.
  unfold density_layer. apply Forall_forall. intros q Hq.
  apply list_elem_of_bind in Hq as (y & Hq & _).
  apply list_elem_of_bind in Hq as (x & Hq & _).
  apply list_elem_of_singleton in Hq as ->.
  split; [|apply Q.le_min_r].
  apply Q.min_glb; [|done].
  unfold Qle, Qdiv, Qmult, Qinv, inject_Z. simpl.
  pose proof (car_density_nonneg cs x y). lia.
Qed.

Section ObservationRange.

Context {PQ : PriorityQueue} {RE : RandomEngine}.

Lemma reachable_penalty_nonneg (e : Env) (rng : Rng) :
  reachable e rng → 0 ≤ congestion_penalty e.
Proof.
  induction 1 as [rng|e rng Hreach IH|e rng action Hreach IH|e rng kind x y Hreach IH].
  - done.
  - by destruct (reset_fields e rng) as (_ & _ & _ & _ & _ & ->).
  - unfold step. destruct (game_over e || negb (length action =? 3)%nat); [done|].
    destruct (apply_action_fields e action) as (_ & _ & _ & _ & _ & Ap).
    destruct (simulate_traffic_spec (apply_action e action)) as [_ Tp].
    destruct (spawn_cars_frame (simulate_traffic (apply_action e action)) rng)
      as (_ & _ & _ & _ & _ & Sp).
    destruct (spawn_cars _ _) as [e3 rng']. simpl in *. lia.
  - by destruct (execute_action_shape e kind x y) as (_ & _ & _ & _ & _ & -> & _).
Qed.

(** In every reachable state the observation exists and its entries are
    normalised: each of the 810 values is at least 0, and each but the
    congestion value (index 808), which grows without bound, is at most
    1. *)
Theorem observation_values_in_range (e : Env) (rng : Rng) :
  reachable e rng →
  ∃ obs, get_observation e = Some obs ∧ ∀ i q, obs !! i = Some q → value_in_range i q.
Proof.
  intros Hreach.
  pose proof (reachable_env_ok e rng Hreach) as Hok.
  pose proof (reachable_balanced e rng Hreach) as Hbal.
  destruct (reachable_fleet_ok e rng Hreach) as [_ Hsc Htot Hcap [Hclock _]].
  destruct (fleet_size e Hsc Htot Hcap (ok_buildings e Hok)) as [Hlen Hscore].
  pose proof (reachable_penalty_nonneg e rng Hreach) as Hpen.
  pose proof (count_tiles_nonneg ROAD (grid e)).
  pose proof (count_tiles_nonneg TRAFFIC_LIGHT (grid e)).
  pose proof (count_tiles_nonneg MOTORWAY (grid e)).
  pose proof (count_tiles_nonneg BRIDGE (grid e)).
  pose proof (count_tiles_nonneg ROUNDABOUT (grid e)).
  unfold ledger_balanced, resource_count in Hbal.
  pose proof (ok_ledger e Hok) as Hled.
  unfold get_observation, resource_layer.
  destruct (Hled "roads") as (n1 & R1 & ?); [apply in_resource_keys; tauto|].
  destruct (Hled "motorways") as (n2 & R2 & ?); [apply in_resource_keys; tauto|].
  destruct (Hled "bridges") as (n3 & R3 & ?); [apply in_resource_keys; tauto|].
  destruct (Hled "roundabouts") as (n4 & R4 & ?); [apply in_resource_keys; tauto|].
  destruct (Hled "traffic_lights") as (n5 & R5 & ?); [apply in_resource_keys; tauto|].
  destruct (Hled "upgrades") as (n6 & R6 & ?); [apply in_resource_keys; tauto|].
  rewrite R1, R2, R3, R4, R5, R6 in Hbal. simpl in Hbal.
  rewrite R1, R2, R3, R4, R5, R6. cbn [mbind option_bind].
  eexists. split; [reflexivity|].
  assert (Forall (λ q, (0 <= q)%Q ∧ (q <= 1)%Q)
            ((grid_layer (grid e) ++ density_layer (cars e))
             ++ [(inject_Z n1 / 20)%Q; (inject_Z n2 / 3)%Q; (inject_Z n3 / 2)%Q;
                 (inject_Z n4 / 1)%Q; (inject_Z n5 / 2)%Q; (inject_Z n6 / 1)%Q;
                 (inject_Z (score e) / 100)%Q;
                 (inject_Z (Z.of_nat (length (cars e))) / 50)%Q])) as Hfront.
  { apply Forall_app. split; [apply Forall_app; split;
                                [apply grid_layer_range|apply density_layer_range]|].
    repeat apply Forall_cons_2; try apply Forall_nil_2.
    - apply (unit_quotient _ 20); lia.
    - apply (unit_quotient _ 3); lia.
    - apply (unit_quotient _ 2); lia.
    - apply (unit_quotient _ 1); lia.
    - apply (unit_quotient _ 2); lia.
    - apply (unit_quotient _ 1); lia.
    - apply (unit_quotient _ 100); lia.
    - apply (unit_quotient _ 50); lia. }
  assert (length ((grid_layer (grid e) ++ density_layer (cars e))
             ++ [(inject_Z n1 / 20)%Q; (inject_Z n2 / 3)%Q; (inject_Z n3 / 2)%Q;
                 (inject_Z n4 / 1)%Q; (inject_Z n5 / 2)%Q; (inject_Z n6 / 1)%Q;
                 (inject_Z (score e) / 100)%Q;
                 (inject_Z (Z.of_nat (length (cars e))) / 50)%Q]) = 808%nat) as Hlen808.
  { rewrite !length_app, grid_layer_length, density_layer_length. reflexivity. }
  intros i q Hq.
  replace (grid_layer (grid e) ++ density_layer (cars e)
           ++ [(inject_Z n1 / 20)%Q; (inject_Z n2 / 3)%Q; (inject_Z n3 / 2)%Q;
               (inject_Z n4 / 1)%Q; (inject_Z n5 / 2)%Q; (inject_Z n6 / 1)%Q]
           ++ stats_layer e)
    with (((grid_layer (grid e) ++ density_layer (cars e))
           ++ [(inject_Z n1 / 20)%Q; (inject_Z n2 / 3)%Q; (inject_Z n3 / 2)%Q;
               (inject_Z n4 / 1)%Q; (inject_Z n5 / 2)%Q; (inject_Z n6 / 1)%Q;
               (inject_Z (score e) / 100)%Q;
               (inject_Z (Z.of_nat (length (cars e))) / 50)%Q])
          ++ [(inject_Z (congestion_penalty e) / 100)%Q;
              (inject_Z (current_step e) / inject_Z MAX_STEPS)%Q]) in Hq
    by (unfold stats_layer; by rewrite <- !app_assoc).
  apply lookup_app_Some in Hq as [Hq|[Hi Hq]].
  - rewrite Forall_lookup in Hfront. destruct (Hfront i q Hq). by split.
  - rewrite Hlen808 in Hi, Hq.
    destruct (i - 808)%nat as [|[|k]] eqn:Hk; simpl in Hq; try done.
    + injection Hq as <-. split; [|lia].
      unfold Qle, Qdiv, Qmult, Qinv, inject_Z. simpl. lia.
    + injection Hq as <-. unfold MAX_STEPS in *.
      destruct (unit_quotient (current_step e) 1000); [lia..|]. by split.
Qed.

End ObservationRange.

(** ** The training episode *)

Section DriverFacts.

Context {PQ : PriorityQueue} {RE : RandomEngine} {AG : RLAgent}.

Lemma episode_loop_finishes (should_close : nat → bool) (fuel k : nat)
    (e : Env) (rng : Rng) (agent : Agent) (observation : list Q) :
  (∀ a obs, length (get_action a obs).1 = 3%nat) →
  reachable e rng → current_step e = Z.of_nat k →
  (∀ j, (j < k)%nat → should_close j = false) →
  (1000 - k < fuel)%nat →
  ∃ e' rng' agent' n,
    episode_loop fuel should_close k e rng agent observation (Z.of_nat k)
    = Finished (e', rng', agent', Z.of_nat n)
    ∧ reachable e' rng' ∧ current_step e' = Z.of_nat n ∧ (n ≤ 1000)%nat
    ∧ (∀ j, (j < n)%nat → should_close j = false)
    ∧ ((n < 1000)%nat → should_close n = true).
Proof.
  intros Hagent. revert k e rng agent observation.
  induction fuel as [|fuel IH]; intros k e rng agent observation Hreach Hstep Hopen Hfuel;
    [lia|].
  destruct (reachable_fleet_ok e rng Hreach) as [_ _ _ _ [Hrange Hflag]].
  unfold MAX_STEPS in *. cbn [episode_loop]. unfold is_done.
  destruct (game_over e) eqn:Hgo; simpl.
  { exists e, rng, agent, k. split; [done|]. split; [done|]. split; [done|].
    assert (current_step e = 1000) by by apply Hflag.
    split; [lia|]. split; [done|]. lia. }
  destruct (should_close k) eqn:Hclose.
  { exists e, rng, agent, k. split; [done|]. split; [done|]. split; [done|].
    split; [lia|]. done. }
  assert (current_step e ≠ 1000) as Hne by (intros Heq; apply Hflag in Heq; done).
  specialize (Hagent agent observation).
  destruct (get_action agent observation) as [action agent']. simpl in Hagent.
  pose proof (step_clock e rng action Hreach Hagent) as Hclock.
  pose proof (reachable_step e rng action Hreach) as Hreach'.
  pose proof (step_observation e rng action) as Hobs.
  destruct (get_observation_length (step e rng action).1.1) as (obs & Hsome & _).
  { apply ok_ledger. by apply (reachable_env_ok _ _ Hreach'). }
  rewrite Hsome in Hobs.
  destruct (step e rng action) as [[e' rng'] o]. simpl in *. subst o.
  replace (Z.of_nat k + 1) with (Z.of_nat (S k)) by lia.
  apply IH; [done|lia| |lia].
  intros j Hj. destruct (decide (j = k)) as [->|]; [done|]. apply Hopen. lia.
Qed.

(** One training episode, run from any reachable state with an agent whose
    actions have three elements: the loop leaves after [n] iterations with
    [total_reward = n], where [n] is the index of the first test at which
    the window asks to close, and 1000 if it does not ask before.  No
    exception is thrown, the step counter ends at [n], and the score pushed
    to [scores] lies between 0 and 10.  So with the window left open, every
    episode of every such agent earns the same total reward of 1000. *)
Theorem training_episode_reward (should_close : nat → bool) (fuel : nat)
    (e : Env) (rng : Rng) (agent : Agent) :
  (∀ a obs, length (get_action a obs).1 = 3%nat) →
  reachable e rng → (1000 < fuel)%nat →
  ∃ e' rng' agent' n,
    run_episode fuel should_close e rng agent = Finished (e', rng', agent', Z.of_nat n)
    ∧ current_step e' = Z.of_nat n ∧ (n ≤ 1000)%nat
    ∧ (∀ j, (j < n)%nat → should_close j = false)
    ∧ ((n < 1000)%nat → should_close n = true)
    ∧ 0 ≤ score e' ≤ 10.
Proof.
  intros Hagent Hreach Hfuel. unfold run_episode.
  pose proof (reachable_reset e rng Hreach) as Hreset.
  pose proof (reset_observation e rng) as Hobs.
  destruct (get_observation_length (reset e rng).1.1) as (obs & Hsome & _).
  { apply ok_ledger. by apply (reachable_env_ok _ _ Hreset). }
  rewrite Hsome in Hobs.
  destruct (reset_fields e rng) as (_ & _ & _ & Hstep & _).
  destruct (reset e rng) as [[e0 rng0] o]. simpl in *. subst o.
  destruct (episode_loop_finishes should_close fuel 0 e0 rng0 agent obs Hagent Hreset)
    as (e' & rng' & agent' & n & Hrun & Hreach' & Hn & Hle & Hopen & Hclose);
    [done|lia|lia|].
  exists e', rng', agent', n. split; [done|].
  destruct (reachable_fleet_ok e' rng' Hreach') as [_ Hsc Htot Hcap _].
  destruct (fleet_size e' Hsc Htot Hcap
              (ok_buildings e' (reachable_env_ok e' rng' Hreach'))) as [_ Hscore].
  done.
Qed.

Lemma episode_loop_spins (should_close : nat → bool) (fuel k : nat)
    (e : Env) (rng : Rng) (agent : Agent) (observation : list Q) (total_reward : Z) :
  (∀ a obs, length (get_action a obs).1 ≠ 3%nat) →
  (∀ j, should_close j = false) →
  ledger_ok (resources e) → game_over e = false →
  episode_loop fuel should_close k e rng agent observation total_reward = OutOfFuel.
Proof.
  intros Hagent Hopen Hled Hgo.
  revert k agent observation total_reward.
  induction fuel as [|fuel IH]; intros k agent observation total_reward; [done|].
  cbn [episode_loop]. unfold is_done. rewrite Hgo, Hopen. simpl.
  specialize (Hagent agent observation).
  destruct (get_action agent observation) as [action agent']. simpl in Hagent.
  unfold step. rewrite Hgo. simpl.
  destruct (Nat.eqb_spec (length action) 3) as [|_]; [done|]. simpl.
  destruct (get_observation_length e Hled) as (obs & -> & _). apply IH.
Qed.

(** An agent whose actions never have three elements hangs the training
    loop: [step] returns at once without advancing the step counter, so with
    the window left open the loop condition never turns false, however many
    iterations are granted. *)
Theorem malformed_agent_never_finishes (should_close : nat → bool) (fuel : nat)
    (e : Env) (rng : Rng) (agent : Agent) :
  (∀ a obs, length (get_action a obs).1 ≠ 3%nat) →
  (∀ j, should_close j = false) →
  reachable e rng →
  run_episode fuel should_close e rng agent = OutOfFuel.
Proof.
  intros Hagent Hopen Hreach. unfold run_episode.
  pose proof (reachable_reset e rng Hreach) as Hreset.
  pose proof (reset_observation e rng) as Hobs.
  pose proof (ok_ledger _ (reachable_env_ok _ _ Hreset)) as Hled.
  destruct (get_observation_length (reset e rng).1.1 Hled) as (obs & Hsome & _).
  rewrite Hsome in Hobs.
  destruct (reset_fields e rng) as (_ & _ & _ & _ & Hgo & _).
  destruct (reset e rng) as [[e0 rng0] o]. simpl in *. subst o.
  by apply episode_loop_spins.
Qed.

End DriverFacts.

Lemma random_action_length {AE : AgentEngine} (rng : AgentRng) :
  length (random_action rng).1 = 3%nat.
Proof.
  unfold random_action. destruct (action_type_dist rng) as [a rng1].
  destruct (position_dist rng1) as [x rng2]. by destruct (position_dist rng2) as [y rng3].
Qed.

(** ** The status bars *)

Lemma loop_indices_length (bound : Z) : 0 ≤ bound → Z.of_nat (length (loop_indices bound)) = bound.
Proof. intros Hb. unfold loop_indices. rewrite length_fmap, length_seq. lia. Qed.

Section StatusBars.

Context {PQ : PriorityQueue} {RE : RandomEngine}.

(** In every reachable state [render_ui] finds each of its five resource
    keys, so throws nothing, and draws one bar for each unit in stock, the
    roads capped at ten, and one score bar for every five points: 20 quads
    at most, of which at most 2 of the 20 score bars the indicator
    provides for. *)
Theorem render_ui_draws_the_stock (e : Env) (rng : Rng) :
  reachable e rng →
  ∃ quads, render_ui (score e) (current_step e) (resources e) = Some quads
    ∧ Z.of_nat (length quads)
      = Z.min (resource_count (resources e) "roads") 10
        + resource_count (resources e) "motorways"
        + resource_count (resources e) "bridges"
        + resource_count (resources e) "roundabouts"
        + resource_count (resources e) "traffic_lights"
        + Z.quot (score e) 5
    ∧ Z.quot (score e) 5 ≤ 2
    ∧ (length quads ≤ 20)%nat.
Proof.
  intros Hreach.
  pose proof (reachable_env_ok e rng Hreach) as Hok.
  pose proof (reachable_balanced e rng Hreach) as Hbal.
  destruct (reachable_fleet_ok e rng Hreach) as [_ Hsc Htot Hcap _].
  destruct (fleet_size e Hsc Htot Hcap (ok_buildings e Hok)) as [_ Hscore].
  pose proof (count_tiles_nonneg ROAD (grid e)).
  pose proof (count_tiles_nonneg TRAFFIC_LIGHT (grid e)).
  pose proof (count_tiles_nonneg MOTORWAY (grid e)).
  pose proof (count_tiles_nonneg BRIDGE (grid e)).
  pose proof (count_tiles_nonneg ROUNDABOUT (grid e)).
  unfold ledger_balanced in Hbal. unfold resource_count in *.
  pose proof (ok_ledger e Hok) as Hled.
  destruct (Hled "roads") as (n1 & R1 & ?); [apply in_resource_keys; tauto|].
  destruct (Hled "motorways") as (n2 & R2 & ?); [apply in_resource_keys; tauto|].
  destruct (Hled "bridges") as (n3 & R3 & ?); [apply in_resource_keys; tauto|].
  destruct (Hled "roundabouts") as (n4 & R4 & ?); [apply in_resource_keys; tauto|].
  destruct (Hled "traffic_lights") as (n5 & R5 & ?); [apply in_resource_keys; tauto|].
  rewrite R1, R2, R3, R4, R5 in Hbal. simpl in Hbal.
  unfold render_ui, resource_bar_names. cbn [resource_bars].
  rewrite R1, R2, R3, R4, R5. cbn [mbind option_bind default].
  eexists. split; [reflexivity|].
  assert (0 ≤ Z.quot (score e) 5 ≤ 2) as Hq.
  { split; [apply Z.quot_pos; lia|]. apply Z.quot_le_upper_bound; lia. }
  assert (Z.of_nat (length (((ResourceBar 0 <$> loop_indices (Z.min n1 10))
             ++ (ResourceBar 1 <$> loop_indices (Z.min n2 10))
             ++ (ResourceBar 2 <$> loop_indices (Z.min n3 10))
             ++ (ResourceBar 3 <$> loop_indices (Z.min n4 10))
             ++ (ResourceBar 4 <$> loop_indices (Z.min n5 10)) ++ [])
            ++ (ScoreBar <$> loop_indices (Z.min (Z.quot (score e) 5) 20))))
          = Z.min n1 10 + n2 + n3 + n4 + n5 + Z.quot (score e) 5) as Hlen.
  { rewrite !length_app, !length_fmap. simpl length.
    rewrite !Nat2Z.inj_add, !loop_indices_length by lia. lia. }
  split; [exact Hlen|]. split; [lia|]. lia.
Qed.

End StatusBars.

(** ** Reset and the spawner *)

Lemma initial_resources_full (res : gmap string Z) :
  dom res = list_to_set resource_keys → initial_resources res = initial_resources ∅.
Proof.
  intros Hdom. apply map_eq. intros key.
  destruct (decide (key ∈ resource_keys)) as [Hkey|Hkey].
  - apply in_resource_keys in Hkey. unfold initial_resources.
    destruct Hkey as [-> | [-> | [-> | [-> | [-> | ->]]]]]; by simplify_map_eq.
  - assert (res !! key = None) as Hnone.
    { apply not_elem_of_dom. rewrite Hdom. by rewrite elem_of_list_to_set. }
    unfold initial_resources.
    rewrite !lookup_insert_ne, Hnone, lookup_empty;
      try (intros <-; apply Hkey, in_resource_keys; tauto).
    done.
Qed.

Section ResetAndSpawner.

Context {PQ : PriorityQueue} {RE : RandomEngine}.

(** [reset] forgets the history: from any reachable state it returns what
    it returns on a freshly constructed environment, for the same state of
    the random engine: state, engine and observation alike. *)
Theorem reset_forgets_history (e : Env) (rng0 rng : Rng) :
  reachable e rng0 → reset e rng = reset new_env rng.
Proof.
  intros Hreach. unfold reset.
  rewrite (initial_resources_full (resources e))
    by apply (ok_dom e (reachable_env_ok e rng0 Hreach)).
  rewrite (initial_resources_full (resources new_env)) by apply (ok_dom _ new_env_ok).
  done.
Qed.

Lemma spawn_loop_appends (idx : list nat) (bs : list Building) (cs : list Car) (r : Rng) :
  ∃ new, (foldl spawn_from (bs, cs, r) idx).1.2 = cs ++ new
         ∧ (length new ≤ length idx)%nat
         ∧ ∀ c, c ∈ new →
             (position c, color c, HOUSE) ∈ sites bs
             ∧ business_position (color c) bs = Some (destination c)
             ∧ c = new_car (position c) (destination c) (color c).
Proof.
  revert bs cs r. induction idx as [|i idx IH]; intros bs cs r; cbn [foldl].
  { exists []. split; [by rewrite app_nil_r|]. split; [done|].
    intros c Hc. by apply elem_of_nil in Hc. }
  destruct (spawn_from_shape bs cs r i) as [Hs Hnew].
  destruct (spawn_from (bs, cs, r) i) as [[bs1 cs1] r1]. cbn [fst snd] in *.
  destruct (IH bs1 cs1 r1) as (new & -> & Hlen & Hcs).
  assert (∀ c, c ∈ new →
            (position c, color c, HOUSE) ∈ sites bs
            ∧ business_position (color c) bs = Some (destination c)
            ∧ c = new_car (position c) (destination c) (color c)) as Hcs'.
  { intros c Hc. destruct (Hcs c Hc) as (H1 & H2 & H3).
    rewrite <- Hs, <- (business_position_sites _ bs1 bs Hs). done. }
  destruct Hnew as [->|(house & business & Hi & Hhouse & _ & Hm & ->)].
  - exists new. split; [done|]. split; [simpl; lia|done].
  - eexists (_ :: new). split; [by rewrite <- app_assoc|]. split; [simpl; lia|].
    intros c [->|Hc]%elem_of_cons; [|by apply Hcs'].
    simpl. split; [|split; [|done]].
    + unfold sites. apply list_elem_of_fmap. exists house.
      split; [by rewrite Hhouse|]. by eapply list_elem_of_lookup_2.
    + unfold business_position. by rewrite Hm.
Qed.

(** The spawner only appends: the vehicles already on the road stay as they
    are, in order.  Off the multiples of five of the step counter it
    changes nothing and draws nothing.  Each new vehicle stands on the cell
    of a registered house of its colour, is bound for the first business of
    that colour, and has no route, no stuck time and is not completed; and
    there are no more new vehicles than buildings. *)
Theorem spawn_cars_appends (e : Env) (rng : Rng) :
  ∃ new,
    cars (spawn_cars e rng).1 = cars e ++ new
    ∧ (length new ≤ length (buildings e))%nat
    ∧ (Z.rem (current_step e) 5 ≠ 0 → spawn_cars e rng = (e, rng))
    ∧ ∀ c, c ∈ new →
        (position c, color c, HOUSE) ∈ sites (buildings e)
        ∧ business_position (color c) (buildings e) = Some (destination c)
        ∧ c = new_car (position c) (destination c) (color c).
Proof.
  unfold spawn_cars. destruct (Z.eqb_spec (Z.rem (current_step e) 5) 0) as [Hz|Hnz].
  - destruct (spawn_loop_appends (seq 0 (length (buildings e))) (buildings e) (cars e) rng)
      as (new & Hnew & Hlen & Hcs).
    destruct (foldl _ _ _) as [[bs cs] rng']. simpl in *.
    exists new. rewrite length_seq in Hlen. done.
  - exists []. split; [by rewrite app_nil_r|]. split; [simpl; lia|]. split; [done|].
    intros c Hc. by apply elem_of_nil in Hc.
Qed.

End ResetAndSpawner.

(** ** A vehicle on an open road *)

Lemma stepwise_adjacent_take (l : list Position) (k : nat) :
  stepwise_adjacent l → stepwise_adjacent (take k l).
Proof.
  revert k. induction l as [|a l IH]; intros [|k] Hadj; try done.
  destruct l as [|b l]; [by destruct k|].
  destruct Hadj as [Hab Hadj]. specialize (IH k Hadj).
  destruct k as [|k]; [done|]. by split.
Qed.

Lemma route_prefix (g : list (list TileType)) (start goal : Position)
    (l : list Position) (j : nat) :
  route g start goal l → l !! j = Some goal → route g start goal (take (S j) l).
Proof.
  intros (Hhead & Hlast & Hadj & Hopen) Hj. split; [|split; [|split]].
  - by destruct l.
  - rewrite last_lookup, length_take.
    pose proof (lookup_lt_Some _ _ _ Hj) as Hlt.
    replace (Init.Nat.pred (S j `min` length l)) with j by lia.
    rewrite lookup_take_lt by lia. done.
  - by apply stepwise_adjacent_take.
  - by apply Forall_take.
Qed.

Section OpenRoad.

Context {PQ : PriorityQueue} (Hpq : pq_correct PQ).

(** The goal occurs in a shortest route at its end only. *)
Lemma find_path_goal_last (g : list (list TileType)) (start goal : Position) (j : nat) :
  connected g start goal →
  find_path start goal g !! j = Some goal → S j = length (find_path start goal g).
Proof.
  intros [l0 Hl0] Hj.
  assert (open_cell g start) as Hstart.
  { destruct Hl0 as (Hhead & _ & _ & Hopen). destruct l0 as [|p l0]; [done|].
    simpl in Hhead. injection Hhead as ->. by apply Forall_cons in Hopen as [? _]. }
  destruct (find_path_correct Hpq g start goal Hstart) as [[_ Hnone]|[Hroute Hmin]].
  { destruct (Hnone _ (route_reach g start goal l0 Hl0)). }
  pose proof (lookup_lt_Some _ _ _ Hj) as Hlt.
  pose proof (route_reach g start goal _ (route_prefix g start goal _ j Hroute Hj)) as Hreach.
  specialize (Hmin _ Hreach). rewrite length_take in Hmin. lia.
Qed.

Lemma moved_car_planned (g : list (list TileType)) (c : Car) :
  completed c = false → planned_route g c ≠ [] →
  moved_car g c
  = moved_car g (mkCar (position c) (destination c) (color c) (planned_route g c)
                       (stuck_time c) false).
Proof.
  intros Hc Hplan. unfold moved_car, move_car. rewrite Hc. simpl.
  change (match path c with [] => find_path (position c) (destination c) g
                        | _ :: _ => path c end) with (planned_route g c).
  by destruct (planned_route g c).
Qed.

Lemma drive_succ (g : list (list TileType)) (k : nat) (c : Car) :
  drive g (S k) c = drive g k (moved_car g c).
Proof. unfold drive. by rewrite Nat.iter_succ_r. Qed.

(** A vehicle follows a stored route whose cells are passable. *)
Lemma drive_stored (g : list (list TileType)) (rest : list Position) :
  ∀ (x : Position) (c : Car) (k : nat),
    completed c = false → path c = x :: rest →
    Forall (λ p, can_move_to g p = true) rest →
    last rest = Some (destination c) →
    (∀ j y, rest !! j = Some y → (S j < length rest)%nat → y ≠ destination c) →
    (k < length rest)%nat →
    rest !! k = Some (position (drive g (S k) c))
    ∧ completed (drive g (S k) c) = bool_decide (S k = length rest).
Proof.
  induction rest as [|y rest IH]; intros x c k Hc Hpath Hopen Hlast Huniq Hk;
    [simpl in Hk; lia|].
  apply Forall_cons in Hopen as [Hy Hopen].
  rewrite drive_succ.
  assert (moved_car g c
          = mkCar y (destination c) (color c) (y :: rest) 0
                  (bool_decide (y = destination c))) as Hmoved.
  { unfold moved_car, move_car. rewrite Hc, Hpath, Hy.
    case_decide; simpl; [by rewrite bool_decide_eq_true_2|by rewrite bool_decide_eq_false_2]. }
  rewrite Hmoved. clear Hmoved.
  destruct rest as [|z rest].
  - simpl in Hlast. injection Hlast as Hlast. simpl in Hk.
    assert (k = 0)%nat as -> by lia.
    unfold drive. simpl. by rewrite bool_decide_eq_true_2.
  - assert (y ≠ destination c) as Hne by (apply (Huniq 0%nat); [done|simpl; lia]).
    rewrite (bool_decide_eq_false_2 _ Hne).
    destruct k as [|k].
    + unfold drive. simpl. done.
    + rewrite last_cons_cons in Hlast. simpl in Hk.
      assert (k < length (z :: rest))%nat as Hk' by (simpl; lia).
      assert (∀ j w, (z :: rest) !! j = Some w → (S j < length (z :: rest))%nat →
                     w ≠ destination c) as Huniq'.
      { intros j w Hj Hlt. apply (Huniq (S j)); [done|simpl in *; lia]. }
      destruct (IH y (mkCar y (destination c) (color c) (y :: z :: rest) 0 false) k
                  eq_refl eq_refl Hopen Hlast Huniq' Hk') as [Hpos Hdone].
      split; [exact Hpos|]. rewrite Hdone. apply bool_decide_ext. simpl. lia.
Qed.

(** On a 20 by 20 grid that stays as it is, a vehicle without a stored
    route whose destination can be reached, and is not where it stands,
    travels the route [find_path] plans for it: after [k] passes of the
    mover it is on the [k]-th cell of the route, and it is completed after
    exactly as many passes as the route has moves, no earlier; no route to
    the destination has fewer moves. *)
Theorem vehicle_arrives_by_the_shortest_route (g : list (list TileType)) (c : Car) :
  grid_ok g → completed c = false → path c = [] →
  position c ≠ destination c → connected g (position c) (destination c) →
  let l := find_path (position c) (destination c) g in
  let n := (length l - 1)%nat in
  (∀ l', route g (position c) (destination c) l' → (n ≤ length l' - 1)%nat)
  ∧ ∀ k, (k ≤ n)%nat →
         l !! k = Some (position (drive g k c))
         ∧ completed (drive g k c) = bool_decide (k = n).
Proof.
  intros Hg Hc Hpath Hne Hconn l n.
  assert (open_cell g (position c)) as Hstart.
  { destruct Hconn as (l0 & Hhead & _ & _ & Hopen). destruct l0 as [|p l0]; [done|].
    simpl in Hhead. injection Hhead as ->. by apply Forall_cons in Hopen as [? _]. }
  destruct (find_path_correct Hpq g (position c) (destination c) Hstart)
    as [[_ Hnone]|[Hroute Hmin]].
  { destruct Hconn as [l0 Hl0]. destruct (Hnone _ (route_reach g _ _ l0 Hl0)). }
  fold l in Hroute, Hmin. split.
  { intros l' Hl'. specialize (Hmin _ (route_reach g _ _ l' Hl')).
    destruct Hl' as (Hhead & _). destruct l'; [done|]. simpl in *. lia. }
  pose proof (find_path_goal_last g (position c) (destination c)) as Hlastonly.
  fold l in Hlastonly.
  destruct Hroute as (Hhead & Hlast & Hadj & Hopen).
  destruct l as [|x rest] eqn:Hl; [done|]. simpl in Hhead. injection Hhead as ->.
  destruct rest as [|y rest].
  { simpl in Hlast. by injection Hlast. }
  subst n. simpl length.
  replace (S (S (length rest)) - 1)%nat with (S (length rest)) by lia.
  intros [|k] Hk.
  { unfold drive. simpl. by rewrite Hc. }
  assert (planned_route g c = position c :: y :: rest) as Hplan.
  { unfold planned_route. by rewrite Hpath. }
  rewrite drive_succ, moved_car_planned, <- drive_succ by (by rewrite ?Hplan).
  rewrite Hplan.
  apply Forall_cons in Hopen as [_ Hopen]. rewrite last_cons_cons in Hlast.
  assert (Forall (λ p, can_move_to g p = true) (y :: rest)) as Hmove.
  { eapply Forall_impl; [exact Hopen|]. intros p Hp. by apply open_cell_can_move_to. }
  assert (∀ j w, (y :: rest) !! j = Some w → (S j < length (y :: rest))%nat →
                 w ≠ destination c) as Huniq.
  { intros j w Hj Hlt Heq. subst w.
    specialize (Hlastonly (S j) Hconn Hj). simpl in *. lia. }
  assert (k < length (y :: rest))%nat as Hk' by (simpl; lia).
  destruct (drive_stored g (y :: rest) (position c)
              (mkCar (position c) (destination c) (color c) (position c :: y :: rest)
                     (stuck_time c) false) k eq_refl eq_refl Hmove Hlast Huniq Hk')
    as [Hpos Hdone].
  split; [exact Hpos|]. rewrite Hdone. apply bool_decide_ext. simpl. lia.
Qed.

End OpenRoad.

(** ** The vehicles on the grid *)

Lemma business_position_Some (col : CarColor) (bs : list Building) (p : Position) :
  business_position col bs = Some p →
  ∃ business, business ∈ bs ∧ b_type business = BUSINESS ∧ b_color business = col
              ∧ b_position business = p.
Proof.
  unfold business_position, matching_business. intros H.
  destruct (list_find _ bs) as [[i b]|] eqn:Hfind; [|done].
  simpl in H. injection H as <-.
  apply list_find_Some in Hfind as (Hi & [Ht Hc] & _).
  exists b. split; [by eapply list_elem_of_lookup_2|done].
Qed.

Section VehiclesOnTheGrid.

Context {PQ : PriorityQueue} {RE : RandomEngine}.
Context (Hpq : pq_correct PQ) (Hrange : engine_in_range RE).

Lemma spawn_cars_on_the_road (e : Env) (rng : Rng) :
  sites_ok e → on_the_road e → on_the_road (spawn_cars e rng).1.
Proof.
  intros [Htiles _ _] Hroad. unfold spawn_cars.
  destruct (Z.rem (current_step e) 5 =? 0); [|done].
  destruct (spawn_loop_appends (seq 0 (length (buildings e))) (buildings e) (cars e) rng)
    as (new & Hnew & _ & Hcs).
  destruct (foldl _ _ _) as [[bs cs] rng']. simpl in *. subst cs.
  intros c [Hc|Hc]%elem_of_app; [by apply Hroad|].
  destruct (Hcs c Hc) as (Hhouse & Hbusiness & _).
  apply list_elem_of_fmap in Hhouse as (house & [= Hp _ Hk] & Hin).
  apply business_position_Some in Hbusiness as (business & Hin' & Hk' & _ & Hp').
  destruct (Htiles house Hin) as (Hv & _ & Htile).
  destruct (Htiles business Hin') as (_ & _ & Htile').
  split; [congruence|]. intros Heq.
  assert (b_type house = b_type business) as Hsame by congruence.
  congruence.
Qed.

Lemma simulate_traffic_on_the_road (e : Env) :
  (∀ c, c ∈ cars e → completed c = false) → (∀ c, c ∈ cars e → route_ok c) →
  on_the_road e → on_the_road (simulate_traffic e).
Proof.
  intros Hact Hroutes Hroad c'.
  destruct (simulate_traffic_spec e) as [-> _].
  intros [Hdone Hin]%list_elem_of_filter.
  apply list_elem_of_fmap in Hin as (c & -> & Hin).
  destruct (Hroad c Hin) as [Hv Hne].
  destruct (moved_car_cases Hpq (grid e) c (Hact c Hin) (Hroutes c Hin))
    as (_ & Hdest & _ & [(Hpos & _)|(_ & Hmove & _ & _ & Harrive)]).
  - rewrite Hpos, Hdest. by split.
  - split.
    + unfold can_move_to in Hmove.
      by destruct (is_valid_position (position (moved_car (grid e) c))).
    + rewrite Hdest. intros Heq. apply Harrive in Heq. congruence.
Qed.

Lemma reachable_on_the_road (e : Env) (rng : Rng) : reachable e rng → on_the_road e.
Proof.
  induction 1 as [rng|e rng Hreach IH|e rng action Hreach IH|e rng kind x y Hreach IH].
  - intros c Hc. by apply elem_of_nil in Hc.
  - destruct (reset_fields e rng) as (Hcars & _).
    intros c Hc. rewrite Hcars in Hc. by apply elem_of_nil in Hc.
  - pose proof (reachable_env_ok e rng Hreach) as Hok.
    pose proof (reachable_traffic_ok Hpq e rng Hreach) as Htraffic.
    pose proof (reachable_sites_ok Hrange e rng Hreach) as Hsites.
    unfold step. destruct (game_over e || negb (length action =? 3)%nat); [done|].
    destruct (apply_action_fields e action) as (Ac & Ab & _).
    assert (on_the_road (simulate_traffic (apply_action e action))) as Hroad.
    { apply simulate_traffic_on_the_road; unfold on_the_road; rewrite Ac; [| |done].
      - intros c Hc. by destruct (ok_cars e Hok c Hc).
      - apply Htraffic. }
    assert (sites_ok (simulate_traffic (apply_action e action))) as Hsites'.
    { destruct (simulate_traffic_frame (apply_action e action)) as (Tg & Tb & _).
      apply (sites_ok_ext (apply_action e action)); [done|by rewrite Tb|].
      unfold apply_action.
      destruct (_ <? 6); [apply execute_action_sites_ok; [apply Hok|]|];
        by apply (sites_ok_ext e). }
    pose proof (spawn_cars_on_the_road _ rng Hsites' Hroad) as H.
    by destruct (spawn_cars _ _) as [e3 rng'].
  - destruct (execute_action_shape e kind x y) as (Ac & _).
    unfold on_the_road. by rewrite Ac.
Qed.

(** With position draws on the grid and a least-cost queue, every active
    vehicle of a reachable state stands on a cell of the grid, away from
    its destination, and its destination is a cell of the grid that holds
    a business tile.  So the bounds test of the density layer in
    [get_observation] never leaves a vehicle out, and no vehicle idles on
    its destination. *)
Theorem vehicles_stay_on_the_grid (e : Env) (rng : Rng) (c : Car) :
  reachable e rng → c ∈ cars e →
  is_valid_position (position c) = true
  ∧ position c ≠ destination c
  ∧ is_valid_position (destination c) = true
  ∧ tile_at (grid e) (destination c) = BUSINESS.
Proof.
  intros Hreach Hc.
  destruct (reachable_on_the_road e rng Hreach c Hc) as [Hv Hne].
  split; [done|]. split; [done|].
  pose proof (traffic_bound e (reachable_traffic_ok Hpq e rng Hreach) c Hc) as Hbound.
  apply business_position_Some in Hbound as (business & Hin & Hk & _ & Hp).
  destruct (sites_tiles e (reachable_sites_ok Hrange e rng Hreach) business Hin)
    as (Hvb & _ & Htile).
  rewrite <- Hp. split; [done|]. by rewrite Htile.
Qed.

End VehiclesOnTheGrid.

(** ** The properties of this part on concrete inputs *)

Lemma demo_state_vehicle :
  new_car (mkPosition 0 1) (mkPosition 6 7) RED ∈ cars demo_state.1.
Proof. apply (list_elem_of_lookup_2 _ 0%nat). vm_compute. reflexivity. Qed.

Lemma counter_engine_in_range : engine_in_range counter_engine.
Proof.
  intros n. simpl. unfold GRID_WIDTH, GRID_HEIGHT.
  pose proof (Nat.mod_upper_bound n 20). lia.
Qed.

Lemma grid_ok_three_roads : grid_ok three_roads.
Proof. unfold three_roads. do 3 apply grid_ok_set_tile. exact grid_ok_empty_grid. Qed.

Lemma vehicles_hold_routes_to_their_business_witness :
  0 ≤ congestion_penalty demo_state.1
  ∧ ∀ c, c ∈ cars demo_state.1 →
      business_position (color c) (buildings demo_state.1) = Some (destination c)
      ∧ route_ok c ∧ 0 ≤ stuck_time c.
Proof.
  exact (vehicles_hold_routes_to_their_business (PQ := first_min_queue)
           (RE := counter_engine) pop_min_correct demo_state.1 demo_state.2
           demo_state_reachable).
Defined.

Lemma vehicle_moves_one_cell_witness :
  let c := new_car (mkPosition 0 1) (mkPosition 6 7) RED in
  let c' := moved_car (PQ := first_min_queue) (grid demo_state.1) c in
  destination c' = destination c ∧ color c' = color c
  ∧ ((position c' = position c ∧ completed c' = false
      ∧ stuck_time c' = stuck_time c
                        + (if stalls (PQ := first_min_queue) (grid demo_state.1) c
                           then 1 else 0))
     ∨ (adjacent4 (position c) (position c')
        ∧ can_move_to (grid demo_state.1) (position c') = true
        ∧ stuck_time c' = 0 ∧ stalls (PQ := first_min_queue) (grid demo_state.1) c = false
        ∧ (completed c' = true ↔ position c' = destination c))).
Proof.
  exact (vehicle_moves_one_cell (PQ := first_min_queue) (RE := counter_engine)
           pop_min_correct demo_state.1 demo_state.2
           (new_car (mkPosition 0 1) (mkPosition 6 7) RED) (grid demo_state.1)
           demo_state_reachable demo_state_vehicle
           (ok_grid _ (reachable_env_ok (PQ := first_min_queue) (RE := counter_engine)
                         demo_state.1 demo_state.2 demo_state_reachable))).
Defined.

Lemma fresh_route_never_stalls_witness :
  let c := new_car (mkPosition 0 0) (mkPosition 2 0) RED in
  stalls (PQ := first_min_queue) three_roads c = false
  ∧ penalised (PQ := first_min_queue) three_roads c = false.
Proof.
  intros c.
  apply (fresh_route_never_stalls (PQ := first_min_queue) pop_min_correct three_roads c).
  - exact grid_ok_three_roads.
  - reflexivity.
Defined.

Lemma buildings_stand_on_their_tiles_witness :
  (∀ b, b ∈ buildings demo_state.1 →
     is_valid_position (b_position b) = true
     ∧ (b_type b = HOUSE ∨ b_type b = BUSINESS)
     ∧ tile_at (grid demo_state.1) (b_position b) = b_type b)
  ∧ NoDup (b_position <$> buildings demo_state.1)
  ∧ (∀ p, is_valid_position p = true →
       tile_at (grid demo_state.1) p = HOUSE ∨ tile_at (grid demo_state.1) p = BUSINESS →
       ∃ b, b ∈ buildings demo_state.1 ∧ b_position b = p).
Proof.
  exact (buildings_stand_on_their_tiles (PQ := first_min_queue) (RE := counter_engine)
           counter_engine_in_range demo_state.1 demo_state.2 demo_state_reachable).
Defined.

Lemma observation_values_in_range_witness :
  ∃ obs, get_observation demo_state.1 = Some obs
         ∧ ∀ i q, obs !! i = Some q → value_in_range i q.
Proof.
  exact (observation_values_in_range (PQ := first_min_queue) (RE := counter_engine)
           demo_state.1 demo_state.2 demo_state_reachable).
Defined.

Lemma render_ui_draws_the_stock_witness :
  ∃ quads,
    render_ui (score demo_state.1) (current_step demo_state.1) (resources demo_state.1)
    = Some quads
    ∧ Z.of_nat (length quads)
      = Z.min (resource_count (resources demo_state.1) "roads") 10
        + resource_count (resources demo_state.1) "motorways"
        + resource_count (resources demo_state.1) "bridges"
        + resource_count (resources demo_state.1) "roundabouts"
        + resource_count (resources demo_state.1) "traffic_lights"
        + Z.quot (score demo_state.1) 5
    ∧ Z.quot (score demo_state.1) 5 ≤ 2
    ∧ (length quads ≤ 20)%nat.
Proof.
  exact (render_ui_draws_the_stock (PQ := first_min_queue) (RE := counter_engine)
           demo_state.1 demo_state.2 demo_state_reachable).
Defined.

Lemma reset_forgets_history_witness :
  reset (RE := counter_engine) demo_state.1 7%nat = reset (RE := counter_engine) new_env 7%nat.
Proof.
  exact (reset_forgets_history (PQ := first_min_queue) (RE := counter_engine)
           demo_state.1 demo_state.2 7%nat demo_state_reachable).
Defined.

Lemma training_episode_reward_witness :
  ∃ e' rng' agent' n,
    run_episode (PQ := first_min_queue) (RE := counter_engine)
                (AG := RandomAgent (AE := counter_agent_engine))
                1001 (λ _, false) new_env 0%nat 0%nat
    = Finished (e', rng', agent', Z.of_nat n)
    ∧ current_step e' = Z.of_nat n ∧ (n ≤ 1000)%nat
    ∧ (∀ j, (j < n)%nat → (λ _ : nat, false) j = false)
    ∧ ((n < 1000)%nat → (λ _ : nat, false) n = true)
    ∧ 0 ≤ score e' ≤ 10.
Proof.
  apply (training_episode_reward (PQ := first_min_queue) (RE := counter_engine)
           (AG := RandomAgent (AE := counter_agent_engine))
           (λ _, false) 1001 new_env 0%nat 0%nat).
  - intros a obs. exact (random_action_length (AE := counter_agent_engine) a).
  - exact (reachable_new (PQ := first_min_queue) (RE := counter_engine) 0%nat).
  - lia.
Defined.

Lemma malformed_agent_never_finishes_witness :
  run_episode (PQ := first_min_queue) (RE := counter_engine) (AG := silent_agent)
              5000 (λ _, false) new_env 0%nat tt
  = OutOfFuel.
Proof.
  apply (malformed_agent_never_finishes (PQ := first_min_queue) (RE := counter_engine)
           (AG := silent_agent) (λ _, false) 5000 new_env 0%nat tt).
  - intros a obs. simpl. lia.
  - reflexivity.
  - exact (reachable_new (PQ := first_min_queue) (RE := counter_engine) 0%nat).
Defined.

Lemma vehicle_arrives_by_the_shortest_route_witness :
  let c := new_car (mkPosition 0 0) (mkPosition 2 0) RED in
  let l := find_path (PQ := first_min_queue) (position c) (destination c) three_roads in
  let n := (length l - 1)%nat in
  (∀ l', route three_roads (position c) (destination c) l' → (n ≤ length l' - 1)%nat)
  ∧ ∀ k, (k ≤ n)%nat →
         l !! k = Some (position (drive (PQ := first_min_queue) three_roads k c))
         ∧ completed (drive (PQ := first_min_queue) three_roads k c) = bool_decide (k = n).
Proof.
  intros c.
  apply (vehicle_arrives_by_the_shortest_route (PQ := first_min_queue) pop_min_correct
           three_roads c).
  - exact grid_ok_three_roads.
  - reflexivity.
  - reflexivity.
  - simpl. intros [=].
  - exists [mkPosition 0 0; mkPosition 1 0; mkPosition 2 0].
    split; [reflexivity|]. split; [reflexivity|]. split.
    + unfold adjacent4. simpl. repeat (split; [reflexivity|]). exact I.
    + repeat (apply Forall_cons_2; [split; [vm_compute; intuition discriminate|reflexivity]|]).
      apply Forall_nil_2.
Defined.

Lemma vehicles_stay_on_the_grid_witness :
  let c := new_car (mkPosition 0 1) (mkPosition 6 7) RED in
  is_valid_position (position c) = true
  ∧ position c ≠ destination c
  ∧ is_valid_position (destination c) = true
  ∧ tile_at (grid demo_state.1) (destination c) = BUSINESS.
Proof.
  exact (vehicles_stay_on_the_grid (PQ := first_min_queue) (RE := counter_engine)
           pop_min_correct counter_engine_in_range demo_state.1 demo_state.2
           (new_car (mkPosition 0 1) (mkPosition 6 7) RED)
           demo_state_reachable demo_state_vehicle).
Defined.
